(** * p5.js colour module: creating and reading colours

    A shallow embedding of [src/color/creating_reading.js]: the colour
    constructor [color], the component accessors [red], [green], [blue],
    [alpha], [hue], [saturation], [brightness], the interpolation
    [lerpColor] and the private conversion [rgb2hsv].

    JavaScript numbers are IEEE 754 binary64 values; they are embedded as
    Rocq's primitive [float]s, whose operations are the same binary64
    operations (round to nearest, ties to even).  Colour objects are
    mutable (the accessors fill the [hsba] cache in place), so they live
    in a store indexed by references.

    The file has the definitions first: numbers, [rgb2hsv], values and
    the store, the sketch, and the vocabulary that relates binary64
    arithmetic to the reals.  Then come the facts: the colour objects
    under [color] and the accessors, the rounding of the binary64
    operations, [rgb2hsv] on the display range, and worked cases. *)

From Stdlib Require Import ZArith Floats Uint63 Lia Reals Lra.
From stdpp Require Import base option list strings gmap.

#[local] Set Warnings "-register-all".

(** ** Numbers *)

Module Num.

Local Open Scope float_scope.

(** The number whose value is the integer [n] (exact below [2^53]). *)
Definition of_Z (n : Z) : float :=
  match n with
  | Z0 => 0
  | Zpos _ => of_uint63 (Uint63.of_Z n)
  | Zneg p => - of_uint63 (Uint63.of_Z (Zpos p))
  end.

(** [Math.round]: the integral number closest to [x], the one closer to
    [+∞] when two are equally close; [NaN], the infinities and both
    zeros are returned unchanged, and a negative [x >= -0.5] gives [-0].
    A finite [x] is [±m * 2^e]; when [e < 0] the result is
    [floor (x + 1/2)], computed exactly on integers. *)
Definition Math_round (x : float) : float :=
  match Prim2SF x with
  | S754_finite s m e =>
      if (0 <=? e)%Z then x
      else
        let sm := if s then Zneg m else Zpos m in
        let n := ((2 * sm + 2 ^ (- e)) / 2 ^ (1 - e))%Z in
        if (n =? 0)%Z then (if s then -0 else 0) else of_Z n
  | _ => x
  end.

(** The larger of two numbers as [Math.max] compares them: [NaN] if
    either is [NaN], and [+0] is larger than [-0]. *)
Definition max2 (a b : float) : float :=
  if is_nan a || is_nan b then nan
  else if a <? b then b
  else if b <? a then a
  else if get_sign a then b else a.

(** The smaller of two numbers as [Math.min] compares them. *)
Definition min2 (a b : float) : float :=
  if is_nan a || is_nan b then nan
  else if a <? b then a
  else if b <? a then b
  else if get_sign a then a else b.

(** [Math.max(x1, ..., xn)], which is [-∞] without arguments. *)
Definition Math_max (xs : list float) : float := foldl max2 neg_infinity xs.

(** [Math.min(x1, ..., xn)], which is [+∞] without arguments. *)
Definition Math_min (xs : list float) : float := foldl min2 infinity xs.

(** [lo <= x <= hi] as the comparison of numbers decides it. *)
Definition between (lo hi x : float) : Prop :=
  (lo <=? x) = true ∧ (x <=? hi) = true.

End Num.

(** ** rgb2hsv *)

Section Rgb2hsv.

Import Num.
Local Open Scope float_scope.

(** The two conditional corrections of the hue, [if (H<0) H += 1] and
    [if (H>1) H -= 1].  [H] is [None] while the variable is still
    [undefined]; a comparison with [undefined] is false. *)
Definition wrap_hue (H : option float) : option float :=
  let H := match H with
           | Some h => if h <? 0 then Some (h + 1) else Some h
           | None => None
           end in
  match H with
  | Some h => if 1 <? h then Some (h - 1) else Some h
  | None => None
  end.

(** [H * 255], where [undefined * 255] is [NaN]. *)
Definition scale_hue (H : option float) : float :=
  match H with
  | Some h => h * 255
  | None => nan
  end.

(** The branch of the chromatic case: which channel equals the maximum,
    tested in the order red, green, blue. *)
Definition hue_of_max (var_R var_G var_B var_Max del_R del_G del_B : float)
  : option float :=
  if var_R =? var_Max then Some (del_B - del_G)
  else if var_G =? var_Max then Some (1 / 3 + del_R - del_B)
  else if var_B =? var_Max then Some (2 / 3 + del_G - del_R)
  else None.

(** The body of [rgb2hsv] up to its [return]: the hue, saturation and
    value "from 0 to 1". *)
Definition hsv01 (r g b : float) : option float * float * float :=
  let var_R := r / 255 in
  let var_G := g / 255 in
  let var_B := b / 255 in
  let var_Min := Math_min [var_R; var_G; var_B] in
  let var_Max := Math_max [var_R; var_G; var_B] in
  let del_Max := var_Max - var_Min in
  let V := var_Max in
  let HS :=
    if del_Max =? 0 then (Some 0, 0)
    else
      let S := del_Max / var_Max in
      let del_R := ((var_Max - var_R) / 6 + del_Max / 2) / del_Max in
      let del_G := ((var_Max - var_G) / 6 + del_Max / 2) / del_Max in
      let del_B := ((var_Max - var_B) / 6 + del_Max / 2) / del_Max in
      let H := hue_of_max var_R var_G var_B var_Max del_R del_G del_B in
      (wrap_hue H, S) in
  (fst HS, snd HS, V).

Definition rgb2hsv (r g b : float) : list float :=
  let hsv := hsv01 r g b in
  let H := fst (fst hsv) in
  let S := snd (fst hsv) in
  let V := snd hsv in
  [Math_round (scale_hue H); Math_round (S * 255); Math_round (V * 255)].

End Rgb2hsv.

(** ** Values, colour objects and the store *)

(** References to the objects of the store. *)
Abbreviation loc := positive.

(** The JavaScript values the functions of this module receive and
    return.  Arrays are only read or freshly built here, so they are
    values; colour objects are updated in place and are references.
    A string is the sequence of its UTF-16 code units, which is what
    an index reads. *)
Inductive val :=
| VUndef
| VNull
| VBool (b : bool)
| VNum (x : float)
| VStr (s : list N)
| VArr (xs : list val)
| VObj (l : loc).

(** [typeof v === 'number'] *)
Definition typeof_number (v : val) : bool :=
  match v with
  | VNum _ => true
  | _ => false
  end.

(** [typeof v === 'object'], which holds of [null] too. *)
Definition typeof_object (v : val) : bool :=
  match v with
  | VNull | VArr _ | VObj _ => true
  | _ => false
  end.

(** [xs[i]] on an array: [undefined] out of range. *)
Definition index (xs : list val) (i : nat) : val := default VUndef (xs !! i).

(** [xs[i]] on an array of numbers, as a value. *)
Definition index_num (xs : list float) (i : nat) : val :=
  from_option VNum VUndef (xs !! i).

(** [xs[i]] on an array of numbers where a number is needed: the
    arithmetic of [rgb2hsv] turns [undefined] into [NaN]. *)
Definition number_at (xs : list float) (i : nat) : float := default nan (xs !! i).

(** The object [color] builds.  [hsba] is [None] while the property is
    absent. *)
Record Color := mkColor {
  isColor : bool;
  hsba : option (list val);
  rgba : list float;
  colorString : string
}.

(** [c.hsba = t] *)
Definition set_hsba (t : list val) (c : Color) : Color :=
  mkColor (isColor c) (Some t) (rgba c) (colorString c).

(** The state of a run: the colour objects that exist, and the log of
    the calls of [rgb2hsv] made so far, each with its arguments (the
    log is instrumentation: no function reads it). *)
Record World := mkWorld {
  heap : gmap loc Color;
  conversions : list (float * float * float)
}.

(** What a call does: it returns a value in a new state, or throws a
    [TypeError] (a property read on [undefined] or [null]). *)
Inductive outcome (A : Type) :=
| Returns (a : A) (w : World)
| Throws.
Arguments Returns {A} a w.
Arguments Throws {A}.

Definition M (A : Type) : Type := World → outcome A.

#[global] Instance M_ret : MRet M := λ A a w, Returns a w.

#[global] Instance M_bind : MBind M :=
  λ A B k m w, match m w with
               | Returns a w' => k a w'
               | Throws => Throws
               end.

Definition throw {A} : M A := λ _, Throws.

(** ** The sketch: colour mode and ranges *)

Inductive ColorMode := RGB | HSB.

(** The properties of [this] that the module reads. *)
Record P5 := mkP5 {
  _colorMode : ColorMode;
  _maxRGB : list float;
  _maxHSB : list float
}.

(** [this._colorMode === constants.RGB] *)
Definition isRGB (this : P5) : bool :=
  match _colorMode this with
  | RGB => true
  | HSB => false
  end.

(** [isRGB ? this._maxRGB : this._maxHSB] *)
Definition maxArr (this : P5) : list float :=
  if isRGB this then _maxRGB this else _maxHSB this.

(** ** Integer channel values *)

(** The integers 0 to 255, the channel values of the display range. *)
Definition bytes : list Z := Z.of_nat <$> seq 0 256.

(** Equality of numbers as values ([NaN] equal to itself, [+0] and
    [-0] distinct), on lists. *)
Fixpoint same_numbers (xs ys : list float) : bool :=
  match xs, ys with
  | [], [] => true
  | x :: xs', y :: ys' => Leibniz.eqb x y && same_numbers xs' ys'
  | _, _ => false
  end.

(** The default sketch, [colorMode(RGB, 255)]. *)
Definition RGBContext : P5 :=
  mkP5 RGB [255; 255; 255; 255]%float [255; 255; 255; 255]%float.

(** A sketch after [colorMode(HSB, m)]. *)
Definition HSBContext (m : float) : P5 :=
  mkP5 HSB [255; 255; 255; 255]%float [m; m; m; m].

(** Modelled from the spec: [normalizeToDisplayRange], the range mapping
    behind [getNormalizedColor], which is defined in another module; the
    spec gives it as a linear scaling of each channel of the raw tuple
    to 0-255 by the active mode's maximum, a missing or non-numeric
    entry giving [NaN]. *)
Definition normalizeToDisplayRange (this : P5) (t : list val) : list float :=
  zip_with (λ v m, match v with
                   | VNum x => (x * 255 / m)%float
                   | _ => nan
                   end) t (maxArr this).

(** Modelled from the spec: [formatColorString], the formatting behind
    [getColorString], which is defined in another module; the spec
    fixes only that the text is derived from [rgba], and a constant
    text stands for it. *)
Definition formatColorString (this : P5) (rgba : list float) : string := "rgba".

(** Modelled from the spec: the scalar [lerp(a,b,t) = a + (b-a)*t],
    defined in another module; [NaN] on what is not a number. *)
Definition scalar_lerp (a b t : val) : val :=
  match a, b, t with
  | VNum a, VNum b, VNum t => VNum (a + (b - a) * t)%float
  | _, _, _ => VNum nan
  end.

(** The largest number below one half. *)
Definition below_half : float := 0x1.fffffffffffffp-2%float.

(** ** Sample states *)

(** The colour [color(65)] of the default sketch, and a state that
    holds it at reference 1. *)
Definition gray65 : Color :=
  {| isColor := true;
     hsba := None;
     rgba := [65; 65; 65; 255]%float;
     colorString := "rgba" |}.

Definition world65 : World := mkWorld {[1%positive := gray65]} [].

(** The colour [color(50, 55, 100)] after [colorMode(HSB, 100)], under
    the linear range mapping. *)
Definition hsb_sample : Color :=
  {| isColor := true;
     hsba := Some [VNum 50%float; VNum 55%float; VNum 100%float; VNum 100%float];
     rgba := [127.5; 140.25; 255; 255]%float;
     colorString := "rgba" |}.

(** ** Binary64 rounding: the vocabulary

    The arithmetic of [rgb2hsv] is binary64 arithmetic.  To bound its
    results the operations of the primitive floats are related to the
    reals: each returns the real result rounded to nearest, ties to
    even.  This module states what that means; the facts are proved
    further down from the specification of the primitive floats. *)

Module Round.

Local Open Scope R_scope.

(** [2^e] as a real. *)
Definition bpow (e : Z) : R := powerRZ 2 e.

(** The exponent of the format at magnitude [k]. *)
Definition cexp (k : Z) : Z := Z.max (k - 53) (-1074).

(** [k] is the magnitude of the positive real [x]. *)
Definition mag_is (x : R) (k : Z) : Prop := bpow (k - 1) <= x < bpow k.

(** [n] is the integer nearest to [t], the even one at a tie. *)
Definition rne (t : R) (n : Z) : Prop :=
  IZR n - / 2 <= t <= IZR n + / 2 ∧
  (t = IZR n - / 2 ∨ t = IZR n + / 2 → Z.even n = true).

(** [y] is the positive real [x] rounded to nearest, ties to even, in
    the format (without upper bound on the exponent). *)
Definition rounds_pos (x y : R) : Prop :=
  ∃ k n, mag_is x k ∧ rne (x / bpow (cexp k)) n ∧ y = IZR n * bpow (cexp k).

(** The same for any real. *)
Definition rounds (x y : R) : Prop :=
  (x = 0 ∧ y = 0) ∨ (0 < x ∧ rounds_pos x y) ∨ (x < 0 ∧ rounds_pos (- x) (- y)).

(** The fractional part [f] is where the location says. *)
Definition loc_ok (l : location) (f : R) : Prop :=
  match l with
  | loc_Exact => f = 0
  | loc_Inexact Lt => 0 < f < / 2
  | loc_Inexact Eq => f = / 2
  | loc_Inexact Gt => / 2 < f < 1
  end.

(** The record holds the integer part of [t] and the location of the rest. *)
Definition inb (mrs : shr_record) (t : R) : Prop :=
  (0 <= shr_m mrs)%Z ∧ loc_ok (loc_of_shr_record mrs) (t - IZR (shr_m mrs)).

(** What [binary_round_aux] returns on a mantissa [m], an exponent [e]
    and a location that describe the positive real [x], provided [e]
    is not above the exponent of the format at [x]. *)
Definition result_of (s : bool) (y : R) (r : spec_float) : Prop :=
  match r with
  | S754_zero s' => s' = s ∧ y = 0
  | S754_finite s' m' e' =>
      s' = s ∧ y = IZR (Zpos m') * bpow e' ∧ SpecFloat.bounded prec emax m' e' = true
  | S754_infinity s' => s' = s ∧ bpow 1024 <= y
  | S754_nan => False
  end.

(** The real a finite number stands for. *)
Definition SF2R (f : spec_float) : R :=
  match f with
  | S754_finite s m e => (if s then -1 else 1) * (IZR (Zpos m) * bpow e)
  | _ => 0
  end.

Definition is_fin (f : spec_float) : bool :=
  match f with
  | S754_finite _ _ _ | S754_zero _ => true
  | _ => false
  end.

(** A finite number in canonical form. *)
Definition fin (f : spec_float) : Prop :=
  is_fin f = true ∧ valid_binary f = true.

(** [r] is the rounding of the real [v], as long as that does not
    overflow. *)
Definition fl_ok (v : R) (r : spec_float) : Prop :=
  ∃ y, rounds v y ∧ (Rabs y < bpow 1024 → fin r ∧ SF2R r = y).

(** What a comparison says about two reals. *)
Definition cmp_ok (c : option comparison) (a b : R) : Prop :=
  match c with
  | Some Lt => a < b
  | Some Eq => a = b
  | Some Gt => b < a
  | None => False
  end.

Local Open Scope float_scope.

(** The real a finite float stands for. *)
Definition B2R (x : float) : R := SF2R (Prim2SF x).

Definition finite (x : float) : Prop := is_fin (Prim2SF x) = true.

(** [x] is finite and its value lies between [lo] and [hi]. *)
Definition within (lo hi : R) (x : float) : Prop :=
  finite x ∧ (lo <= B2R x <= hi)%R.

End Round.

Section Color.

(** The methods of [this] defined in other modules: the mapping of a
    raw tuple to the display range, the formatting of the display
    string, and the scalar interpolation. *)
Variable getNormalizedColor : P5 → list val → list float.
Variable getColorString : P5 → list float → string.
Variable lerp : val → val → val → val.

(** The array [[r, g, b, a]] that [color] computes from its arguments. *)
Definition color_channels (this : P5) (args : list val) : list val :=
  if bool_decide (3 ≤ length args) then
    let r := index args 0 in
    let g := index args 1 in
    let b := index args 2 in
    let a := if typeof_number (index args 3) then index args 3
             else index_num (maxArr this) 3 in
    [r; g; b; a]
  else
    let a := if typeof_number (index args 1) then index args 1
             else index_num (maxArr this) 3 in
    if isRGB this then
      [index args 0; index args 0; index args 0; a]
    else
      [index args 0; VNum 0; index args 0; a].

(** The object [color] returns, before it is stored. *)
Definition new_color (this : P5) (args : list val) : Color :=
  let t := color_channels this args in
  let rgba := getNormalizedColor this t in
  {| isColor := true;
     hsba := if isRGB this then None else Some t;
     rgba := rgba;
     colorString := getColorString this rgba |}.

(** [color]: a new object, at a reference not in use. *)
Definition alloc_color (this : P5) (args : list val) : M loc :=
  λ w, let l := fresh (dom (heap w)) in
       Returns l (mkWorld (<[l := new_color this args]> (heap w)) (conversions w)).

Definition color (this : P5) (args : list val) : M val :=
  l ← alloc_color this args; mret (VObj l).

(** [if (!c.isColor) { c = this.color(c); }]: the reference of the
    colour the accessor reads.  Reading [isColor] of [undefined] or
    [null] throws; a number, boolean, string or array has no such
    property.  A reference to no object is no state of a program. *)
Definition as_color (this : P5) (c : val) : M loc :=
  match c with
  | VUndef | VNull => throw
  | VObj l =>
      λ w, match heap w !! l with
           | Some o => if isColor o then Returns l w
                       else alloc_color this [c] w
           | None => Throws
           end
  | _ => alloc_color this [c]
  end.

(** [c.rgba[i]] *)
Definition read_rgba (l : loc) (i : nat) : M val :=
  λ w, match heap w !! l with
       | Some o => Returns (index_num (rgba o) i) w
       | None => Throws
       end.

(** [rgb2hsv(c.rgba[0], c.rgba[1], c.rgba[2]).concat(c.rgba[3])] *)
Definition hsba_of_rgba (o : Color) : list val :=
  (VNum <$> rgb2hsv (number_at (rgba o) 0) (number_at (rgba o) 1)
                    (number_at (rgba o) 2))
  ++ [index_num (rgba o) 3].

(** The arguments of that call of [rgb2hsv], as the log records them. *)
Definition conversion_of (o : Color) : float * float * float :=
  (number_at (rgba o) 0, number_at (rgba o) 1, number_at (rgba o) 2).

(** [if (!c.hsba) { c.hsba = rgb2hsv(...).concat(c.rgba[3]); }]
    followed by the read of [c.hsba[i]]. *)
Definition read_hsba (l : loc) (i : nat) : M val :=
  λ w, match heap w !! l with
       | Some o =>
           match hsba o with
           | Some t => Returns (index t i) w
           | None =>
               let t := hsba_of_rgba o in
               Returns (index t i)
                 (mkWorld (<[l := set_hsba t o]> (heap w))
                    (conversions w ++ [conversion_of o]))
           end
       | None => Throws
       end.

Definition alpha (this : P5) (c : val) : M val :=
  l ← as_color this c; read_rgba l 3.

Definition blue (this : P5) (c : val) : M val :=
  l ← as_color this c; read_rgba l 2.

Definition brightness (this : P5) (c : val) : M val :=
  l ← as_color this c; read_hsba l 2.

Definition green (this : P5) (c : val) : M val :=
  l ← as_color this c; read_rgba l 1.

Definition hue (this : P5) (c : val) : M val :=
  l ← as_color this c; read_hsba l 0.

Definition red (this : P5) (c : val) : M val :=
  l ← as_color this c; read_rgba l 0.

Definition saturation (this : P5) (c : val) : M val :=
  l ← as_color this c; read_hsba l 1.

(** [c2[i]] for any value [c2]: a read on [undefined] or [null]
    throws ([None]); a string gives the string of its code unit at
    [i], or [undefined] past its end; a number, a boolean and a colour
    object have no such property. *)
Definition get_index (c2 : val) (i : nat) : option val :=
  match c2 with
  | VUndef | VNull => None
  | VArr ys => Some (index ys i)
  | VStr s => Some (from_option (λ u, VStr [u]) VUndef (s !! i))
  | VBool _ | VNum _ | VObj _ => Some VUndef
  end.

(** The loop [for (var i=0; i<c1.length; i++) c.push(lerp(c1[i], c2[i], amt))]
    over the array [c1], from index [i] with [n] iterations left and
    [c] built so far. *)
Fixpoint lerp_loop (n i : nat) (c c1 : list val) (c2 amt : val)
  : option (list val) :=
  match n with
  | O => Some c
  | S n' =>
      y ← get_index c2 i;
      lerp_loop n' (S i) (c ++ [lerp (index c1 i) y amt]) c1 c2 amt
  end.

(** [lerpColor]; [None] when it throws.  For [null], reading [length]
    throws; a colour object has no [length], and [0 < undefined] is
    false, so the loop body never runs. *)
Definition lerpColor (c1 c2 amt : val) : option val :=
  if typeof_object c1 then
    match c1 with
    | VArr xs => VArr <$> lerp_loop (length xs) 0 [] xs c2 amt
    | VNull => None
    | _ => Some (VArr [])
    end
  else Some (lerp c1 c2 amt).

(** *** Runs of accessor calls *)

Inductive accessor := Alpha | Blue | Brightness | Green | Hue | Red | Saturation.

Definition call (this : P5) (f : accessor) (c : val) : M val :=
  match f with
  | Alpha => alpha this c
  | Blue => blue this c
  | Brightness => brightness this c
  | Green => green this c
  | Hue => hue this c
  | Red => red this c
  | Saturation => saturation this c
  end.

(** The accessors that read [hsba]. *)
Definition reads_hsba (f : accessor) : bool :=
  match f with
  | Brightness | Hue | Saturation => true
  | Alpha | Blue | Green | Red => false
  end.

(** The index an accessor reads, in [rgba] or in [hsba]. *)
Definition slot (f : accessor) : nat :=
  match f with
  | Red | Hue => 0
  | Green | Saturation => 1
  | Blue | Brightness => 2
  | Alpha => 3
  end.

(** A sequence of calls, each with its own [this] (the colour mode may
    change between calls) and its own argument; the results in order. *)
Fixpoint run (calls : list (P5 * accessor * val)) : M (list val) :=
  match calls with
  | [] => mret []
  | (this, f, c) :: rest =>
      v ← call this f c; vs ← run rest; mret (v :: vs)
  end.

(** The calls [fs] all made on the object at [l]. *)
Definition on (l : loc) (fs : list (P5 * accessor)) : list (P5 * accessor * val) :=
  (λ tf, (tf.1, tf.2, VObj l)) <$> fs.

(** [!c.hsba] *)
Definition absent (o : Color) : bool :=
  match hsba o with
  | None => true
  | Some _ => false
  end.

(** [hsba], when present, is what [rgb2hsv] derives from [rgba],
    followed by the alpha of [rgba]. *)
Definition consistent (o : Color) : Prop :=
  ∀ t, hsba o = Some t → t = hsba_of_rgba o.

(** What a run can do to an object: nothing, or fill the absent
    [hsba] from [rgba]. *)
Definition filled (o o' : Color) : Prop :=
  o' = o ∨ (hsba o = None ∧ o' = set_hsba (hsba_of_rgba o) o).

(** *** The store under [color] and the accessors *)

Lemma heap_fresh (w : World) :
  heap w !! fresh (dom (heap w)) = None.
Proof. apply not_elem_of_dom, is_fresh. Qed.

Lemma alloc_color_keeps this args w l' w' l o :
  alloc_color this args w = Returns l' w' →
  heap w !! l = Some o →
  l ≠ l' ∧ heap w' !! l = Some o.
Proof.
  intros [= <- <-] Hl. simpl.
  assert (l ≠ fresh (dom (heap w))) as Hne.
  { intros ->. pose proof (heap_fresh w). congruence. }
  split; [done|]. by rewrite lookup_insert_ne.
Qed.

Lemma as_color_obj this l o w :
  heap w !! l = Some o → isColor o = true →
  as_color this (VObj l) w = Returns l w.
Proof. intros Hl Hc. simpl. by rewrite Hl, Hc. Qed.

(** [as_color] changes no object that exists and logs no conversion. *)
Lemma as_color_keeps this c w l' w' :
  as_color this c w = Returns l' w' →
  conversions w' = conversions w ∧
  is_Some (heap w' !! l') ∧
  ∀ l o, heap w !! l = Some o → heap w' !! l = Some o.
Proof.
  intros H.
  assert (alloc_color this [c] w = Returns l' w' ∨
          (w' = w ∧ is_Some (heap w !! l'))) as [Ha | [-> Hs]].
  { destruct c; simpl in H; try discriminate; auto.
    destruct (heap w !! l) as [o|] eqn:Hl; [|discriminate].
    destruct (isColor o); auto.
    injection H as <- <-. right. rewrite Hl. eauto. }
  - split_and!.
    + by injection Ha as <- <-.
    + injection Ha as <- <-. simpl. rewrite lookup_insert_eq. eauto.
    + intros l o Hl. by eapply alloc_color_keeps.
  - done.
Qed.

(** Every call leaves an object that exists in place, at most with its
    absent [hsba] filled. *)
Lemma call_filled this f c w v w' l o :
  call this f c w = Returns v w' →
  heap w !! l = Some o →
  ∃ o', heap w' !! l = Some o' ∧ filled o o'.
Proof.
  intros H Hl.
  assert (∃ l1 w1 i, as_color this c w = Returns l1 w1 ∧
            (read_rgba l1 i w1 = Returns v w' ∨ read_hsba l1 i w1 = Returns v w'))
    as (l1 & w1 & i & Ha & Hr).
  { destruct f; simpl in H; unfold alpha, blue, brightness, green, hue, red,
      saturation, mbind, M_bind in H;
      destruct (as_color this c w) as [l1 w1|]; try discriminate; eauto 10. }
  apply as_color_keeps in Ha as (_ & _ & Hk). apply Hk in Hl. clear Hk H.
  destruct Hr as [Hr | Hr].
  - unfold read_rgba in Hr. destruct (heap w1 !! l1); [|discriminate].
    injection Hr as _ <-. exists o. split; [done | by left].
  - unfold read_hsba in Hr. destruct (heap w1 !! l1) as [o1|] eqn:H1; [|discriminate].
    destruct (hsba o1) eqn:Ht.
    + injection Hr as _ <-. exists o. split; [done | by left].
    + injection Hr as _ <-. simpl. destruct (decide (l = l1)) as [->|Hne].
      * rewrite lookup_insert_eq. assert (o1 = o) as -> by congruence.
        eexists. split; [done | right; done].
      * rewrite lookup_insert_ne by done. exists o. split; [done | by left].
Qed.

Lemma filled_trans o1 o2 o3 : filled o1 o2 → filled o2 o3 → filled o1 o3.
Proof.
  intros [-> | [H1 ->]] [-> | [H2 ->]]; unfold filled; auto; done.
Qed.

Lemma run_filled calls : ∀ w vs w' l o,
  run calls w = Returns vs w' →
  heap w !! l = Some o →
  ∃ o', heap w' !! l = Some o' ∧ filled o o'.
Proof.
  induction calls as [|[[this f] c] rest IH]; intros w vs w' l o H Hl.
  - injection H as _ <-. exists o. split; [done | by left].
  - simpl in H. unfold mbind, M_bind in H.
    destruct (call this f c w) as [v w1|] eqn:Hc; [|discriminate].
    destruct (run rest w1) as [vs1 w2|] eqn:Hrun; [|discriminate].
    injection H as _ <-.
    destruct (call_filled _ _ _ _ _ _ _ _ Hc Hl) as (o1 & H1 & F1).
    destruct (IH _ _ _ _ _ Hrun H1) as (o2 & H2 & F2).
    exists o2. split; [done | by eapply filled_trans].
Qed.

Lemma filled_consistent o o' : filled o o' → consistent o → consistent o'.
Proof.
  intros [-> | [Hn ->]] Hc; [done|].
  intros t [= <-]. done.
Qed.

(** A call on a colour object, case by case. *)
Lemma call_on this f l o w :
  heap w !! l = Some o → isColor o = true →
  call this f (VObj l) w =
    if reads_hsba f then
      match hsba o with
      | Some t => Returns (index t (slot f)) w
      | None =>
          Returns (index (hsba_of_rgba o) (slot f))
            (mkWorld (<[l := set_hsba (hsba_of_rgba o) o]> (heap w))
               (conversions w ++ [conversion_of o]))
      end
    else Returns (index_num (rgba o) (slot f)) w.
Proof.
  intros Hl Hc.
  destruct f; simpl;
    unfold alpha, blue, brightness, green, hue, red, saturation, mbind, M_bind;
    rewrite (as_color_obj _ _ _ _ Hl Hc);
    unfold read_rgba, read_hsba; rewrite Hl; reflexivity.
Qed.

(** C7: with fewer than three numeric values, the single value fills
    all three channels in RGB mode, and the hue and brightness slots
    with saturation 0 in the other mode; a second value is the alpha,
    and without one the alpha is the fourth maximum of the mode.  The
    tuple is what the range mapping receives (and, outside RGB mode,
    what is stored as [hsba]). *)
Theorem color_few_values this (xs : list float) w :
  length xs < 3 →
  let args := VNum <$> xs in
  let x := index args 0 in
  let a := from_option VNum (index_num (maxArr this) 3) (xs !! 1) in
  let t := if isRGB this then [x; x; x; a] else [x; VNum 0%float; x; a] in
  color_channels this args = t ∧
  ∃ l w' o, color this args w = Returns (VObj l) w' ∧
    heap w' !! l = Some o ∧
    rgba o = getNormalizedColor this t ∧
    hsba o = (if isRGB this then None else Some t).
Proof.
  intros Hlen args x a t.
  assert (color_channels this args = t) as Ht.
  { unfold color_channels, t, a, x, args.
    rewrite bool_decide_eq_false_2 by (rewrite length_fmap; lia).
    destruct xs as [|x0 [|x1 xs]]; simpl; destruct (isRGB this); reflexivity. }
  split; [done|].
  eexists _, _, _. split; [reflexivity|]. simpl.
  rewrite lookup_insert_eq. split; [reflexivity|].
  unfold new_color. simpl. rewrite Ht. done.
Qed.


Lemma lerp_loop_spec c2 amt ys xs : ∀ n i c,
  c2 = VArr ys →
  lerp_loop n i c xs c2 amt =
    Some (c ++ ((λ j, lerp (index xs j) (index ys j) amt) <$> seq i n)).
Proof.
  induction n as [|n IH]; intros i c ->; simpl.
  - by rewrite app_nil_r.
  - rewrite IH by done. by rewrite <- app_assoc.
Qed.

(** C9: on arrays the result is a new array with one element per
    element of the first array, the scalar [lerp] of the two elements
    at that index and of [amt] as it was passed; on scalars it is the
    scalar [lerp] of the arguments.  [amt] is any value. *)
Theorem lerpColor_maps_lerp (xs ys : list val) (a b : float) (c2 amt : val) :
  (∃ zs, lerpColor (VArr xs) (VArr ys) amt = Some (VArr zs) ∧
     length zs = length xs ∧
     ∀ i, i < length xs →
       zs !! i = Some (lerp (index xs i) (index ys i) amt)) ∧
  lerpColor (VNum a) c2 amt = Some (lerp (VNum a) c2 amt).
Proof.
  split; [|reflexivity].
  unfold lerpColor. simpl.
  rewrite (lerp_loop_spec _ _ ys) by done. simpl.
  eexists. split; [reflexivity|]. split.
  - by rewrite length_fmap, length_seq.
  - intros i Hi. rewrite list_lookup_fmap, lookup_seq_lt by done. done.
Qed.

(** C10: an accessor called on a colour object returns; [red],
    [green], [blue] and [alpha] leave the whole state as it was;
    [hue], [saturation] and [brightness] leave [rgba], the display
    string and the tag of the object as they were, leave every other
    object as it was, and change [hsba] only when it was absent. *)
Theorem accessor_frame this f w l o :
  heap w !! l = Some o → isColor o = true →
  ∃ v w' o', call this f (VObj l) w = Returns v w' ∧
    heap w' !! l = Some o' ∧
    (reads_hsba f = false → w' = w) ∧
    rgba o' = rgba o ∧ colorString o' = colorString o ∧
    isColor o' = isColor o ∧
    (absent o = false → w' = w) ∧
    (∀ l', l' ≠ l → heap w' !! l' = heap w !! l').
Proof.
  intros Hl Hc. rewrite (call_on _ _ _ _ _ Hl Hc).
  destruct (reads_hsba f) eqn:Hf.
  - unfold absent. destruct (hsba o) eqn:Ht.
    + exists (index l0 (slot f)), w, o. done.
    + eexists _, _, _. split; [reflexivity|]. simpl.
      rewrite lookup_insert_eq. split_and!; try done.
      intros l' Hne. by rewrite lookup_insert_ne.
  - eexists _, w, o. done.
Qed.

(** C4: over any sequence of accessor calls on one colour object,
    [rgb2hsv] is called once if [hsba] was absent and one of the calls
    reads [hsba], and not at all otherwise; the tuple stored by that
    call is the one every call that reads [hsba] returns from. *)
Theorem hsba_converted_once (fs : list (P5 * accessor)) : ∀ w l o,
  heap w !! l = Some o → isColor o = true →
  let t := default (hsba_of_rgba o) (hsba o) in
  let converts := absent o && existsb (λ tf, reads_hsba tf.2) fs in
  ∃ vs w' o', run (on l fs) w = Returns vs w' ∧
    conversions w' =
      conversions w ++ (if converts then [conversion_of o] else []) ∧
    length (conversions w') ≤ S (length (conversions w)) ∧
    heap w' !! l = Some o' ∧
    hsba o' = (if converts then Some t else hsba o) ∧
    vs = (λ tf, if reads_hsba tf.2 then index t (slot tf.2)
                else index_num (rgba o) (slot tf.2)) <$> fs.
Proof.
  induction fs as [|[this f] fs IH]; intros w l o Hl Hc t converts.
  - exists [], w, o. unfold converts. rewrite andb_false_r, app_nil_r.
    split_and!; try done. lia.
  - simpl. unfold mbind, M_bind. rewrite (call_on _ _ _ _ _ Hl Hc).
    unfold converts, t, absent. simpl.
    destruct (reads_hsba f) eqn:Hf; [destruct (hsba o) as [t0|] eqn:Ht|].
    + destruct (IH w l o Hl Hc) as (vs & w' & o' & -> & Hconv & Hlen & Ho' & Hh & ->).
      unfold absent in *. rewrite Ht in *. simpl in *.
      eexists _, _, _. split_and!; try done.
    + set (o1 := set_hsba (hsba_of_rgba o) o).
      set (w1 := mkWorld _ _).
      assert (heap w1 !! l = Some o1) as Hl1 by apply lookup_insert_eq.
      destruct (IH w1 l o1 Hl1 Hc) as (vs & w' & o' & -> & Hconv & Hlen & Ho' & Hh & ->).
      unfold absent in *. simpl in *. rewrite app_nil_r in Hconv.
      eexists _, _, _. split_and!; try done.
      rewrite Hconv, length_app. simpl. lia.
    + destruct (IH w l o Hl Hc) as (vs & w' & o' & -> & Hconv & Hlen & Ho' & Hh & ->).
      eexists _, _, _. split_and!; try done.
Qed.

(** C1, as the code has it: a colour built in RGB mode has no [hsba]
    when [color] returns it, and after any run of accessor calls (on
    any arguments) its [hsba] is still absent or is the tuple derived
    from its [rgba]; a colour built in the other mode carries the
    tuple of its arguments as [hsba] from the start, and no accessor
    replaces it.  [rgba] is in both modes what the range mapping
    returned, before and after the calls. *)
Theorem hsba_after_accessors this args calls w :
  ∃ l w1 o1, color this args w = Returns (VObj l) w1 ∧
    heap w1 !! l = Some o1 ∧
    hsba o1 = (if isRGB this then None else Some (color_channels this args)) ∧
    rgba o1 = getNormalizedColor this (color_channels this args) ∧
    ∀ vs w2, run calls w1 = Returns vs w2 →
      ∃ o, heap w2 !! l = Some o ∧
        rgba o = getNormalizedColor this (color_channels this args) ∧
        (isRGB this = true →
         (hsba o = None ∨ hsba o = Some (hsba_of_rgba o)) ∧ consistent o) ∧
        (isRGB this = false → hsba o = Some (color_channels this args)).
Proof.
  eexists _, _, (new_color this args). split; [reflexivity|].
  split; [apply lookup_insert_eq|]. split; [reflexivity|].
  split; [reflexivity|]. intros vs w2 Hrun.
  eapply run_filled in Hrun as (o & Ho & Hf); [|apply lookup_insert_eq].
  exists o. split; [done|].
  destruct Hf as [-> | [Hn ->]].
  - split_and!; [done| |]; intros E.
    + unfold new_color. cbn [hsba]. rewrite E. split; [by left|].
      intros t. done.
    + unfold new_color. cbn [hsba]. rewrite E. done.
  - unfold new_color in Hn. cbn [hsba] in Hn. split_and!; [done| |]; intros E.
    + split; [by right|]. intros t [= <-]. done.
    + rewrite E in Hn. done.
Qed.

(** *** Further properties of [color], the accessors and [lerpColor] *)

(** An accessor is the conversion of its argument to a colour followed
    by one read. *)
Lemma call_as_color this f c w :
  call this f c w =
    match as_color this c w with
    | Returns l w1 =>
        (if reads_hsba f then read_hsba l (slot f) else read_rgba l (slot f)) w1
    | Throws => Throws
    end.
Proof. destruct f; reflexivity. Qed.

(** A read of an object that exists returns. *)
Lemma read_returns (b : bool) l i w :
  is_Some (heap w !! l) →
  (if b then read_hsba l i else read_rgba l i) w ≠ Throws.
Proof.
  intros [o Ho]. destruct b; unfold read_hsba, read_rgba; rewrite Ho.
  - destruct (hsba o); discriminate.
  - discriminate.
Qed.

(** X1: an accessor throws on [undefined] and on [null], where the read of
    [isColor] fails, and on nothing else: any other argument is a
    colour object or is made into one.  (A reference is to an object
    of the store.) *)
Theorem accessor_throws this f c w :
  (∀ l, c = VObj l → is_Some (heap w !! l)) →
  call this f c w = Throws ↔ c = VUndef ∨ c = VNull.
Proof.
  intros Hl. rewrite call_as_color.
  destruct (as_color this c w) as [l1 w1|] eqn:Ha.
  - split.
    + intros H. exfalso. revert H. apply read_returns.
      by apply as_color_keeps in Ha as (_ & Hs & _).
    + intros [-> | ->]; discriminate Ha.
  - split; [intros _|done].
    destruct c as [| | | | | |l]; simpl in Ha; try discriminate Ha; auto.
    destruct (Hl l eq_refl) as [o Ho]. rewrite Ho in Ha.
    destruct (isColor o); discriminate Ha.
Qed.

(** X2: an accessor called with a boolean, a number, a string or an array
    reads the colour that [color] makes of that one argument: the call
    is the call of [color] followed by the accessor on the new object,
    which sits at a reference that was not in use. *)
Theorem accessor_coerces this f c w :
  c ≠ VUndef → c ≠ VNull → (∀ l, c ≠ VObj l) →
  ∃ l w1, color this [c] w = Returns (VObj l) w1 ∧
    heap w !! l = None ∧
    heap w1 = <[l := new_color this [c]]> (heap w) ∧
    conversions w1 = conversions w ∧
    call this f c w = call this f (VObj l) w1.
Proof.
  intros N1 N2 N3.
  eexists _, _. split; [reflexivity|]. split; [apply heap_fresh|].
  split; [reflexivity|]. split; [reflexivity|].
  rewrite !call_as_color.
  rewrite (as_color_obj this _ (new_color this [c])); [|apply lookup_insert_eq | done].
  destruct c as [| | | | | |l]; try reflexivity; try done.
  by destruct (N3 l).
Qed.

(** X3: outside RGB mode [hue], [saturation] and [brightness] read back
    what [color] was given: the tuple of its arguments, without a call
    of [rgb2hsv] and without any change of the state, whatever the
    colour mode is when they are called.  With three or more arguments
    these are the first three arguments as they were passed. *)
Theorem hsb_reads_arguments this this' f args w :
  isRGB this = false → reads_hsba f = true →
  ∃ l w1, color this args w = Returns (VObj l) w1 ∧
    call this' f (VObj l) w1
      = Returns (index (color_channels this args) (slot f)) w1 ∧
    (3 ≤ length args →
     index (color_channels this args) (slot f) = index args (slot f)).
Proof.
  intros Hm Hf. eexists _, _. split; [reflexivity|]. split.
  - rewrite (call_on this' f _ (new_color this args));
      [|apply lookup_insert_eq | done].
    rewrite Hf. unfold new_color. cbn [hsba]. rewrite Hm. reflexivity.
  - intros Hlen. unfold color_channels.
    rewrite bool_decide_eq_true_2 by done.
    destruct f; try discriminate Hf; reflexivity.
Qed.

(** X4: [red], [green], [blue] and [alpha] of a new colour are the four
    numbers the range mapping returned when the colour was built: the
    colour mode and the maxima at the time of the read play no part,
    and the state stays as it is. *)
Theorem rgb_reads_normalized this this' f args w :
  reads_hsba f = false →
  ∃ l w1, color this args w = Returns (VObj l) w1 ∧
    call this' f (VObj l) w1
      = Returns (index_num (getNormalizedColor this (color_channels this args))
                   (slot f)) w1.
Proof.
  intros Hf. eexists _, _. split; [reflexivity|].
  rewrite (call_on this' f _ (new_color this args));
    [|apply lookup_insert_eq | done].
  rewrite Hf. reflexivity.
Qed.

(** X5: outside RGB mode an accessor called with a boolean, a number, a
    string or an array [c] reads the colour [color(c)], whose [hsba]
    is [[c, 0, c, a]]: [hue] and [brightness] return [c] itself and
    [saturation] returns 0, without a call of [rgb2hsv]. *)
Theorem hsb_accessor_of_scalar this c w :
  isRGB this = false →
  c ≠ VUndef → c ≠ VNull → (∀ l, c ≠ VObj l) →
  ∃ w1,
    call this Hue c w = Returns c w1 ∧
    call this Saturation c w = Returns (VNum 0%float) w1 ∧
    call this Brightness c w = Returns c w1 ∧
    conversions w1 = conversions w.
Proof.
  intros Hm N1 N2 N3.
  set (l := fresh (dom (heap w))). set (o := new_color this [c]).
  exists (mkWorld (<[l := o]> (heap w)) (conversions w)).
  assert (as_color this c w
          = Returns l (mkWorld (<[l := o]> (heap w)) (conversions w))) as Ha.
  { destruct c as [| | | | | |l']; try reflexivity; try done. by destruct (N3 l'). }
  assert (hsba o = Some [c; VNum 0%float; c;
                         index (color_channels this [c]) 3]) as Ho.
  { unfold o, new_color, color_channels. cbn [hsba]. rewrite Hm. reflexivity. }
  rewrite !call_as_color, Ha. cbn [reads_hsba slot]. unfold read_hsba.
  cbn [heap]. rewrite lookup_insert_eq, Ho. split_and!; reflexivity.
Qed.

(** A call appends to the log of conversions and keeps what is there. *)
Lemma call_log this f c w v w' :
  call this f c w = Returns v w' →
  ∃ more, conversions w' = conversions w ++ more.
Proof.
  rewrite call_as_color. intros H.
  destruct (as_color this c w) as [l1 w1|] eqn:Ha; [|discriminate H].
  apply as_color_keeps in Ha as (<- & _ & _).
  destruct (reads_hsba f); unfold read_hsba, read_rgba in H;
    destruct (heap w1 !! l1) as [o|]; try discriminate H.
  - destruct (hsba o); injection H as _ <-.
    + exists []. by rewrite app_nil_r.
    + by eexists.
  - injection H as _ <-. exists []. by rewrite app_nil_r.
Qed.

(** X6: no sequence of accessor calls, whatever their arguments, removes a
    colour object or changes its [rgba], its display string or its
    tag; its [hsba] stays as it is or, when it was absent, becomes the
    tuple derived from its [rgba].  The log of conversions only grows,
    and there is one result per call. *)
Theorem run_keeps_objects calls : ∀ w vs w' l o,
  run calls w = Returns vs w' →
  heap w !! l = Some o →
  (∃ o', heap w' !! l = Some o' ∧
     rgba o' = rgba o ∧ colorString o' = colorString o ∧
     isColor o' = isColor o ∧
     (hsba o' = hsba o ∨
      (hsba o = None ∧ hsba o' = Some (hsba_of_rgba o)))) ∧
  (∃ more, conversions w' = conversions w ++ more) ∧
  length vs = length calls.
Proof.
  intros w vs w' l o Hrun Hl. split; [|split].
  - destruct (run_filled _ _ _ _ _ _ Hrun Hl) as (o' & Ho' & [-> | [Hn ->]]).
    + exists o. split_and!; auto.
    + eexists. split; [exact Ho'|]. split_and!; auto.
  - clear l o Hl. revert w vs w' Hrun.
    induction calls as [|[[this f] c] rest IH]; intros w vs w' H.
    + injection H as _ <-. exists []. by rewrite app_nil_r.
    + simpl in H. unfold mbind, M_bind in H.
      destruct (call this f c w) as [v w1|] eqn:Hc; [|discriminate].
      destruct (run rest w1) as [vs1 w2|] eqn:Hr; [|discriminate].
      injection H as _ <-.
      destruct (call_log _ _ _ _ _ _ Hc) as [m1 E1].
      destruct (IH _ _ _ Hr) as [m2 E2].
      exists (m1 ++ m2). by rewrite E2, E1, app_assoc.
  - clear l o Hl. revert w vs w' Hrun.
    induction calls as [|[[this f] c] rest IH]; intros w vs w' H.
    + by injection H as <- _.
    + simpl in H. unfold mbind, M_bind in H.
      destruct (call this f c w) as [v w1|]; [|discriminate].
      destruct (run rest w1) as [vs1 w2|] eqn:Hr; [|discriminate].
      injection H as <- _. simpl. f_equal. by eapply IH.
Qed.

(** [c2[i]] throws on [undefined] and [null] only. *)
Lemma get_index_None c2 i : get_index c2 i = None ↔ c2 = VUndef ∨ c2 = VNull.
Proof.
  destruct c2; simpl; split; try done; auto; intros [H | H]; discriminate H.
Qed.

Lemma lerp_loop_None c2 amt c1 : ∀ n i c,
  lerp_loop n i c c1 c2 amt = None ↔ n ≠ 0 ∧ (c2 = VUndef ∨ c2 = VNull).
Proof.
  induction n as [|n IH]; intros i c; simpl.
  - split; [done | intros [H _]; done].
  - destruct (get_index c2 i) as [y|] eqn:Hy; simpl.
    + rewrite IH. pose proof (proj2 (get_index_None c2 i)) as Hn.
      split; [|intros [_ H]; apply Hn in H; congruence].
      intros [_ H]. apply Hn in H. congruence.
    + apply get_index_None in Hy. split; [intros _; split; [lia | done] | done].
Qed.

(** X7: [lerpColor] throws in two cases only: on [null] as first argument
    (its [length] is read), and on a non-empty array as first argument
    with [undefined] or [null] as second (its elements are read).  On
    an empty array the second argument is never read. *)
Theorem lerpColor_throws c1 c2 amt :
  lerpColor c1 c2 amt = None ↔
  c1 = VNull ∨ ∃ xs, c1 = VArr xs ∧ xs ≠ [] ∧ (c2 = VUndef ∨ c2 = VNull).
Proof.
  unfold lerpColor. destruct c1 as [| | | | |xs|l]; simpl;
    try (split; [discriminate | intros [H | (xs & H & _)]; discriminate H]).
  - split; [auto | done].
  - rewrite fmap_None, lerp_loop_None. split.
    + intros [Hn Hc]. right. exists xs. split; [done|]. split; [|done].
      intros ->. done.
    + intros [H | (ys & [= <-] & Hne & Hc)]; [discriminate H|].
      split; [|done]. destruct xs; [done | simpl; lia].
Qed.

End Color.

(** ** Binary64 rounding: the facts *)

Module RoundFacts.

Import Round.
Local Open Scope R_scope.

Lemma bpow_pos e : 0 < bpow e.
Proof. apply powerRZ_lt. lra. Qed.

Lemma bpow_add a b : bpow (a + b) = bpow a * bpow b.
Proof. apply powerRZ_add. lra. Qed.

Lemma bpow_IZR n : (0 <= n)%Z → bpow n = IZR (2 ^ n).
Proof.
  intros Hn. unfold bpow. destruct n as [|p|p]; [reflexivity| |lia].
  symmetry. apply Zpower_pos_powerRZ.
Qed.

Lemma bpow_0 : bpow 0 = 1.
Proof. reflexivity. Qed.

Lemma bpow_1 : bpow 1 = 2.
Proof. unfold bpow. simpl. lra. Qed.

Lemma bpow_m1 : bpow (-1) = / 2.
Proof. unfold bpow. simpl. f_equal. lra. Qed.

Lemma bpow_sub a b : bpow (a - b) = bpow a / bpow b.
Proof.
  assert (bpow a = bpow (a - b) * bpow b) as ->
    by (rewrite <- bpow_add; f_equal; lia).
  pose proof (bpow_pos b). field. lra.
Qed.

Lemma bpow_ge_1 n : (0 <= n)%Z → 1 <= bpow n.
Proof.
  intros Hn. rewrite bpow_IZR by done. apply IZR_le.
  pose proof (Z.pow_pos_nonneg 2 n ltac:(lia) Hn). lia.
Qed.

Lemma bpow_le a b : (a <= b)%Z → bpow a <= bpow b.
Proof.
  intros Hab. replace b with (a + (b - a))%Z by lia. rewrite bpow_add.
  pose proof (bpow_pos a). pose proof (bpow_ge_1 (b - a) ltac:(lia)). nra.
Qed.

Lemma bpow_lt a b : (a < b)%Z → bpow a < bpow b.
Proof.
  intros Hab. replace b with (a + 1 + (b - a - 1))%Z by lia.
  rewrite !bpow_add, bpow_1.
  pose proof (bpow_pos a). pose proof (bpow_ge_1 (b - a - 1) ltac:(lia)). nra.
Qed.

Lemma bpow_lt_inv a b : bpow a < bpow b → (a < b)%Z.
Proof.
  intros H. destruct (Z_lt_le_dec a b) as [|Hle]; [done|].
  apply bpow_le in Hle. lra.
Qed.

Lemma bpow_le_inv a b : bpow a <= bpow b → (a <= b)%Z.
Proof.
  intros H. destruct (Z_lt_le_dec b a) as [Hlt|]; [|done].
  apply bpow_lt in Hlt. lra.
Qed.

Lemma bpow_succ a : bpow (a + 1) = 2 * bpow a.
Proof. rewrite bpow_add, bpow_1. lra. Qed.

Lemma bpow_pred a : bpow (a - 1) = bpow a / 2.
Proof. rewrite bpow_sub, bpow_1. reflexivity. Qed.

Lemma mul_bpow_le a b e : a <= b → a * bpow e <= b * bpow e.
Proof. intros H. apply Rmult_le_compat_r; [apply Rlt_le, bpow_pos | done]. Qed.

Lemma div_bpow_le a b e : a <= b → a / bpow e <= b / bpow e.
Proof.
  intros H. apply Rmult_le_compat_r; [|done].
  apply Rlt_le, Rinv_0_lt_compat, bpow_pos.
Qed.

Lemma div_mul_bpow a e : a / bpow e * bpow e = a.
Proof. pose proof (bpow_pos e). field. lra. Qed.

Lemma mul_div_bpow a e : a * bpow e / bpow e = a.
Proof. pose proof (bpow_pos e). field. lra. Qed.

(** *** Magnitude *)

Lemma mag_mono x1 k1 x2 k2 :
  mag_is x1 k1 → mag_is x2 k2 → x1 <= x2 → (k1 <= k2)%Z.
Proof.
  intros [H1 _] [_ H2] Hx.
  assert (bpow (k1 - 1) < bpow k2) as H by lra.
  apply bpow_lt_inv in H. lia.
Qed.

Lemma mag_unique x k1 k2 : mag_is x k1 → mag_is x k2 → k1 = k2.
Proof.
  intros H1 H2.
  pose proof (mag_mono _ _ _ _ H1 H2 ltac:(lra)).
  pose proof (mag_mono _ _ _ _ H2 H1 ltac:(lra)). lia.
Qed.

Lemma mag_pos x k : mag_is x k → 0 < x.
Proof. intros [H _]. pose proof (bpow_pos (k - 1)). lra. Qed.

Lemma cexp_mono k1 k2 : (k1 <= k2)%Z → (cexp k1 <= cexp k2)%Z.
Proof. unfold cexp. lia. Qed.

(** *** Rounding to an integer *)

Lemma rne_mono t1 n1 t2 n2 : rne t1 n1 → rne t2 n2 → t1 <= t2 → (n1 <= n2)%Z.
Proof.
  intros [[L1 U1] E1] [[L2 U2] E2] Ht.
  destruct (Z_lt_le_dec n2 n1) as [Hlt|]; [|done]. exfalso.
  assert (IZR n2 + 1 <= IZR n1) as Hn
    by (rewrite <- plus_IZR; apply IZR_le; lia).
  assert (t1 = IZR n1 - / 2) as T1 by lra.
  assert (t2 = IZR n2 + / 2) as T2 by lra.
  assert (IZR n1 = IZR n2 + 1) as Hn' by lra.
  rewrite <- plus_IZR in Hn'. apply eq_IZR in Hn'.
  specialize (E1 (or_introl T1)). specialize (E2 (or_intror T2)).
  subst n1. rewrite Z.even_add in E1. rewrite E2 in E1. discriminate E1.
Qed.

Lemma rne_unique t n1 n2 : rne t n1 → rne t n2 → n1 = n2.
Proof.
  intros H1 H2.
  pose proof (rne_mono _ _ _ _ H1 H2 ltac:(lra)).
  pose proof (rne_mono _ _ _ _ H2 H1 ltac:(lra)). lia.
Qed.

Lemma rne_IZR n : rne (IZR n) n.
Proof. split; [lra|]. intros [H|H]; lra. Qed.

Lemma rne_ge t n a : rne t n → IZR a <= t → (a <= n)%Z.
Proof. intros H Ha. exact (rne_mono _ _ _ _ (rne_IZR a) H Ha). Qed.

Lemma rne_le t n a : rne t n → t <= IZR a → (n <= a)%Z.
Proof. intros H Ha. exact (rne_mono _ _ _ _ H (rne_IZR a) Ha). Qed.

Lemma rne_small t n : rne t n → t < / 2 → (n <= 0)%Z.
Proof.
  intros [[L _] _] Ht. assert (IZR n < 1) as H by lra.
  apply lt_IZR in H. lia.
Qed.

(** *** Rounding a positive real *)

Lemma rounds_pos_nonneg x y : rounds_pos x y → 0 <= y.
Proof.
  intros (k & n & Hk & Hn & ->).
  pose proof (bpow_pos (cexp k)) as Hc. pose proof (mag_pos _ _ Hk) as Hx.
  assert (0 <= n)%Z as H0.
  { apply (rne_ge _ _ 0 Hn). apply Rlt_le, Rdiv_lt_0_compat; lra. }
  apply IZR_le in H0. nra.
Qed.

Lemma rounds_pos_mono x1 y1 x2 y2 :
  rounds_pos x1 y1 → rounds_pos x2 y2 → x1 <= x2 → y1 <= y2.
Proof.
  intros (k1 & n1 & Hk1 & Hn1 & ->) (k2 & n2 & Hk2 & Hn2 & ->) Hx.
  pose proof (mag_mono _ _ _ _ Hk1 Hk2 Hx) as Hk.
  pose proof (bpow_pos (cexp k1)) as Hc1. pose proof (bpow_pos (cexp k2)) as Hc2.
  pose proof (mag_pos _ _ Hk1) as Hx1.
  destruct (Z.eq_dec (cexp k1) (cexp k2)) as [Hc|Hc].
  - rewrite Hc in *.
    assert (n1 <= n2)%Z as Hn.
    { apply (rne_mono _ _ _ _ Hn1 Hn2).
      apply Rmult_le_compat_r; [|done]. apply Rlt_le, Rinv_0_lt_compat, Hc2. }
    apply IZR_le in Hn. nra.
  - assert (cexp k1 < cexp k2)%Z as Hlt by (pose proof (cexp_mono _ _ Hk); lia).
    assert (k1 < k2 ∧ cexp k2 = k2 - 53)%Z as [Hk' Hc2'] by (unfold cexp in *; lia).
    (* the second result is at least [2^(k2-1)] *)
    assert (bpow (k2 - 1) <= IZR n2 * bpow (cexp k2)) as H2.
    { assert (2 ^ 52 <= n2)%Z as Hn.
      { apply (rne_ge _ _ _ Hn2). rewrite <- bpow_IZR by lia.
        destruct Hk2 as [Hk2 _].
        apply Rmult_le_reg_r with (bpow (cexp k2)); [done|].
        unfold Rdiv. rewrite Rmult_assoc, Rinv_l, Rmult_1_r by lra.
        rewrite <- bpow_add. replace (52 + cexp k2)%Z with (k2 - 1)%Z by lia.
        done. }
      apply IZR_le in Hn. rewrite <- bpow_IZR in Hn by lia.
      replace (k2 - 1)%Z with (52 + cexp k2)%Z by lia. rewrite bpow_add. nra. }
    (* the first is at most [2^k1] *)
    assert (IZR n1 * bpow (cexp k1) <= bpow k1) as H1.
    { destruct (Z_lt_le_dec k1 (cexp k1)) as [Hsmall|Hbig].
      - assert (n1 <= 0)%Z as Hn.
        { apply (rne_small _ _ Hn1). destruct Hk1 as [_ Hk1].
          apply Rmult_lt_reg_r with (bpow (cexp k1)); [done|].
          rewrite div_mul_bpow.
          pose proof (bpow_le k1 (cexp k1 - 1) ltac:(lia)) as Hp.
          rewrite bpow_pred in Hp. lra. }
        apply IZR_le, (mul_bpow_le _ _ (cexp k1)) in Hn.
        pose proof (bpow_pos k1). lra.
      - assert (n1 <= 2 ^ (k1 - cexp k1))%Z as Hn.
        { apply (rne_le _ _ _ Hn1). rewrite <- bpow_IZR by lia.
          destruct Hk1 as [_ Hk1].
          apply Rmult_le_reg_r with (bpow (cexp k1)); [done|].
          unfold Rdiv. rewrite Rmult_assoc, Rinv_l, Rmult_1_r by lra.
          rewrite <- bpow_add. replace (k1 - cexp k1 + cexp k1)%Z with k1 by lia.
          lra. }
        apply IZR_le in Hn. rewrite <- bpow_IZR in Hn by lia.
        replace k1 with (k1 - cexp k1 + cexp k1)%Z at 2 by lia.
        rewrite bpow_add. nra. }
    pose proof (bpow_le k1 (k2 - 1) ltac:(lia)). lra.
Qed.

Lemma rounds_pos_unique x y1 y2 : rounds_pos x y1 → rounds_pos x y2 → y1 = y2.
Proof.
  intros H1 H2.
  pose proof (rounds_pos_mono _ _ _ _ H1 H2 ltac:(lra)).
  pose proof (rounds_pos_mono _ _ _ _ H2 H1 ltac:(lra)). lra.
Qed.

Lemma rounds_pos_err x y :
  rounds_pos x y → Rabs (y - x) <= Rmax (x * bpow (-53)) (bpow (-1075)).
Proof.
  intros (k & n & [Hk _] & [[L U] _] & ->).
  pose proof (bpow_pos (cexp k)) as Hc.
  apply (mul_bpow_le _ _ (cexp k)) in L, U.
  rewrite div_mul_bpow in L, U.
  assert (Rabs (IZR n * bpow (cexp k) - x) <= bpow (cexp k) / 2) as H
    by (apply Rabs_le; lra).
  eapply Rle_trans; [exact H|]. rewrite <- bpow_pred.
  destruct (Z_lt_le_dec (k - 53) (-1074)) as [Hs|Hb].
  - eapply Rle_trans; [|apply Rmax_r]. apply bpow_le. unfold cexp. lia.
  - eapply Rle_trans; [|apply Rmax_l].
    replace (cexp k - 1)%Z with (k - 1 + -53)%Z by (unfold cexp; lia).
    rewrite bpow_add. apply mul_bpow_le, Hk.
Qed.

Lemma rounds_pos_tiny x y : rounds_pos x y → x < bpow (-1075) → y = 0.
Proof.
  intros (k & n & Hk & Hn & ->) Hx.
  assert (k <= -1075)%Z as Hk'.
  { destruct Hk as [Hk _]. assert (bpow (k - 1) < bpow (-1075)) as H by lra.
    apply bpow_lt_inv in H. lia. }
  assert (cexp k = -1074)%Z as Hc by (unfold cexp; lia).
  rewrite Hc in *.
  assert (n <= 0)%Z as H1.
  { apply (rne_small _ _ Hn). apply Rmult_lt_reg_r with (bpow (-1074)).
    - apply bpow_pos.
    - rewrite div_mul_bpow. change (-1075)%Z with (-1074 - 1)%Z in Hx.
      rewrite bpow_pred in Hx. lra. }
  assert (0 <= n)%Z as H0.
  { apply (rne_ge _ _ 0 Hn). pose proof (mag_pos _ _ Hk).
    apply Rlt_le, Rdiv_lt_0_compat; [lra | apply bpow_pos]. }
  assert (n = 0)%Z as -> by lia. lra.
Qed.

Lemma rounds_nonneg x y : rounds x y → 0 <= x → 0 <= y.
Proof.
  intros [[_ ->] | [[_ H] | [Hx _]]] H0; [lra | | lra].
  by apply rounds_pos_nonneg in H.
Qed.

Lemma rounds_nonpos x y : rounds x y → x <= 0 → y <= 0.
Proof.
  intros [[_ ->] | [[Hx _] | [_ H]]] H0; [lra | lra |].
  apply rounds_pos_nonneg in H. lra.
Qed.

Lemma rounds_mono x1 y1 x2 y2 : rounds x1 y1 → rounds x2 y2 → x1 <= x2 → y1 <= y2.
Proof.
  intros H1 H2 Hx.
  destruct (Rle_lt_dec x1 0) as [N1|P1]; destruct (Rle_lt_dec 0 x2) as [P2|N2].
  - pose proof (rounds_nonpos _ _ H1 N1). pose proof (rounds_nonneg _ _ H2 P2). lra.
  - destruct H1 as [[? _] | [[? _] | [_ H1]]]; [lra | lra |].
    destruct H2 as [[? _] | [[? _] | [_ H2]]]; [lra | lra |].
    pose proof (rounds_pos_mono _ _ _ _ H2 H1 ltac:(lra)). lra.
  - destruct H1 as [[? _] | [[_ H1] | [? _]]]; [lra | | lra].
    destruct H2 as [[? _] | [[_ H2] | [? _]]]; [lra | | lra].
    exact (rounds_pos_mono _ _ _ _ H1 H2 Hx).
  - lra.
Qed.

Lemma rounds_unique x y1 y2 : rounds x y1 → rounds x y2 → y1 = y2.
Proof.
  intros H1 H2.
  pose proof (rounds_mono _ _ _ _ H1 H2 ltac:(lra)).
  pose proof (rounds_mono _ _ _ _ H2 H1 ltac:(lra)). lra.
Qed.

Lemma rounds_opp x y : rounds x y → rounds (- x) (- y).
Proof.
  intros [[-> ->] | [[Hx H] | [Hx H]]].
  - left. split; lra.
  - right. right. split; [lra|]. by rewrite !Ropp_involutive.
  - right. left. split; [lra | done].
Qed.

Lemma rounds_err x y :
  rounds x y → Rabs (y - x) <= Rmax (Rabs x * bpow (-53)) (bpow (-1075)).
Proof.
  intros [[-> ->] | [[Hx H] | [Hx H]]].
  - rewrite Rminus_0_r, Rabs_R0. eapply Rle_trans; [|apply Rmax_r].
    apply Rlt_le, bpow_pos.
  - rewrite (Rabs_pos_eq x) by lra. by apply rounds_pos_err.
  - rewrite (Rabs_left x) by lra. apply rounds_pos_err in H.
    replace (y - x) with (- (- y - - x)) by lra. by rewrite Rabs_Ropp.
Qed.

(** *** Digits *)

Lemma digits_bounds (p : positive) :
  (2 ^ (Zpos (digits2_pos p) - 1) <= Zpos p < 2 ^ Zpos (digits2_pos p))%Z.
Proof.
  induction p as [p IH|p IH|]; cbn [digits2_pos].
  - rewrite Pos2Z.inj_succ, Pos2Z.inj_xI.
    replace (Z.succ (Zpos (digits2_pos p)) - 1)%Z
      with (Z.succ (Zpos (digits2_pos p) - 1)) by lia.
    rewrite !Z.pow_succ_r by lia. lia.
  - rewrite Pos2Z.inj_succ. change (Zpos p~0) with (2 * Zpos p)%Z.
    replace (Z.succ (Zpos (digits2_pos p)) - 1)%Z
      with (Z.succ (Zpos (digits2_pos p) - 1)) by lia.
    rewrite !Z.pow_succ_r by lia. lia.
  - simpl. lia.
Qed.

Lemma digits_unique (p : positive) (d : Z) :
  (2 ^ (d - 1) <= Zpos p < 2 ^ d)%Z → (0 < d)%Z → d = Zpos (digits2_pos p).
Proof.
  intros [L U] Hd. destruct (digits_bounds p) as [L' U'].
  assert (d - 1 < Zpos (digits2_pos p))%Z.
  { apply (Z.pow_lt_mono_r_iff 2); lia. }
  assert (Zpos (digits2_pos p) - 1 < d)%Z.
  { apply (Z.pow_lt_mono_r_iff 2); lia. }
  lia.
Qed.

Lemma mag_of_pos (p : positive) (e : Z) :
  mag_is (IZR (Zpos p) * bpow e) (Zpos (digits2_pos p) + e).
Proof.
  destruct (digits_bounds p) as [L U]. apply IZR_le in L. apply IZR_lt in U.
  rewrite <- !bpow_IZR in * by lia.
  split.
  - replace (Zpos (digits2_pos p) + e - 1)%Z with (Zpos (digits2_pos p) - 1 + e)%Z by lia.
    rewrite bpow_add. by apply mul_bpow_le.
  - rewrite bpow_add. apply Rmult_lt_compat_r; [apply bpow_pos | done].
Qed.

(** A mantissa and exponent in canonical form round to themselves. *)
Lemma rounds_pos_canonical (p : positive) (e : Z) :
  cexp (Zpos (digits2_pos p) + e) = e →
  rounds_pos (IZR (Zpos p) * bpow e) (IZR (Zpos p) * bpow e).
Proof.
  intros Hc. exists (Zpos (digits2_pos p) + e)%Z, (Zpos p).
  split; [apply mag_of_pos|]. rewrite Hc. split; [|done].
  rewrite mul_div_bpow. apply rne_IZR.
Qed.

(** *** Shifting with a record of what is lost *)

Lemma IZR_xO p : IZR (Zpos p~0) = 2 * IZR (Zpos p).
Proof. change (Zpos p~0) with (2 * Zpos p)%Z. by rewrite mult_IZR. Qed.

Lemma IZR_xI p : IZR (Zpos p~1) = 2 * IZR (Zpos p) + 1.
Proof. change (Zpos p~1) with (2 * Zpos p + 1)%Z. by rewrite plus_IZR, mult_IZR. Qed.

Lemma shr_1_inb mrs t : inb mrs t → inb (shr_1 mrs) (t / 2).
Proof.
  destruct mrs as [m r s]. unfold inb. cbn [shr_m].
  intros [H0 H].
  destruct m as [|[p|p|]|p]; [| | | |lia];
    [|pose proof (IZR_xI p)|pose proof (IZR_xO p)|];
    destruct r, s; cbn [shr_1 shr_m loc_of_shr_record loc_ok orb] in *;
    (split; [lia|]); lra.
Qed.

Lemma inb_eq mrs t t' : inb mrs t → t = t' → inb mrs t'.
Proof. by intros H <-. Qed.

Lemma iter_shr_inb p : ∀ mrs t,
  inb mrs t → inb (SpecFloat.iter_pos shr_1 p mrs) (t / bpow (Zpos p)).
Proof.
  induction p as [p IH|p IH|]; intros mrs t H; cbn [SpecFloat.iter_pos].
  - apply shr_1_inb, IH, IH in H. eapply inb_eq; [exact H|].
    replace (Zpos p~1) with (1 + (Zpos p + Zpos p))%Z by lia.
    rewrite !bpow_add, bpow_1. pose proof (bpow_pos (Zpos p)). field. lra.
  - apply IH, IH in H. eapply inb_eq; [exact H|].
    replace (Zpos p~0) with (Zpos p + Zpos p)%Z by lia.
    rewrite !bpow_add. pose proof (bpow_pos (Zpos p)). field. lra.
  - apply shr_1_inb in H. by rewrite bpow_1.
Qed.

Lemma shr_inb mrs e n x :
  inb mrs (x / bpow e) →
  snd (shr mrs e n) = Z.max e (e + n) ∧
  inb (fst (shr mrs e n)) (x / bpow (Z.max e (e + n))).
Proof.
  intros H. destruct n as [|p|p]; cbn [shr fst snd].
  - rewrite Z.add_0_r, Z.max_id. done.
  - rewrite Z.max_r by lia. split; [done|].
    apply (iter_shr_inb p) in H. eapply inb_eq; [exact H|].
    rewrite bpow_add. pose proof (bpow_pos e). pose proof (bpow_pos (Zpos p)).
    field. lra.
  - rewrite Z.max_l by lia. done.
Qed.

Lemma inb_of_loc m l t :
  (0 <= m)%Z → loc_ok l (t - IZR m) → inb (shr_record_of_loc m l) t.
Proof.
  intros H0 H. split.
  - by destruct l as [|[]].
  - by destruct l as [|[]].
Qed.

Lemma round_nearest_even_rne mrs t :
  inb mrs t →
  rne t (round_nearest_even (shr_m mrs) (loc_of_shr_record mrs)).
Proof.
  destruct mrs as [m r s]. intros [H0 H]. cbn [shr_m] in *.
  destruct r, s; cbn in *.
  - split; rewrite plus_IZR; [lra|]. intros [E|E]; lra.
  - destruct (Z.even m) eqn:Ev.
    + split; [lra|]. intros _. done.
    + split; rewrite plus_IZR; [lra|]. intros _.
      rewrite Z.even_add, Ev. reflexivity.
  - split; [lra|]. intros [E|E]; lra.
  - split; [lra|]. intros [E|E]; lra.
Qed.

Lemma fexp_cexp k : SpecFloat.fexp prec emax k = cexp k.
Proof. reflexivity. Qed.

Lemma shr_nop mrs e n : (n <= 0)%Z → shr mrs e n = (mrs, e).
Proof. intros Hn. destruct n; [done | lia | done]. Qed.

Lemma binary_round_aux_eq s m e l :
  binary_round_aux prec emax s m e l =
    let r1 := shr_fexp prec emax m e l in
    let m2 := round_nearest_even (shr_m (fst r1)) (loc_of_shr_record (fst r1)) in
    let r2 := shr_fexp prec emax m2 (snd r1) loc_Exact in
    match shr_m (fst r2) with
    | Z0 => S754_zero s
    | Zpos m' => if Z.leb (snd r2) (emax - prec) then S754_finite s m' (snd r2)
                 else S754_infinity s
    | Zneg _ => S754_nan
    end.
Proof.
  unfold binary_round_aux.
  destruct (shr_fexp prec emax m e l) as [mrs1 e1]. cbn [fst snd].
  destruct (shr_fexp prec emax _ e1 loc_Exact) as [mrs2 e2]. reflexivity.
Qed.

Theorem bra_correct s m e l x k :
  mag_is x k → (0 <= m)%Z → loc_ok l (x / bpow e - IZR m) → (e <= cexp k)%Z →
  ∃ y, rounds_pos x y ∧ result_of s y (binary_round_aux prec emax s m e l).
Proof.
  intros Hk Hm Hl He.
  pose proof (bpow_pos e) as Hbe. pose proof (mag_pos _ _ Hk) as Hx.
  assert (IZR m <= x / bpow e < IZR m + 1) as Hfr
    by (destruct l as [|[]]; cbn in Hl; lra).
  assert (Z.max e (e + (SpecFloat.fexp prec emax (Zdigits2 m + e) - e)) = cexp k) as He1.
  { rewrite fexp_cexp. destruct m as [|p|p]; [| |lia].
    - cbn [Zdigits2]. rewrite Z.add_0_l.
      assert (k <= e)%Z.
      { destruct Hk as [Hk _]. destruct Hfr as [_ Hfr].
        apply (Rmult_lt_compat_r (bpow e)) in Hfr; [|done].
        rewrite div_mul_bpow in Hfr.
        assert (bpow (k - 1) < bpow e) as H by lra.
        apply bpow_lt_inv in H. lia. }
      unfold cexp in *. lia.
    - cbn [Zdigits2].
      assert (k = Zpos (digits2_pos p) + e)%Z as ->; [|unfold cexp in *; lia].
      apply (mag_unique x); [done|].
      destruct (digits_bounds p) as [L U].
      assert (Zpos p + 1 <= 2 ^ Zpos (digits2_pos p))%Z as U' by lia.
      apply IZR_le in L, U'. rewrite plus_IZR in U'.
      rewrite <- !bpow_IZR in * by lia.
      destruct Hfr as [F1 F2].
      apply (mul_bpow_le _ _ e) in F1. rewrite div_mul_bpow in F1.
      apply (Rmult_lt_compat_r (bpow e)) in F2; [|done].
      rewrite div_mul_bpow in F2.
      apply (mul_bpow_le _ _ e) in L, U'.
      split.
      + replace (Zpos (digits2_pos p) + e - 1)%Z
          with (Zpos (digits2_pos p) - 1 + e)%Z by lia.
        rewrite bpow_add. lra.
      + rewrite bpow_add. lra. }
  rewrite binary_round_aux_eq. cbv zeta. unfold shr_fexp.
  destruct (shr_inb (shr_record_of_loc m l) e
              (SpecFloat.fexp prec emax (Zdigits2 m + e) - e) x
              (inb_of_loc _ _ _ Hm Hl)) as [E1 I1].
  rewrite He1 in E1, I1.
  destruct (shr (shr_record_of_loc m l) e
              (SpecFloat.fexp prec emax (Zdigits2 m + e) - e)) as [mrs1 e1].
  cbn [fst snd] in *. subst e1.
  set (c := cexp k) in *.
  set (m2 := round_nearest_even _ _).
  pose proof (round_nearest_even_rne _ _ I1) as Hr. fold m2 in Hr.
  pose proof (bpow_pos c) as Hc.
  exists (IZR m2 * bpow c). split; [by exists k, m2|].
  (* the range of the rounded mantissa *)
  assert (0 <= m2)%Z as M0.
  { apply (rne_ge _ _ 0 Hr). apply Rlt_le, Rdiv_lt_0_compat; lra. }
  assert (m2 <= 2 ^ 53)%Z as M1.
  { apply (rne_le _ _ _ Hr). rewrite <- bpow_IZR by lia.
    apply Rmult_le_reg_r with (bpow c); [done|].
    rewrite div_mul_bpow, <- bpow_add.
    destruct Hk as [_ Hk]. pose proof (bpow_le k (53 + c) ltac:(unfold c, cexp; lia)).
    lra. }
  assert ((-1074 < c)%Z → (2 ^ 52 <= m2)%Z) as M2.
  { intros Hn. apply (rne_ge _ _ _ Hr). rewrite <- bpow_IZR by lia.
    apply Rmult_le_reg_r with (bpow c); [done|].
    rewrite div_mul_bpow, <- bpow_add.
    destruct Hk as [Hk _]. replace (52 + c)%Z with (k - 1)%Z by (unfold c, cexp in *; lia).
    done. }
  assert (-1074 <= c)%Z as C0 by (unfold c, cexp; lia).
  rewrite fexp_cexp.
  destruct m2 as [|p2|p2] eqn:Em2; [| |lia].
  - (* rounded to zero *)
    rewrite shr_nop by (cbn [Zdigits2]; unfold cexp; lia).
    cbn. split; [done | lra].
  - cbn [Zdigits2].
    destruct (Z.eq_dec (Zpos p2) (2 ^ 53)%Z) as [Etop|Ntop].
    + (* the mantissa reached [2^53]: one more shift *)
      assert (p2 = 9007199254740992%positive) as -> by (apply Pos2Z.inj; exact Etop).
      replace (cexp (Zpos (digits2_pos 9007199254740992) + c) - c)%Z with 1%Z
        by (cbn [digits2_pos Pos.succ]; unfold cexp; lia).
      cbn [shr shr_record_of_loc SpecFloat.iter_pos shr_1 fst snd shr_m orb].
      change (emax - prec)%Z with 971%Z.
      destruct (Z.leb_spec (c + 1) 971) as [Hfin|Hinf].
      * split; [done|]. split.
        -- rewrite bpow_add, bpow_1. change (IZR (Zpos 9007199254740992))
             with (2 * IZR (Zpos 4503599627370496)). lra.
        -- unfold SpecFloat.bounded, canonical_mantissa. rewrite fexp_cexp.
           apply andb_true_intro. split; [|apply Z.leb_le; change (emax - prec)%Z with 971%Z; lia].
           apply Z.eqb_eq. cbn [digits2_pos Pos.succ]. unfold cexp. lia.
      * split; [done|].
        pose proof (bpow_le 971 c ltac:(lia)) as Hb.
        change 1024%Z with (53 + 971)%Z. rewrite bpow_add, (bpow_IZR 53) by lia.
        change (2 ^ 53)%Z with (Zpos 9007199254740992).
        assert (0 < IZR (Zpos 9007199254740992)) by (apply IZR_lt; lia). nra.
    + (* the mantissa fits *)
      destruct (digits_bounds p2) as [L U].
      assert (Zpos (digits2_pos p2) <= 53)%Z as D1.
      { assert (Zpos (digits2_pos p2) - 1 < 53)%Z; [|lia].
        apply (Z.pow_lt_mono_r_iff 2); lia. }
      rewrite shr_nop by (unfold cexp; lia).
      cbn [fst snd shr_record_of_loc shr_m].
      change (emax - prec)%Z with 971%Z.
      assert ((-1074 < c)%Z → Zpos (digits2_pos p2) = 53%Z) as D2.
      { intros Hn. specialize (M2 Hn).
        assert (52 < Zpos (digits2_pos p2))%Z; [|lia].
        apply (Z.pow_lt_mono_r_iff 2); lia. }
      destruct (Z.leb_spec c 971) as [Hfin|Hinf].
      * split; [done|]. split; [done|].
        unfold SpecFloat.bounded, canonical_mantissa. rewrite fexp_cexp.
        apply andb_true_intro. split; [|apply Z.leb_le; change (emax - prec)%Z with 971%Z; lia].
        apply Z.eqb_eq. unfold cexp.
        destruct (Z.eq_dec c (-1074)%Z); [lia|]. rewrite D2 by lia. lia.
      * split; [done|].
        specialize (M2 ltac:(lia)). apply IZR_le in M2.
        rewrite <- bpow_IZR in M2 by lia.
        pose proof (bpow_le 972 c ltac:(lia)) as Hb.
        change 1024%Z with (52 + 972)%Z. rewrite bpow_add.
        pose proof (bpow_pos 52). pose proof (bpow_pos 972). nra.
Qed.

(** *** Values of the format *)

Lemma bounded_canonical m e :
  SpecFloat.bounded prec emax m e = true →
  cexp (Zpos (digits2_pos m) + e) = e ∧ (e <= 971)%Z.
Proof.
  unfold SpecFloat.bounded, canonical_mantissa. rewrite fexp_cexp.
  intros [H1 H2]%andb_prop. apply Z.eqb_eq in H1. apply Z.leb_le in H2.
  change (emax - prec)%Z with 971%Z in H2. done.
Qed.

Lemma bounded_shape m e :
  SpecFloat.bounded prec emax m e = true →
  (Zpos (digits2_pos m) <= 53 ∧ -1074 <= e <= 971 ∧
   (Zpos (digits2_pos m) = 53 ∨ e = -1074))%Z.
Proof. intros [H1 H2]%bounded_canonical. unfold cexp in H1. lia. Qed.

Lemma pos_value_pos m e : 0 < IZR (Zpos m) * bpow e.
Proof.
  apply Rmult_lt_0_compat; [|apply bpow_pos]. apply IZR_lt. lia.
Qed.

Lemma rounds_0 : rounds 0 0.
Proof. by left. Qed.

Lemma rounds_fin f : fin f → rounds (SF2R f) (SF2R f).
Proof.
  intros [Hf Hv]. destruct f as [s|s| |s m e]; try discriminate Hf; try apply rounds_0.
  cbn in Hv. apply bounded_canonical in Hv as [Hc _].
  pose proof (pos_value_pos m e) as Hp.
  pose proof (rounds_pos_canonical m e Hc) as Hr.
  destruct s; cbn [SF2R].
  - right. right. split; [lra|].
    replace (- (-1 * (IZR (Zpos m) * bpow e))) with (IZR (Zpos m) * bpow e) by lra.
    done.
  - right. left. rewrite Rmult_1_l. done.
Qed.

Lemma fin_lt_overflow f : fin f → Rabs (SF2R f) < bpow 1024.
Proof.
  intros [Hf Hv]. destruct f as [s|s| |s m e]; try discriminate Hf;
    cbn [SF2R]; try (rewrite Rabs_R0; apply bpow_pos).
  cbn in Hv. apply bounded_shape in Hv as (Hd & He & _).
  pose proof (pos_value_pos m e) as Hp.
  assert (IZR (Zpos m) * bpow e < bpow 1024) as H.
  { destruct (digits_bounds m) as [_ U].
    assert (Zpos m < 2 ^ 53)%Z as U'.
    { eapply Z.lt_le_trans; [exact U|]. apply Z.pow_le_mono_r; lia. }
    apply IZR_lt in U'. rewrite <- bpow_IZR in U' by lia.
    pose proof (bpow_le e 971 ltac:(lia)) as He'. pose proof (bpow_pos e).
    change 1024%Z with (53 + 971)%Z. rewrite bpow_add.
    pose proof (bpow_pos 53). nra. }
  destruct s; [rewrite Rabs_left by lra | rewrite Rabs_pos_eq by lra]; lra.
Qed.

Lemma fl_ok_fin f : fin f → fl_ok (SF2R f) f.
Proof. intros Hf. exists (SF2R f). split; [by apply rounds_fin | done]. Qed.

Lemma fl_ok_zero s : fl_ok 0 (S754_zero s).
Proof. exists 0. split; [apply rounds_0 | done]. Qed.

(** The result of [binary_round_aux] with its sign. *)
Lemma bra_fl_ok (s : bool) m e l x k :
  mag_is x k → (0 <= m)%Z → loc_ok l (x / bpow e - IZR m) → (e <= cexp k)%Z →
  fl_ok ((if s then -1 else 1) * x) (binary_round_aux prec emax s m e l).
Proof.
  intros Hk Hm Hl He.
  destruct (bra_correct s m e l x k Hk Hm Hl He) as (y & Hy & Hr).
  pose proof (mag_pos _ _ Hk) as Hx. pose proof (rounds_pos_nonneg _ _ Hy) as Hy0.
  exists ((if s then -1 else 1) * y). split.
  - destruct s.
    + right. right. split; [lra|].
      replace (- (-1 * x)) with x by lra. replace (- (-1 * y)) with y by lra. done.
    + right. left. rewrite !Rmult_1_l. split; [lra | done].
  - intros Hov.
    assert (y < bpow 1024) as Hov'.
    { apply Rabs_def2 in Hov. destruct s; lra. }
    destruct (binary_round_aux prec emax s m e l) as [s'|s'| |s' m' e'];
      unfold result_of in Hr.
    + destruct Hr as [-> ->]. split; [done|]. cbn [SF2R]. lra.
    + destruct Hr as [_ Hr]. exfalso. lra.
    + done.
    + destruct Hr as (-> & -> & Hb). split; [done|]. reflexivity.
Qed.

Lemma iter_xO m d : Zpos (Pos.iter xO m d) = (Zpos m * 2 ^ Zpos d)%Z.
Proof.
  induction d as [|d IH] using Pos.peano_ind.
  - cbn. lia.
  - rewrite Pos.iter_succ, Pos2Z.inj_succ, Z.pow_succ_r by lia.
    change (Zpos (Pos.iter xO m d)~0) with (2 * Zpos (Pos.iter xO m d))%Z.
    rewrite IH. lia.
Qed.

Lemma shl_align_spec mx ex ex' :
  snd (shl_align mx ex ex') = Z.min ex ex' ∧
  IZR (Zpos (fst (shl_align mx ex ex'))) * bpow (Z.min ex ex')
    = IZR (Zpos mx) * bpow ex.
Proof.
  unfold shl_align. destruct (ex' - ex)%Z as [|d|d] eqn:E; cbn [fst snd].
  - rewrite Z.min_l by lia. done.
  - rewrite Z.min_l by lia. done.
  - rewrite Z.min_r by lia. split; [done|].
    rewrite iter_xO, mult_IZR, <- bpow_IZR by lia.
    rewrite Rmult_assoc, <- bpow_add. do 2 f_equal. lia.
Qed.

Lemma binary_round_fl_ok (s : bool) mx ex :
  fl_ok ((if s then -1 else 1) * (IZR (Zpos mx) * bpow ex))
    (binary_round prec emax s mx ex).
Proof.
  unfold binary_round. rewrite fexp_cexp.
  destruct (shl_align_spec mx ex (cexp (Zpos (digits2_pos mx) + ex))) as [E1 E2].
  destruct (shl_align mx ex _) as [mz ez]. cbn [fst snd] in *. subst ez.
  rewrite <- E2.
  apply (bra_fl_ok _ _ _ _ _ (Zpos (digits2_pos mx) + ex)%Z).
  - rewrite E2. apply mag_of_pos.
  - lia.
  - cbn. rewrite mul_div_bpow. lra.
  - lia.
Qed.

Lemma binary_normalize_fl_ok m e :
  fl_ok (IZR m * bpow e) (binary_normalize prec emax m e false).
Proof.
  destruct m as [|p|p]; cbn [binary_normalize].
  - rewrite Rmult_0_l. apply fl_ok_zero.
  - pose proof (binary_round_fl_ok false p e) as H. by rewrite Rmult_1_l in H.
  - pose proof (binary_round_fl_ok true p e) as H.
    replace (IZR (Zneg p) * bpow e) with (-1 * (IZR (Zpos p) * bpow e)); [done|].
    change (Zneg p) with (- Zpos p)%Z. rewrite (opp_IZR (Zpos p)). lra.
Qed.

(** *** The operations *)

Lemma IZR_cond_Zopp (s : bool) (m : positive) :
  IZR (cond_Zopp s (Zpos m)) = (if s then -1 else 1) * IZR (Zpos m).
Proof.
  destruct s; unfold cond_Zopp.
  - rewrite (opp_IZR (Zpos m)). lra.
  - lra.
Qed.

Lemma aligned_value (s : bool) (m : positive) (e e' : Z) :
  IZR (cond_Zopp s (Zpos (fst (shl_align m e (Z.min e e'))))) * bpow (Z.min e e')
    = (if s then -1 else 1) * (IZR (Zpos m) * bpow e).
Proof.
  rewrite IZR_cond_Zopp.
  destruct (shl_align_spec m e (Z.min e e')) as [_ H].
  replace (Z.min e (Z.min e e')) with (Z.min e e') in H by lia.
  rewrite Rmult_assoc, H. done.
Qed.

Lemma aligned_value_r (s : bool) (m : positive) (e e' : Z) :
  IZR (cond_Zopp s (Zpos (fst (shl_align m e (Z.min e' e))))) * bpow (Z.min e' e)
    = (if s then -1 else 1) * (IZR (Zpos m) * bpow e).
Proof. rewrite (Z.min_comm e' e). apply aligned_value. Qed.

Lemma fin_opp s m e :
  fin (S754_finite s m e) → fin (S754_finite (negb s) m e).
Proof. done. Qed.

Lemma SFadd_fl_ok x y : fin x → fin y → fl_ok (SF2R x + SF2R y) (SF64add x y).
Proof.
  intros Hx Hy.
  destruct x as [sx|sx| |sx mx ex]; try (destruct Hx as [Hx _]; discriminate Hx);
  destruct y as [sy|sy| |sy my ey]; try (destruct Hy as [Hy _]; discriminate Hy);
    cbn [SF64add SFadd SF2R].
  - rewrite Rplus_0_l. destruct sx, sy; apply fl_ok_zero.
  - rewrite Rplus_0_l. by apply (fl_ok_fin (S754_finite sy my ey)).
  - rewrite Rplus_0_r. by apply (fl_ok_fin (S754_finite sx mx ex)).
  - pose proof (binary_normalize_fl_ok
        (cond_Zopp sx (Zpos (fst (shl_align mx ex (Z.min ex ey)))) +
         cond_Zopp sy (Zpos (fst (shl_align my ey (Z.min ex ey)))))
        (Z.min ex ey)) as H.
    rewrite plus_IZR, Rmult_plus_distr_r, aligned_value, aligned_value_r in H.
    exact H.
Qed.

Lemma SFsub_fl_ok x y : fin x → fin y → fl_ok (SF2R x - SF2R y) (SF64sub x y).
Proof.
  intros Hx Hy.
  destruct x as [sx|sx| |sx mx ex]; try (destruct Hx as [Hx _]; discriminate Hx);
  destruct y as [sy|sy| |sy my ey]; try (destruct Hy as [Hy _]; discriminate Hy);
    cbn [SF64sub SFsub SF2R].
  - rewrite Rminus_0_r. destruct sx, sy; apply fl_ok_zero.
  - replace (0 - (if sy then -1 else 1) * (IZR (Zpos my) * bpow ey))
      with (SF2R (S754_finite (negb sy) my ey))
      by (destruct sy; cbn [SF2R negb]; lra).
    apply fl_ok_fin, fin_opp, Hy.
  - rewrite Rminus_0_r. by apply (fl_ok_fin (S754_finite sx mx ex)).
  - pose proof (binary_normalize_fl_ok
        (cond_Zopp sx (Zpos (fst (shl_align mx ex (Z.min ex ey)))) -
         cond_Zopp sy (Zpos (fst (shl_align my ey (Z.min ex ey)))))
        (Z.min ex ey)) as H.
    rewrite minus_IZR, Rmult_minus_distr_r, aligned_value, aligned_value_r in H.
    exact H.
Qed.

Lemma digits_mul (a b : positive) :
  (Zpos (digits2_pos a) + Zpos (digits2_pos b) - 1 <= Zpos (digits2_pos (a * b)))%Z.
Proof.
  destruct (digits_bounds a) as [La _]. destruct (digits_bounds b) as [Lb _].
  destruct (digits_bounds (a * b)) as [_ U].
  assert (2 ^ (Zpos (digits2_pos a) - 1 + (Zpos (digits2_pos b) - 1))
            <= Zpos (a * b))%Z as H.
  { rewrite Z.pow_add_r, Pos2Z.inj_mul by lia. apply Z.mul_le_mono_nonneg; lia. }
  assert (Zpos (digits2_pos a) - 1 + (Zpos (digits2_pos b) - 1)
            < Zpos (digits2_pos (a * b)))%Z; [|lia].
  apply (Z.pow_lt_mono_r_iff 2); lia.
Qed.

Lemma SFmul_fl_ok x y : fin x → fin y → fl_ok (SF2R x * SF2R y) (SF64mul x y).
Proof.
  intros Hx Hy.
  destruct x as [sx|sx| |sx mx ex]; try (destruct Hx as [Hx _]; discriminate Hx);
  destruct y as [sy|sy| |sy my ey]; try (destruct Hy as [Hy _]; discriminate Hy);
    cbn [SF64mul SFmul SF2R].
  - rewrite Rmult_0_l. apply fl_ok_zero.
  - rewrite Rmult_0_l. apply fl_ok_zero.
  - rewrite Rmult_0_r. apply fl_ok_zero.
  - destruct Hx as [_ Hx], Hy as [_ Hy]. cbn in Hx, Hy.
    apply bounded_shape in Hx as (Dx & Ex & Nx), Hy as (Dy & Ey & Ny).
    pose proof (digits_mul mx my) as Hd.
    destruct (digits_bounds mx) as [_ Ux]. destruct (digits_bounds my) as [_ Uy].
    assert (0 < Zpos (digits2_pos mx))%Z by lia.
    assert (0 < Zpos (digits2_pos my))%Z by lia.
    pose proof (bra_fl_ok (xorb sx sy) (Zpos (mx * my)) (ex + ey) loc_Exact
        (IZR (Zpos (mx * my)) * bpow (ex + ey))
        (Zpos (digits2_pos (mx * my)) + (ex + ey))
        (mag_of_pos _ _) ltac:(lia)) as Hbra.
    cbn [loc_ok] in Hbra. rewrite mul_div_bpow in Hbra.
    specialize (Hbra ltac:(lra) ltac:(unfold cexp; lia)).
    replace ((if sx then -1 else 1) * (IZR (Zpos mx) * bpow ex) *
             ((if sy then -1 else 1) * (IZR (Zpos my) * bpow ey)))
      with ((if xorb sx sy then -1 else 1) *
            (IZR (Zpos (mx * my)) * bpow (ex + ey))); [exact Hbra|].
    rewrite Pos2Z.inj_mul, mult_IZR, bpow_add. destruct sx, sy; cbn [xorb]; ring.
Qed.

Lemma new_location_ok (n k : Z) :
  (0 < n)%Z → (0 <= k < n)%Z → loc_ok (new_location n k) (IZR k / IZR n).
Proof.
  intros Hn Hk.
  assert (0 < IZR n) as Hn' by (apply IZR_lt; lia).
  assert (∀ a b : Z, (a < b)%Z → IZR a < IZR b) as Hlt by (intros; by apply IZR_lt).
  assert (IZR k / IZR n * IZR n = IZR k) as Hkn by (field; lra).
  unfold new_location, new_location_even, new_location_odd.
  destruct (Z.even n) eqn:Ev.
  - destruct (Z.eqb_spec k 0) as [->|Hk0]; cbn [loc_ok].
    + unfold Rdiv. lra.
    + destruct (Z.compare_spec (2 * k) n) as [E|L|G]; cbn [loc_ok].
      * rewrite <- E, mult_IZR. field. apply not_0_IZR in Hk0. lra.
      * apply Hlt in L. rewrite mult_IZR in L.
        assert (0 < IZR k) by (apply IZR_lt; lia).
        split; [apply Rdiv_lt_0_compat; lra|].
        apply Rmult_lt_reg_r with (IZR n); [done|]. lra.
      * apply Hlt in G. rewrite mult_IZR in G.
        destruct Hk as [_ Hk]. apply Hlt in Hk.
        split; apply Rmult_lt_reg_r with (IZR n); try done; lra.
  - destruct (Z.eqb_spec k 0) as [->|Hk0]; cbn [loc_ok].
    + unfold Rdiv. lra.
    + assert (2 * k ≠ n)%Z as Hodd.
      { intros <-. rewrite Z.even_mul in Ev. discriminate Ev. }
      destruct (Z.compare_spec (2 * k + 1) n) as [E|L|G]; cbn [loc_ok].
      * assert (2 * k < n)%Z as L by lia. apply Hlt in L. rewrite mult_IZR in L.
        assert (0 < IZR k) by (apply IZR_lt; lia).
        split; [apply Rdiv_lt_0_compat; lra|].
        apply Rmult_lt_reg_r with (IZR n); [done|]. lra.
      * assert (2 * k < n)%Z as L' by lia. apply Hlt in L'. rewrite mult_IZR in L'.
        assert (0 < IZR k) by (apply IZR_lt; lia).
        split; [apply Rdiv_lt_0_compat; lra|].
        apply Rmult_lt_reg_r with (IZR n); [done|]. lra.
      * assert (n < 2 * k)%Z as G' by lia. apply Hlt in G'. rewrite mult_IZR in G'.
        destruct Hk as [_ Hk]. apply Hlt in Hk.
        split; apply Rmult_lt_reg_r with (IZR n); try done; lra.
Qed.

Lemma div_core_spec (mx my : positive) (ex ey : Z) :
  let e' := Z.min (cexp (Zpos (digits2_pos mx) + ex - (Zpos (digits2_pos my) + ey)))
                  (ex - ey) in
  ∃ q r, SFdiv_core_binary prec emax (Zpos mx) ex (Zpos my) ey
           = (q, e', new_location (Zpos my) r) ∧
    (Zpos mx * 2 ^ (ex - ey - e') = Zpos my * q + r)%Z ∧
    (0 <= r < Zpos my)%Z ∧ (0 <= q)%Z.
Proof.
  intros e'. unfold SFdiv_core_binary. cbn [Zdigits2]. rewrite fexp_cexp. fold e'.
  set (m' := match (ex - ey - e')%Z with
             | Zpos _ => Z.shiftl (Zpos mx) (ex - ey - e')
             | Z0 => Zpos mx
             | Zneg _ => 0%Z
             end).
  assert (m' = Zpos mx * 2 ^ (ex - ey - e'))%Z as Hm'.
  { unfold m'. destruct (ex - ey - e')%Z as [|p|p] eqn:E.
    - lia.
    - rewrite Z.shiftl_mul_pow2 by lia. done.
    - unfold e' in E. lia. }
  pose proof (Z_div_mod m' (Zpos my) ltac:(lia)) as Hdm.
  destruct (Z.div_eucl m' (Zpos my)) as [q r]. destruct Hdm as [Hdm Hr].
  exists q, r. split; [done|]. split; [lia|]. split; [done|].
  assert (0 <= m')%Z by (rewrite Hm'; apply Z.mul_nonneg_nonneg; [lia | apply Z.pow_nonneg; lia]).
  nia.
Qed.

Lemma SFdiv_fl_ok x y :
  fin x → fin y → SF2R y ≠ 0 → fl_ok (SF2R x / SF2R y) (SF64div x y).
Proof.
  intros Hx Hy Hy0.
  destruct x as [sx|sx| |sx mx ex]; try (destruct Hx as [Hx _]; discriminate Hx);
  destruct y as [sy|sy| |sy my ey]; try (destruct Hy as [Hy _]; discriminate Hy);
    cbn [SF64div SFdiv SF2R] in *; try lra.
  - unfold Rdiv. rewrite Rmult_0_l. apply fl_ok_zero.
  - clear Hx Hy Hy0.
    destruct (div_core_spec mx my ex ey) as (q & r & -> & Hqr & Hr & Hq).
    set (e' := Z.min _ _) in *.
    set (K := (Zpos (digits2_pos mx) + ex - (Zpos (digits2_pos my) + ey))%Z) in *.
    set (X := IZR (Zpos mx) * bpow ex / (IZR (Zpos my) * bpow ey)).
    pose proof (pos_value_pos mx ex) as Px. pose proof (pos_value_pos my ey) as Py.
    assert (0 < IZR (Zpos mx)) as Pmx by (apply IZR_lt; lia).
    assert (0 < IZR (Zpos my)) as Pmy by (apply IZR_lt; lia).
    pose proof (bpow_pos ex) as Pex. pose proof (bpow_pos ey) as Pey.
    pose proof (bpow_pos e') as Pe'.
    assert (0 < X) as PX by (apply Rdiv_lt_0_compat; done).
    (* the quotient of the mantissas *)
    assert (X = IZR (Zpos mx) / IZR (Zpos my) * bpow (ex - ey)) as HX.
    { unfold X. rewrite bpow_sub. field. lra. }
    assert (X / bpow e' - IZR q = IZR r / IZR (Zpos my)) as Hfrac.
    { apply IZR_eq in Hqr. rewrite plus_IZR, !mult_IZR, <- bpow_IZR in Hqr by (unfold e'; lia).
      rewrite HX. replace (ex - ey)%Z with (ex - ey - e' + e')%Z by lia.
      rewrite bpow_add. field_simplify_eq; [|lra]. lra. }
    (* the magnitude of the quotient *)
    destruct (digits_bounds mx) as [Lx Ux]. destruct (digits_bounds my) as [Ly Uy].
    apply IZR_le in Lx, Ly. apply IZR_lt in Ux, Uy.
    rewrite <- !bpow_IZR in Lx, Ly, Ux, Uy by lia.
    assert (bpow (K - 1) <= X < bpow (K + 1)) as HK.
    { set (A := bpow (Zpos (digits2_pos mx) - 1)) in *.
      set (B := bpow (Zpos (digits2_pos my) - 1)) in *.
      set (D := bpow (ex - ey)) in *.
      assert (0 < A) as PA by apply bpow_pos.
      assert (0 < B) as PB by apply bpow_pos.
      assert (0 < D) as PD by apply bpow_pos.
      replace (bpow (Zpos (digits2_pos mx))) with (2 * A) in Ux
        by (unfold A; rewrite <- bpow_succ; f_equal; lia).
      replace (bpow (Zpos (digits2_pos my))) with (2 * B) in Uy
        by (unfold B; rewrite <- bpow_succ; f_equal; lia).
      assert (bpow (K - 1) * (2 * B) = A * D) as E1.
      { unfold A, B, D. rewrite <- bpow_1, <- !bpow_add. f_equal. unfold K. lia. }
      assert (bpow (K + 1) * B = 2 * A * D) as E2.
      { unfold A, B, D. rewrite <- bpow_1, <- !bpow_add. f_equal. unfold K. lia. }
      assert (X * IZR (Zpos my) = IZR (Zpos mx) * D) as EX.
      { rewrite HX. fold D. field. lra. }
      pose proof (bpow_pos (K - 1)) as P1. pose proof (bpow_pos (K + 1)) as P2.
      split.
      - apply Rmult_le_reg_r with (IZR (Zpos my)); [done|]. rewrite EX.
        apply Rle_trans with (bpow (K - 1) * (2 * B)).
        + apply Rmult_le_compat_l; lra.
        + rewrite E1. apply Rmult_le_compat_r; lra.
      - apply Rmult_lt_reg_r with (IZR (Zpos my)); [done|]. rewrite EX.
        apply Rlt_le_trans with (2 * A * D).
        + apply Rmult_lt_compat_r; lra.
        + rewrite <- E2. apply Rmult_le_compat_l; lra. }
    assert (∃ k, mag_is X k ∧ (K <= k)%Z) as (k & Hk & HKk).
    { destruct (Rlt_le_dec X (bpow K)) as [Hlt|Hge].
      - exists K. split; [split; lra | lia].
      - exists (K + 1)%Z. split; [|lia]. split; [|lra].
        replace (K + 1 - 1)%Z with K by lia. done. }
    pose proof (bra_fl_ok (xorb sx sy) q e' (new_location (Zpos my) r) X k Hk Hq) as H.
    rewrite Hfrac in H.
    specialize (H (new_location_ok (Zpos my) r ltac:(lia) Hr)
                  ltac:(pose proof (cexp_mono _ _ HKk); unfold e'; lia)).
    replace ((if sx then -1 else 1) * (IZR (Zpos mx) * bpow ex) /
             ((if sy then -1 else 1) * (IZR (Zpos my) * bpow ey)))
      with ((if xorb sx sy then -1 else 1) * X); [exact H|].
    unfold X. destruct sx, sy; cbn [xorb]; field; lra.
Qed.

(** *** Comparison *)

Lemma lt_by_exponent m1 e1 m2 e2 :
  SpecFloat.bounded prec emax m1 e1 = true →
  SpecFloat.bounded prec emax m2 e2 = true →
  (e1 < e2)%Z →
  IZR (Zpos m1) * bpow e1 < IZR (Zpos m2) * bpow e2.
Proof.
  intros (D1 & E1 & N1)%bounded_shape (D2 & E2 & N2)%bounded_shape He.
  destruct (digits_bounds m1) as [_ U1]. destruct (digits_bounds m2) as [L2 _].
  assert (Zpos m1 < 2 ^ 53)%Z as U.
  { eapply Z.lt_le_trans; [exact U1|]. apply Z.pow_le_mono_r; lia. }
  assert (2 ^ 52 <= Zpos m2)%Z as L.
  { replace 52%Z with (Zpos (digits2_pos m2) - 1)%Z by lia. done. }
  apply IZR_lt in U. apply IZR_le in L. rewrite <- bpow_IZR in U, L by lia.
  pose proof (bpow_pos e1) as P1. pose proof (bpow_pos e2) as P2.
  pose proof (bpow_le (e1 + 1) e2 ltac:(lia)) as Hb. rewrite bpow_succ in Hb.
  replace (bpow 53) with (2 * bpow 52) in U by (rewrite <- bpow_succ; f_equal).
  pose proof (bpow_pos 52) as P52.
  apply Rlt_le_trans with (2 * bpow 52 * bpow e1).
  - apply Rmult_lt_compat_r; lra.
  - apply Rle_trans with (bpow 52 * bpow e2).
    + rewrite Rmult_assoc. rewrite (Rmult_comm 2), Rmult_assoc.
      apply Rmult_le_compat_l; lra.
    + apply Rmult_le_compat_r; lra.
Qed.

Lemma pos_compare_ok m1 e1 m2 e2 :
  SpecFloat.bounded prec emax m1 e1 = true →
  SpecFloat.bounded prec emax m2 e2 = true →
  cmp_ok (Some match Z.compare e1 e2 with
               | Lt => Lt
               | Gt => Gt
               | Eq => Pos.compare_cont Eq m1 m2
               end)
    (IZR (Zpos m1) * bpow e1) (IZR (Zpos m2) * bpow e2).
Proof.
  intros H1 H2. destruct (Z.compare_spec e1 e2) as [->|He|He]; cbn [cmp_ok].
  - change (Pos.compare_cont Eq m1 m2) with (m1 ?= m2)%positive.
    pose proof (bpow_pos e2).
    destruct (Pos.compare_spec m1 m2) as [->|Hm|Hm]; cbn [cmp_ok].
    + done.
    + apply Rmult_lt_compat_r; [done|]. apply IZR_lt. lia.
    + apply Rmult_lt_compat_r; [done|]. apply IZR_lt. lia.
  - by apply lt_by_exponent.
  - by apply lt_by_exponent.
Qed.

Lemma SFcompare_ok x y : fin x → fin y → cmp_ok (SFcompare x y) (SF2R x) (SF2R y).
Proof.
  intros [Fx Vx] [Fy Vy].
  destruct x as [sx|sx| |sx mx ex]; try discriminate Fx;
  destruct y as [sy|sy| |sy my ey]; try discriminate Fy;
    cbn [SFcompare SF2R].
  - done.
  - pose proof (pos_value_pos my ey). destruct sy; cbn [cmp_ok]; lra.
  - pose proof (pos_value_pos mx ex). destruct sx; cbn [cmp_ok]; lra.
  - cbn in Vx, Vy.
    pose proof (pos_value_pos mx ex) as Px. pose proof (pos_value_pos my ey) as Py.
    destruct sx, sy.
    + pose proof (pos_compare_ok mx ex my ey Vx Vy) as H.
      destruct (Z.compare ex ey); [destruct (Pos.compare_cont Eq mx my)| |];
        cbn [cmp_ok CompOpp] in *; lra.
    + cbn [cmp_ok]. lra.
    + cbn [cmp_ok]. lra.
    + pose proof (pos_compare_ok mx ex my ey Vx Vy) as H.
      destruct (Z.compare ex ey); [destruct (Pos.compare_cont Eq mx my)| |];
        cbn [cmp_ok] in *; lra.
Qed.

Lemma SFltb_ok x y : fin x → fin y → (SFltb x y = true ↔ SF2R x < SF2R y).
Proof.
  intros Hx Hy. pose proof (SFcompare_ok x y Hx Hy) as H. unfold SFltb.
  destruct (SFcompare x y) as [[]|]; cbn [cmp_ok] in H; split; try done; lra.
Qed.

Lemma SFleb_ok x y : fin x → fin y → (SFleb x y = true ↔ SF2R x <= SF2R y).
Proof.
  intros Hx Hy. pose proof (SFcompare_ok x y Hx Hy) as H. unfold SFleb.
  destruct (SFcompare x y) as [[]|]; cbn [cmp_ok] in H; split; try done; lra.
Qed.

Lemma SFeqb_ok x y : fin x → fin y → (SFeqb x y = true ↔ SF2R x = SF2R y).
Proof.
  intros Hx Hy. pose proof (SFcompare_ok x y Hx Hy) as H. unfold SFeqb.
  destruct (SFcompare x y) as [[]|]; cbn [cmp_ok] in H; split; try done; lra.
Qed.

(** *** Primitive floats *)

Local Open Scope float_scope.

Lemma finite_fin x : finite x → fin (Prim2SF x).
Proof. intros H. split; [done | apply Prim2SF_valid]. Qed.

Lemma value_of_int (m : positive) (k n : Z) :
  (0 <= k)%Z → Zpos m = (n * 2 ^ k)%Z →
  (IZR (Zpos m) * bpow (- k) = IZR n)%R.
Proof.
  intros Hk ->. rewrite mult_IZR, <- bpow_IZR by done.
  rewrite Rmult_assoc, <- bpow_add. replace (k + - k)%Z with 0%Z by lia.
  rewrite bpow_0. lra.
Qed.

Lemma B2R_0 : B2R 0 = 0%R.
Proof. reflexivity. Qed.

Lemma B2R_1 : B2R 1 = 1%R.
Proof.
  unfold B2R. change (Prim2SF 1) with (S754_finite false 4503599627370496 (-52)).
  cbn [SF2R]. rewrite (value_of_int _ 52 1) by done. lra.
Qed.

Lemma B2R_2 : B2R 2 = 2%R.
Proof.
  unfold B2R. change (Prim2SF 2) with (S754_finite false 4503599627370496 (-51)).
  cbn [SF2R]. rewrite (value_of_int _ 51 2) by done. lra.
Qed.

Lemma B2R_6 : B2R 6 = 6%R.
Proof.
  unfold B2R. change (Prim2SF 6) with (S754_finite false 6755399441055744 (-50)).
  cbn [SF2R]. rewrite (value_of_int _ 50 6) by done. lra.
Qed.

Lemma B2R_255 : B2R 255 = 255%R.
Proof.
  unfold B2R. change (Prim2SF 255) with (S754_finite false 8972014882652160 (-45)).
  cbn [SF2R]. rewrite (value_of_int _ 45 255) by done. lra.
Qed.

Lemma B2R_m1 : B2R (-1) = (-1)%R.
Proof.
  unfold B2R. change (Prim2SF (-1)) with (S754_finite true 4503599627370496 (-52)).
  cbn [SF2R]. rewrite (value_of_int _ 52 1) by done. lra.
Qed.

(** The result of an operation whose exact value lies between the
    values of two finite floats: it is finite, lies between them, and
    is the rounding of the exact value. *)
Lemma fl_ok_within v r (lo hi : float) :
  fl_ok v r → finite lo → finite hi → (B2R lo <= v <= B2R hi)%R →
  fin r ∧ (B2R lo <= SF2R r <= B2R hi)%R ∧ rounds v (SF2R r).
Proof.
  intros (y & Hy & Hr) Hlo%finite_fin Hhi%finite_fin [Hl Hh].
  pose proof (rounds_mono _ _ _ _ (rounds_fin _ Hlo) Hy Hl) as H1.
  pose proof (rounds_mono _ _ _ _ Hy (rounds_fin _ Hhi) Hh) as H2.
  pose proof (fin_lt_overflow _ Hlo) as O1. pose proof (fin_lt_overflow _ Hhi) as O2.
  apply Rabs_def2 in O1, O2.
  destruct Hr as [Hf <-]; [apply Rabs_def1; unfold B2R in *; lra|].
  done.
Qed.

Lemma add_within x y (lo hi : float) :
  finite x → finite y → finite lo → finite hi →
  (B2R lo <= B2R x + B2R y <= B2R hi)%R →
  finite (x + y) ∧ (B2R lo <= B2R (x + y) <= B2R hi)%R ∧
  rounds (B2R x + B2R y) (B2R (x + y)).
Proof.
  intros Hx Hy Hlo Hhi Hb.
  destruct (fl_ok_within _ _ lo hi
              (SFadd_fl_ok _ _ (finite_fin _ Hx) (finite_fin _ Hy)) Hlo Hhi Hb)
    as ([Hf _] & H1 & H2).
  rewrite <- FloatAxioms.add_spec in Hf, H1, H2. done.
Qed.

Lemma sub_within x y (lo hi : float) :
  finite x → finite y → finite lo → finite hi →
  (B2R lo <= B2R x - B2R y <= B2R hi)%R →
  finite (x - y) ∧ (B2R lo <= B2R (x - y) <= B2R hi)%R ∧
  rounds (B2R x - B2R y) (B2R (x - y)).
Proof.
  intros Hx Hy Hlo Hhi Hb.
  destruct (fl_ok_within _ _ lo hi
              (SFsub_fl_ok _ _ (finite_fin _ Hx) (finite_fin _ Hy)) Hlo Hhi Hb)
    as ([Hf _] & H1 & H2).
  rewrite <- FloatAxioms.sub_spec in Hf, H1, H2. done.
Qed.

Lemma mul_within x y (lo hi : float) :
  finite x → finite y → finite lo → finite hi →
  (B2R lo <= B2R x * B2R y <= B2R hi)%R →
  finite (x * y) ∧ (B2R lo <= B2R (x * y) <= B2R hi)%R ∧
  rounds (B2R x * B2R y) (B2R (x * y)).
Proof.
  intros Hx Hy Hlo Hhi Hb.
  destruct (fl_ok_within _ _ lo hi
              (SFmul_fl_ok _ _ (finite_fin _ Hx) (finite_fin _ Hy)) Hlo Hhi Hb)
    as ([Hf _] & H1 & H2).
  rewrite <- FloatAxioms.mul_spec in Hf, H1, H2. done.
Qed.

Lemma div_within x y (lo hi : float) :
  finite x → finite y → B2R y ≠ 0%R → finite lo → finite hi →
  (B2R lo <= B2R x / B2R y <= B2R hi)%R →
  finite (x / y) ∧ (B2R lo <= B2R (x / y) <= B2R hi)%R ∧
  rounds (B2R x / B2R y) (B2R (x / y)).
Proof.
  intros Hx Hy Hy0 Hlo Hhi Hb.
  destruct (fl_ok_within _ _ lo hi
              (SFdiv_fl_ok _ _ (finite_fin _ Hx) (finite_fin _ Hy) Hy0) Hlo Hhi Hb)
    as ([Hf _] & H1 & H2).
  rewrite <- FloatAxioms.div_spec in Hf, H1, H2. done.
Qed.

Lemma ltb_R x y : finite x → finite y → ((x <? y) = true ↔ (B2R x < B2R y)%R).
Proof.
  intros Hx%finite_fin Hy%finite_fin. rewrite FloatAxioms.ltb_spec. by apply SFltb_ok.
Qed.

Lemma leb_R x y : finite x → finite y → ((x <=? y) = true ↔ (B2R x <= B2R y)%R).
Proof.
  intros Hx%finite_fin Hy%finite_fin. rewrite FloatAxioms.leb_spec. by apply SFleb_ok.
Qed.

Lemma eqb_R x y : finite x → finite y → ((x =? y) = true ↔ B2R x = B2R y).
Proof.
  intros Hx%finite_fin Hy%finite_fin. rewrite FloatAxioms.eqb_spec. by apply SFeqb_ok.
Qed.

Lemma finite_not_nan x : finite x → is_nan x = false.
Proof.
  intros Hx. unfold is_nan. apply negb_false_iff. by apply eqb_R.
Qed.

(** A float between two finite floats is finite. *)
Lemma leb_finite lo hi x :
  finite lo → finite hi → (lo <=? x) = true → (x <=? hi) = true →
  finite x ∧ (B2R lo <= B2R x <= B2R hi)%R.
Proof.
  intros Hlo Hhi H1 H2.
  assert (finite x) as Hx.
  { rewrite FloatAxioms.leb_spec in H1, H2. unfold finite in *.
    destruct (Prim2SF x) as [s|[]| |s m e]; try done;
      destruct (Prim2SF lo) as [?|?| |[] ? ?]; try discriminate Hlo;
      destruct (Prim2SF hi) as [?|?| |[] ? ?]; try discriminate Hhi;
      cbn in H1, H2; discriminate. }
  split; [done|]. split; by apply leb_R.
Qed.

End RoundFacts.

(** ** Facts about [rgb2hsv] *)

Section Rgb2hsvFacts.

Import Num Round RoundFacts.
Local Open Scope float_scope.

(** *** Integer channel values *)

Lemma same_numbers_eq xs : ∀ ys, same_numbers xs ys = true → xs = ys.
Proof.
  induction xs as [|x xs IH]; intros [|y ys]; simpl; try done.
  intros [Hx Hr]%andb_prop. apply Leibniz.eqb_spec in Hx.
  f_equal; auto.
Qed.

Lemma elem_of_bytes (k : Z) : (0 ≤ k ≤ 255)%Z → k ∈ bytes.
Proof.
  intros Hk. unfold bytes. apply list_elem_of_fmap.
  exists (Z.to_nat k). split; [lia | apply elem_of_seq; lia].
Qed.

Lemma forall_bytes (P : Z → bool) :
  forallb P bytes = true → ∀ k, (0 ≤ k ≤ 255)%Z → P k = true.
Proof.
  intros H k Hk. rewrite forallb_forall in H.
  apply H, list_elem_of_In, elem_of_bytes, Hk.
Qed.

(** Dividing an integer channel value by 255 and multiplying by 255
    gives it back under [Math.round], and it is integral. *)
Lemma round_bytes (k : Z) :
  (0 ≤ k ≤ 255)%Z →
  Math_round (of_Z k / 255 * 255) = of_Z k ∧ Math_round (of_Z k) = of_Z k.
Proof.
  intros Hk.
  pose (P := λ k : Z,
    same_numbers [Math_round (of_Z k / 255 * 255); Math_round (of_Z k)]
                 [of_Z k; of_Z k]).
  assert (forallb P bytes = true) as H by (vm_compute; reflexivity).
  pose proof (same_numbers_eq _ _ (forall_bytes _ H k Hk)) as E.
  injection E as E1 E2. split; assumption.
Qed.

(** The value channel is computed from the maximum alone. *)
Lemma rgb2hsv_value (r g b : float) :
  rgb2hsv r g b !! 2%nat = Some (Math_round (Math_max [r / 255; g / 255; b / 255] * 255)).
Proof. reflexivity. Qed.

(** *** Constants, maximum and minimum *)

Lemma finite_0 : finite 0. Proof. reflexivity. Qed.
Lemma finite_1 : finite 1. Proof. reflexivity. Qed.
Lemma finite_2 : finite 2. Proof. reflexivity. Qed.
Lemma finite_6 : finite 6. Proof. reflexivity. Qed.
Lemma finite_255 : finite 255. Proof. reflexivity. Qed.
Lemma finite_m1 : finite (-1). Proof. reflexivity. Qed.

Lemma ltb_false_R x y : finite x → finite y → (x <? y) = false → (B2R y <= B2R x)%R.
Proof.
  intros Hx Hy H. apply Rnot_lt_le. intros Hlt.
  apply (ltb_R x y Hx Hy) in Hlt. congruence.
Qed.

Lemma max2_finite a b :
  finite a → finite b →
  (max2 a b = a ∨ max2 a b = b) ∧
  (B2R a <= B2R (max2 a b))%R ∧ (B2R b <= B2R (max2 a b))%R.
Proof.
  intros Ha Hb. unfold max2.
  rewrite (finite_not_nan a Ha), (finite_not_nan b Hb). cbn [orb].
  destruct (a <? b) eqn:E1.
  - apply (ltb_R a b Ha Hb) in E1. split; [by right|]. lra.
  - apply (ltb_false_R a b Ha Hb) in E1. destruct (b <? a) eqn:E2.
    + split; [by left|]. lra.
    + apply (ltb_false_R b a Hb Ha) in E2.
      destruct (get_sign a); (split; [auto|]); lra.
Qed.

Lemma min2_finite a b :
  finite a → finite b →
  (min2 a b = a ∨ min2 a b = b) ∧
  (B2R (min2 a b) <= B2R a)%R ∧ (B2R (min2 a b) <= B2R b)%R.
Proof.
  intros Ha Hb. unfold min2.
  rewrite (finite_not_nan a Ha), (finite_not_nan b Hb). cbn [orb].
  destruct (a <? b) eqn:E1.
  - apply (ltb_R a b Ha Hb) in E1. split; [by left|]. lra.
  - apply (ltb_false_R a b Ha Hb) in E1. destruct (b <? a) eqn:E2.
    + split; [by right|]. lra.
    + apply (ltb_false_R b a Hb Ha) in E2.
      destruct (get_sign a); (split; [auto|]); lra.
Qed.

Lemma max2_neg_infinity x : finite x → max2 neg_infinity x = x.
Proof.
  intros Hx. unfold max2. rewrite (finite_not_nan x Hx).
  change (is_nan neg_infinity) with false. cbn [orb].
  assert ((neg_infinity <? x) = true) as ->; [|done].
  rewrite FloatAxioms.ltb_spec. change (Prim2SF neg_infinity) with (S754_infinity true).
  unfold finite in Hx. by destruct (Prim2SF x).
Qed.

Lemma min2_infinity x : finite x → min2 infinity x = x.
Proof.
  intros Hx. unfold min2. rewrite (finite_not_nan x Hx).
  change (is_nan infinity) with false. cbn [orb].
  assert ((infinity <? x) = false) as ->.
  { rewrite FloatAxioms.ltb_spec. change (Prim2SF infinity) with (S754_infinity false).
    unfold finite in Hx. by destruct (Prim2SF x). }
  assert ((x <? infinity) = true) as ->; [|done].
  rewrite FloatAxioms.ltb_spec. change (Prim2SF infinity) with (S754_infinity false).
  unfold finite in Hx. by destruct (Prim2SF x) as [|[]| |].
Qed.

Lemma Math_max_3 x y z :
  finite x → finite y → finite z →
  let M := Math_max [x; y; z] in
  (M = x ∨ M = y ∨ M = z) ∧
  (B2R x <= B2R M)%R ∧ (B2R y <= B2R M)%R ∧ (B2R z <= B2R M)%R.
Proof.
  intros Hx Hy Hz. unfold Math_max. cbn [foldl].
  rewrite (max2_neg_infinity x Hx).
  destruct (max2_finite x y Hx Hy) as (E1 & L1 & L2).
  assert (finite (max2 x y)) as Hxy by (destruct E1 as [-> | ->]; done).
  destruct (max2_finite (max2 x y) z Hxy Hz) as (E2 & L3 & L4).
  split; [|lra].
  destruct E2 as [-> | ->]; [destruct E1 as [-> | ->]|]; auto.
Qed.

Lemma Math_min_3 x y z :
  finite x → finite y → finite z →
  let M := Math_min [x; y; z] in
  (M = x ∨ M = y ∨ M = z) ∧
  (B2R M <= B2R x)%R ∧ (B2R M <= B2R y)%R ∧ (B2R M <= B2R z)%R.
Proof.
  intros Hx Hy Hz. unfold Math_min. cbn [foldl].
  rewrite (min2_infinity x Hx).
  destruct (min2_finite x y Hx Hy) as (E1 & L1 & L2).
  assert (finite (min2 x y)) as Hxy by (destruct E1 as [-> | ->]; done).
  destruct (min2_finite (min2 x y) z Hxy Hz) as (E2 & L3 & L4).
  split; [|lra].
  destruct E2 as [-> | ->]; [destruct E1 as [-> | ->]|]; auto.
Qed.

(** *** The ranges of hue, saturation and value *)

Lemma bpow_m53 : (bpow (-53) <= / 4)%R.
Proof.
  pose proof (bpow_le (-53) (-2) ltac:(lia)) as H.
  replace (bpow (-2)) with (/ 4)%R in H; [done|].
  change (-2)%Z with (-1 + -1)%Z. rewrite bpow_add, bpow_m1. lra.
Qed.

Lemma rounds_err_quarter x y :
  rounds x y → (Rabs (y - x) <= Rmax (Rabs x / 4) (bpow (-1075)))%R.
Proof.
  intros H. eapply Rle_trans; [by apply rounds_err|].
  apply Rmax_lub; [|apply Rmax_r].
  eapply Rle_trans; [|apply Rmax_l].
  pose proof (Rabs_pos x). pose proof bpow_m53. nra.
Qed.

(** The sum of the rounded sixth of [a <= d] and the rounded half of
    [d] does not exceed [d]. *)
Lemma sixth_plus_half a d p q :
  (0 <= a <= d)%R → (0 < d)%R →
  rounds (a / 6) p → rounds (d / 2) q → rounds d d →
  (p + q <= d)%R.
Proof.
  intros Ha Hd Hp Hq Hdd.
  pose proof (bpow_pos (-1075)) as Heta.
  assert (bpow (-1074) = 2 * bpow (-1075))%R as Hu
    by (rewrite <- bpow_succ; f_equal).
  destruct (Rlt_le_dec d (3 * bpow (-1074))) as [Hsmall|Hbig].
  - assert (p = 0%R) as ->.
    { destruct Hp as [[_ ->] | [[Hpos Hp] | [Hneg _]]]; [done | | lra].
      apply (rounds_pos_tiny _ _ Hp). lra. }
    pose proof (rounds_mono _ _ _ _ Hq Hdd ltac:(lra)). lra.
  - pose proof (rounds_err_quarter _ _ Hp) as Ep.
    pose proof (rounds_err_quarter _ _ Hq) as Eq.
    rewrite (Rabs_pos_eq (a / 6)) in Ep by lra.
    rewrite (Rabs_pos_eq (d / 2)) in Eq by lra.
    pose proof (RRle_abs (p - a / 6)) as Ap. pose proof (RRle_abs (q - d / 2)) as Aq.
    destruct (Rle_lt_dec (d / 8) (bpow (-1075))) as [Habs|Hrel].
    + assert (Rmax (a / 6 / 4) (bpow (-1075)) <= bpow (-1075))%R
        by (apply Rmax_lub; lra).
      assert (Rmax (d / 2 / 4) (bpow (-1075)) <= bpow (-1075))%R
        by (apply Rmax_lub; lra).
      lra.
    + assert (Rmax (a / 6 / 4) (bpow (-1075)) <= d / 8)%R
        by (apply Rmax_lub; lra).
      assert (Rmax (d / 2 / 4) (bpow (-1075)) <= d / 8)%R
        by (apply Rmax_lub; lra).
      lra.
Qed.

Lemma ratio_01 s d : (0 <= s <= d)%R → (0 < d)%R → (0 <= s / d <= 1)%R.
Proof.
  intros Hs Hd. split.
  - apply Rmult_le_pos; [lra|]. apply Rlt_le, Rinv_0_lt_compat, Hd.
  - apply Rmult_le_reg_r with d; [done|]. unfold Rdiv.
    rewrite Rmult_assoc, Rinv_l by lra. lra.
Qed.

Lemma within_consts lo hi x :
  finite lo → finite hi → (lo <=? x) = true → (x <=? hi) = true →
  within (B2R lo) (B2R hi) x.
Proof. intros. by apply leb_finite. Qed.

Lemma wrap_range H0 :
  within (-1) 2 H0 → ∃ H, wrap_hue (Some H0) = Some H ∧ within 0 1 H.
Proof.
  intros [F0 B0]. unfold wrap_hue.
  destruct (H0 <? 0) eqn:E1.
  - apply (ltb_R _ _ F0 finite_0) in E1. rewrite B2R_0 in E1.
    destruct (add_within H0 1 0 1 F0 finite_1 finite_0 finite_1) as (F1 & B1 & _).
    { rewrite B2R_0, B2R_1. lra. }
    rewrite B2R_0, B2R_1 in B1.
    destruct (1 <? H0 + 1) eqn:E2.
    + apply (ltb_R _ _ finite_1 F1) in E2. rewrite B2R_1 in E2. lra.
    + eexists. split; [reflexivity|]. done.
  - apply (ltb_false_R _ _ F0 finite_0) in E1. rewrite B2R_0 in E1.
    destruct (1 <? H0) eqn:E2.
    + apply (ltb_R _ _ finite_1 F0) in E2. rewrite B2R_1 in E2.
      destruct (sub_within H0 1 0 1 F0 finite_1 finite_0 finite_1) as (F1 & B1 & _).
      { rewrite B2R_0, B2R_1. lra. }
      rewrite B2R_0, B2R_1 in B1.
      eexists. split; [reflexivity|]. done.
    + apply (ltb_false_R _ _ finite_1 F0) in E2. rewrite B2R_1 in E2.
      eexists. split; [reflexivity|]. split; [done | lra].
Qed.

Lemma within_0_1_zero : within 0 1 0.
Proof. split; [exact finite_0 | rewrite B2R_0; lra]. Qed.

Lemma eqb_self x : finite x → (x =? x) = true.
Proof. intros Hx. by apply eqb_R. Qed.

Lemma unit_channel x : between 0 255 x → within 0 1 (x / 255).
Proof.
  intros [H1 H2].
  destruct (leb_finite 0 255 x finite_0 finite_255 H1 H2) as [Fx Bx].
  rewrite B2R_0, B2R_255 in Bx.
  destruct (div_within x 255 0 1 Fx finite_255) as (F & B & _).
  - rewrite B2R_255. lra.
  - exact finite_0.
  - exact finite_1.
  - rewrite B2R_0, B2R_1, B2R_255. lra.
  - rewrite B2R_0, B2R_1 in B. done.
Qed.

(** The quantity [del_X] of the chromatic case lies in [[0,1]]. *)
Lemma del_X_range var_Max var_Min X del_Max :
  within 0 1 var_Max → within 0 1 var_Min → finite X →
  (B2R var_Min <= B2R X <= B2R var_Max)%R →
  finite del_Max → (0 < B2R del_Max)%R →
  rounds (B2R var_Max - B2R var_Min) (B2R del_Max) →
  within 0 1 (((var_Max - X) / 6 + del_Max / 2) / del_Max).
Proof.
  intros [FM BM] [Fm Bm] FX BX Fd Pd Rd.
  assert (B2R del_Max <= 1)%R as Hd1.
  { pose proof (rounds_mono _ _ _ _ Rd (rounds_fin _ (finite_fin _ finite_1))) as H.
    fold (B2R 1) in H. rewrite B2R_1 in H. apply H. lra. }
  destruct (sub_within var_Max X 0 1 FM FX finite_0 finite_1) as (Fa & Ba & Ra).
  { rewrite B2R_0, B2R_1. lra. }
  rewrite B2R_0, B2R_1 in Ba.
  pose proof (rounds_mono _ _ _ _ Ra Rd ltac:(lra)) as Had.
  destruct (div_within (var_Max - X) 6 0 1 Fa finite_6) as (Fp & Bp & Rp);
    [rewrite B2R_6; lra | exact finite_0 | exact finite_1
    | rewrite B2R_0, B2R_1, B2R_6; lra |].
  destruct (div_within del_Max 2 0 1 Fd finite_2) as (Fq & Bq & Rq);
    [rewrite B2R_2; lra | exact finite_0 | exact finite_1
    | rewrite B2R_0, B2R_1, B2R_2; lra |].
  rewrite B2R_0, B2R_1 in Bp, Bq. rewrite B2R_6 in Rp. rewrite B2R_2 in Rq.
  pose proof (sixth_plus_half _ _ _ _ (conj (proj1 Ba) Had) Pd Rp Rq
                (rounds_fin _ (finite_fin _ Fd))) as Hsum.
  destruct (add_within ((var_Max - X) / 6) (del_Max / 2) 0 del_Max
              Fp Fq finite_0 Fd) as (Fs & Bs & _).
  { rewrite B2R_0. lra. }
  rewrite B2R_0 in Bs.
  destruct (div_within ((var_Max - X) / 6 + del_Max / 2) del_Max 0 1
              Fs Fd ltac:(lra) finite_0 finite_1) as (Fr & Br & _).
  { rewrite B2R_0, B2R_1. by apply ratio_01. }
  rewrite B2R_0, B2R_1 in Br. done.
Qed.

Lemma third_range : within 0 1 (1 / 3) ∧ within 0 1 (2 / 3).
Proof.
  split.
  - pose proof (within_consts 0 1 (1 / 3) finite_0 finite_1 eq_refl eq_refl) as H.
    by rewrite B2R_0, B2R_1 in H.
  - pose proof (within_consts 0 1 (2 / 3) finite_0 finite_1 eq_refl eq_refl) as H.
    by rewrite B2R_0, B2R_1 in H.
Qed.

(** The hue before the wrap lies in [[-1,2]], whichever branch gives it. *)
Lemma hue_branch_range (c a b : float) :
  within 0 1 c → within 0 1 a → within 0 1 b → within (-1) 2 (c + a - b).
Proof.
  intros [Fc Bc] [Fa Ba] [Fb Bb].
  destruct (add_within c a 0 2 Fc Fa finite_0 finite_2) as (Ft & Bt & _).
  { rewrite B2R_0, B2R_2. lra. }
  rewrite B2R_0, B2R_2 in Bt.
  destruct (sub_within (c + a) b (-1) 2 Ft Fb finite_m1 finite_2) as (Fh & Bh & _).
  { rewrite B2R_m1, B2R_2. lra. }
  rewrite B2R_m1, B2R_2 in Bh. done.
Qed.

Lemma hue_red_range (a b : float) :
  within 0 1 a → within 0 1 b → within (-1) 2 (a - b).
Proof.
  intros [Fa Ba] [Fb Bb].
  destruct (sub_within a b (-1) 2 Fa Fb finite_m1 finite_2) as (Fh & Bh & _).
  { rewrite B2R_m1, B2R_2. lra. }
  rewrite B2R_m1, B2R_2 in Bh. done.
Qed.

(** The hue, saturation and value before scaling lie in [[0,1]]. *)
Lemma hsv01_within r g b :
  between 0 255 r → between 0 255 g → between 0 255 b →
  ∃ H S V, hsv01 r g b = (Some H, S, V) ∧
    within 0 1 H ∧ within 0 1 S ∧ within 0 1 V.
Proof.
  intros Hr%unit_channel Hg%unit_channel Hb%unit_channel.
  unfold hsv01.
  set (var_R := r / 255) in *. set (var_G := g / 255) in *.
  set (var_B := b / 255) in *. clearbody var_R var_G var_B.
  destruct Hr as [FR BR], Hg as [FG BG], Hb as [FB BB].
  destruct (Math_max_3 var_R var_G var_B FR FG FB) as (EM & M1 & M2 & M3).
  destruct (Math_min_3 var_R var_G var_B FR FG FB) as (Em & m1 & m2 & m3).
  set (var_Max := Math_max _) in *. set (var_Min := Math_min _) in *.
  clearbody var_Max var_Min.
  assert (within 0 1 var_Max) as WM by (destruct EM as [-> | [-> | ->]]; done).
  assert (within 0 1 var_Min) as Wm by (destruct Em as [-> | [-> | ->]]; done).
  destruct WM as [FM BM]. destruct Wm as [Fm Bm].
  destruct (sub_within var_Max var_Min 0 var_Max FM Fm finite_0 FM) as (Fd & Bd & Rd).
  { rewrite B2R_0. lra. }
  rewrite B2R_0 in Bd.
  set (del_Max := var_Max - var_Min) in *. clearbody del_Max.
  destruct (del_Max =? 0) eqn:Ed; cbn [fst snd].
  - exists 0, 0, var_Max. split; [done|].
    split; [exact within_0_1_zero|]. split; [exact within_0_1_zero | done].
  - assert (0 < B2R del_Max)%R as Pd.
    { destruct (Req_dec (B2R del_Max) 0) as [E|N]; [|lra].
      rewrite <- B2R_0 in E. apply (eqb_R _ _ Fd finite_0) in E. congruence. }
    assert (within 0 1 (del_Max / var_Max)) as WS.
    { destruct (div_within del_Max var_Max 0 1 Fd FM ltac:(lra) finite_0 finite_1)
        as (Fs & Bs & _).
      - rewrite B2R_0, B2R_1. apply ratio_01; lra.
      - rewrite B2R_0, B2R_1 in Bs. done. }
    pose proof (del_X_range var_Max var_Min var_R del_Max (conj FM BM) (conj Fm Bm)
                  FR ltac:(lra) Fd Pd Rd) as WR.
    pose proof (del_X_range var_Max var_Min var_G del_Max (conj FM BM) (conj Fm Bm)
                  FG ltac:(lra) Fd Pd Rd) as WG.
    pose proof (del_X_range var_Max var_Min var_B del_Max (conj FM BM) (conj Fm Bm)
                  FB ltac:(lra) Fd Pd Rd) as WB.
    set (del_R := ((var_Max - var_R) / 6 + del_Max / 2) / del_Max) in *.
    set (del_G := ((var_Max - var_G) / 6 + del_Max / 2) / del_Max) in *.
    set (del_B := ((var_Max - var_B) / 6 + del_Max / 2) / del_Max) in *.
    clearbody del_R del_G del_B.
    destruct third_range as [W13 W23].
    assert (∃ H0, hue_of_max var_R var_G var_B var_Max del_R del_G del_B = Some H0 ∧
                  within (-1) 2 H0) as (H0 & -> & W0).
    { unfold hue_of_max.
      destruct (var_R =? var_Max) eqn:ER;
        [|destruct (var_G =? var_Max) eqn:EG;
          [|destruct (var_B =? var_Max) eqn:EB]].
      - eexists. split; [reflexivity|]. by apply hue_red_range.
      - eexists. split; [reflexivity|]. by apply hue_branch_range.
      - eexists. split; [reflexivity|]. by apply hue_branch_range.
      - exfalso. destruct EM as [-> | [-> | ->]];
          [rewrite eqb_self in ER | rewrite eqb_self in EG | rewrite eqb_self in EB];
          done. }
    destruct (wrap_range H0 W0) as (H & -> & WH).
    exists H, (del_Max / var_Max), var_Max. done.
Qed.

(** *** Numbers of the same value *)

(** Two canonical finite numbers of the same nonzero value are the same. *)
Lemma SF2R_inj x y : fin x → fin y → SF2R x = SF2R y → SF2R x ≠ 0%R → x = y.
Proof.
  intros [Fx Vx] [Fy Vy] E N.
  destruct x as [sx|sx| |sx mx ex]; try discriminate Fx; [cbn in N; lra|].
  destruct y as [sy|sy| |sy my ey]; try discriminate Fy.
  { rewrite E in N. cbn in N. lra. }
  cbn in Vx, Vy. cbn [SF2R] in E.
  pose proof (pos_value_pos mx ex) as Px. pose proof (pos_value_pos my ey) as Py.
  pose proof (pos_compare_ok mx ex my ey Vx Vy) as H.
  assert (sx = sy) as -> by (destruct sx, sy; try reflexivity; lra).
  assert (IZR (Zpos mx) * bpow ex = IZR (Zpos my) * bpow ey)%R as E'
    by (destruct sy; lra).
  destruct (Z.compare ex ey) eqn:Ec; cbn [cmp_ok] in H; try lra.
  apply Z.compare_eq in Ec as ->.
  destruct (Pos.compare_cont Eq mx my) eqn:Em; cbn [cmp_ok] in H; try lra.
  apply Pos.compare_eq in Em as ->. reflexivity.
Qed.

Lemma B2R_inj x y : finite x → finite y → B2R x = B2R y → B2R x ≠ 0%R → x = y.
Proof.
  intros Hx Hy E N. apply Prim2SF_inj.
  apply SF2R_inj; [by apply finite_fin | by apply finite_fin | exact E | exact N].
Qed.

(** A finite number of value 0 is one of the two zeros. *)
Lemma B2R_zero x : finite x → B2R x = 0%R → ∃ s, Prim2SF x = S754_zero s.
Proof.
  unfold finite, B2R. intros Hx E.
  destruct (Prim2SF x) as [s|s| |s m e]; try discriminate Hx; [by exists s|].
  cbn [SF2R] in E. pose proof (pos_value_pos m e). destruct s; lra.
Qed.

Lemma zero_cases x : finite x → B2R x = 0%R → x = 0 ∨ x = -0.
Proof.
  intros Hx E. destruct (B2R_zero x Hx E) as [s Hs].
  destruct s; [right | left]; apply Prim2SF_inj; rewrite Hs; reflexivity.
Qed.

Lemma Math_round_zero x : finite x → B2R x = 0%R → Math_round x = x.
Proof.
  intros Hx E. destruct (B2R_zero x Hx E) as [s Hs].
  unfold Math_round. rewrite Hs. reflexivity.
Qed.

(** [Math.round] gives numbers of the same value on numbers of the same
    value. *)
Lemma Math_round_value x y :
  finite x → finite y → B2R x = B2R y → B2R (Math_round x) = B2R (Math_round y).
Proof.
  intros Hx Hy E. destruct (Req_dec (B2R x) 0) as [Z|N].
  - rewrite (Math_round_zero x Hx Z), (Math_round_zero y Hy); congruence.
  - by rewrite (B2R_inj x y Hx Hy E N).
Qed.

(** The numbers 0 to 255 have the values 0 to 255. *)
Lemma B2R_of_Z (n : Z) :
  (0 <= n <= 255)%Z → finite (of_Z n) ∧ B2R (of_Z n) = IZR n.
Proof.
  intros Hn.
  pose (P := λ n : Z,
    match Prim2SF (of_Z n) with
    | S754_zero _ => (n =? 0)%Z
    | S754_finite false m e => (e <=? 0)%Z && (Zpos m =? n * 2 ^ (- e))%Z
    | _ => false
    end).
  assert (forallb P bytes = true) as H by (vm_compute; reflexivity).
  pose proof (forall_bytes _ H n Hn) as HP. unfold P in HP.
  unfold finite, B2R.
  destruct (Prim2SF (of_Z n)) as [s|s| |s m e]; try discriminate HP.
  - apply Z.eqb_eq in HP as ->. split; reflexivity.
  - destruct s; [discriminate HP|].
    apply andb_prop in HP as [He%Z.leb_le Hm%Z.eqb_eq].
    split; [reflexivity|]. cbn [SF2R]. rewrite Rmult_1_l.
    replace e with (- - e)%Z at 1 by lia. apply value_of_int; [lia | exact Hm].
Qed.

(** *** [Math.round] on the display range *)

Lemma within_between (lo hi x : float) :
  finite lo → finite hi → within (B2R lo) (B2R hi) x → between lo hi x.
Proof.
  intros Hlo Hhi [Fx [B1 B2]]. split; by apply leb_R.
Qed.

Lemma bytes_between (k : Z) :
  (0 <= k <= 255)%Z → between 0 255 (of_Z k) ∧ Math_round (of_Z k) = of_Z k.
Proof.
  intros Hk.
  pose (P := λ k : Z, (0 <=? of_Z k) && (of_Z k <=? 255)
                      && Leibniz.eqb (Math_round (of_Z k)) (of_Z k)).
  assert (forallb P bytes = true) as H by (vm_compute; reflexivity).
  pose proof (forall_bytes _ H k Hk) as HP. unfold P in HP.
  apply andb_prop in HP as [HP H3]. apply andb_prop in HP as [H1 H2].
  split; [split; assumption|]. apply Leibniz.eqb_spec. exact H3.
Qed.

(** What [Math.round] returns on a number from 0 to 255: the number
    itself when it is integral, and otherwise 0 or one of 1 to 255. *)
Lemma Math_round_cases x :
  within 0 255 x →
  (Math_round x = x ∧
   (B2R x = 0%R ∨ ∃ n, (1 <= n <= 255)%Z ∧ x = of_Z n)) ∨
  Math_round x = 0 ∨
  ∃ n, (1 <= n <= 255)%Z ∧ Math_round x = of_Z n.
Proof.
  intros [Fx Bx]. pose proof Fx as Fx'.
  assert (B2R x = SF2R (Prim2SF x)) as EB by reflexivity.
  unfold Math_round. unfold finite in Fx.
  destruct (Prim2SF x) as [s|s| |s m e]; try discriminate Fx.
  { left. split; [reflexivity | left; exact EB]. }
  cbn [SF2R] in EB. pose proof (pos_value_pos m e) as Pv.
  destruct s; [lra|]. rewrite Rmult_1_l in EB.
  destruct (Z.leb_spec 0 e) as [He|He].
  - left. split; [reflexivity | right].
    assert (0 < 2 ^ e)%Z as Hp by (apply Z.pow_pos_nonneg; lia).
    assert (B2R x = IZR (Zpos m * 2 ^ e)) as Ev
      by (rewrite EB, mult_IZR, <- bpow_IZR by lia; reflexivity).
    exists (Zpos m * 2 ^ e)%Z.
    assert (1 <= Zpos m * 2 ^ e <= 255)%Z as Hn.
    { split; [nia|]. apply le_IZR. lra. }
    split; [exact Hn|].
    destruct (B2R_of_Z (Zpos m * 2 ^ e)) as [Fn Vn]; [lia|].
    apply B2R_inj; [exact Fx' | exact Fn | congruence |].
    rewrite Ev. apply not_0_IZR. lia.
  - right.
    assert (Zpos m <= 255 * 2 ^ (- e))%Z as Hm.
    { apply le_IZR. rewrite mult_IZR, <- bpow_IZR by lia.
      destruct Bx as [_ Bx]. rewrite EB in Bx.
      apply (mul_bpow_le _ _ (- e)) in Bx.
      rewrite Rmult_assoc, <- bpow_add in Bx.
      replace (e + - e)%Z with 0%Z in Bx by lia. rewrite bpow_0 in Bx. lra. }
    assert (0 < 2 ^ (- e))%Z as Hp by (apply Z.pow_pos_nonneg; lia).
    assert (2 ^ (1 - e) = 2 * 2 ^ (- e))%Z as Hp2.
    { replace (1 - e)%Z with (Z.succ (- e)) by lia. apply Z.pow_succ_r. lia. }
    set (n := ((2 * Zpos m + 2 ^ (- e)) / 2 ^ (1 - e))%Z).
    assert (0 <= n <= 255)%Z as Hn.
    { unfold n. rewrite Hp2. split.
      - apply Z.div_pos; lia.
      - assert ((2 * Zpos m + 2 ^ (- e)) / (2 * 2 ^ (- e)) < 256)%Z; [|lia].
        apply Z.div_lt_upper_bound; lia. }
    destruct (Z.eqb_spec n 0) as [_|Hn0]; [by left|].
    right. exists n. split; [lia | reflexivity].
Qed.

(** The integral numbers from 0 to 255 are the two zeros and the
    numbers 1 to 255. *)
Lemma integral_cases x :
  within 0 255 x → Math_round x = x →
  B2R x = 0%R ∨ ∃ n, (1 <= n <= 255)%Z ∧ x = of_Z n.
Proof.
  intros Wx E. destruct (Math_round_cases x Wx) as [[_ H] | [E0 | (n & Hn & En)]].
  - exact H.
  - left. rewrite <- E, E0. reflexivity.
  - right. exists n. split; [exact Hn | congruence].
Qed.

Lemma Math_round_range x :
  within 0 255 x →
  between 0 255 (Math_round x) ∧ Math_round (Math_round x) = Math_round x.
Proof.
  intros Wx. destruct (Math_round_cases x Wx) as [[E _] | [E | (n & Hn & E)]].
  - rewrite !E. split; [|done].
    rewrite <- B2R_0, <- B2R_255 in Wx.
    by apply (within_between 0 255 x finite_0 finite_255).
  - rewrite E. split; [split; reflexivity|]. apply Leibniz.eqb_spec. reflexivity.
  - rewrite E. apply bytes_between. lia.
Qed.

Lemma scaled_range x : within 0 1 x → within 0 255 (x * 255).
Proof.
  intros [Fx Bx].
  destruct (mul_within x 255 0 255 Fx finite_255 finite_0 finite_255) as (F & B & _).
  { rewrite B2R_0, B2R_255. lra. }
  rewrite B2R_0, B2R_255 in B. done.
Qed.

(** C3: for channels from 0 to 255, the hue, saturation and value that
    [rgb2hsv] computes lie between 0 and 1 before they are scaled (the
    hue after its one conditional wrap), and the three numbers returned
    are integers from 0 to 255. *)
Theorem rgb2hsv_range (r g b : float) :
  between 0 255 r → between 0 255 g → between 0 255 b →
  (∃ H S V, hsv01 r g b = (Some H, S, V) ∧
     between 0 1 H ∧ between 0 1 S ∧ between 0 1 V) ∧
  (∃ h s v, rgb2hsv r g b = [h; s; v] ∧
     Forall (λ c, between 0 255 c ∧ Math_round c = c) [h; s; v]).
Proof.
  intros Hr Hg Hb.
  destruct (hsv01_within r g b Hr Hg Hb) as (H & S & V & E & WH & WS & WV).
  split.
  - exists H, S, V. split; [done|].
    rewrite <- B2R_0, <- B2R_1 in WH, WS, WV.
    split_and!; by apply within_between.
  - unfold rgb2hsv. rewrite E. cbn [fst snd scale_hue].
    eexists _, _, _. split; [reflexivity|].
    repeat first [apply List.Forall_cons | apply List.Forall_nil];
      by apply Math_round_range, scaled_range.
Qed.

Lemma between_within x : between 0 255 x → within 0 255 x.
Proof.
  intros [H1 H2].
  pose proof (within_consts 0 255 x finite_0 finite_255 H1 H2) as H.
  rewrite B2R_0, B2R_255 in H. exact H.
Qed.

(** Dividing by 255 and multiplying by 255 gives an integral number
    from 0 to 255 back under [Math.round]. *)
Lemma round_trip_integral k :
  between 0 255 k → Math_round k = k → Math_round (k / 255 * 255) = k.
Proof.
  intros Hk%between_within Ei.
  destruct (integral_cases k Hk Ei) as [Z | (n & Hn & ->)].
  - destruct Hk as [Fk _].
    destruct (zero_cases k Fk Z) as [-> | ->];
      apply Leibniz.eqb_spec; vm_compute; reflexivity.
  - apply round_bytes. lia.
Qed.

(** *** Greys *)

(** The achromatic case: three equal channels. *)
Lemma hsv01_gray k : between 0 255 k → hsv01 k k k = (Some 0, 0, k / 255).
Proof.
  intros [Fq Bq]%unit_channel.
  destruct (Math_max_3 _ _ _ Fq Fq Fq) as (EM & _).
  destruct (Math_min_3 _ _ _ Fq Fq Fq) as (Em & _).
  assert (Math_max [k / 255; k / 255; k / 255] = k / 255) as HM
    by (destruct EM as [H | [H | H]]; exact H).
  assert (Math_min [k / 255; k / 255; k / 255] = k / 255) as Hm
    by (destruct Em as [H | [H | H]]; exact H).
  destruct (sub_within (k / 255) (k / 255) 0 0 Fq Fq finite_0 finite_0)
    as (Fd & Bd & _).
  { rewrite B2R_0. lra. }
  assert ((k / 255 - k / 255 =? 0) = true) as Ed.
  { apply eqb_R; [exact Fd | exact finite_0 | lra]. }
  unfold hsv01. cbv zeta. rewrite HM, Hm, Ed. reflexivity.
Qed.

(** C5: a grey [k] from 0 to 255 has hue 0, saturation 0 and value
    [round((k / 255) * 255)]; when [k] is integral that value is
    [round(k)], which is [k]. *)
Theorem rgb2hsv_gray (k : float) :
  between 0 255 k →
  rgb2hsv k k k = [0; 0; Math_round (k / 255 * 255)] ∧
  (Math_round k = k → rgb2hsv k k k = [0; 0; Math_round k]).
Proof.
  intros Hk.
  assert (rgb2hsv k k k = [0; 0; Math_round (k / 255 * 255)]) as E.
  { unfold rgb2hsv. rewrite (hsv01_gray k Hk). reflexivity. }
  split; [exact E|]. intros Ei.
  rewrite E, Ei, (round_trip_integral k Hk Ei). reflexivity.
Qed.

(** *** The value channel *)

(** Division by 255 is monotone. *)
Lemma div255_mono x y :
  between 0 255 x → between 0 255 y →
  (B2R x <= B2R y)%R → (B2R (x / 255) <= B2R (y / 255))%R.
Proof.
  intros [Fx Bx]%between_within [Fy By]%between_within Hxy.
  destruct (div_within x 255 0 1 Fx finite_255) as (_ & _ & Rx);
    try first [exact finite_0 | exact finite_1];
    try (rewrite ?B2R_0, ?B2R_1, ?B2R_255; lra).
  destruct (div_within y 255 0 1 Fy finite_255) as (_ & _ & Ry);
    try first [exact finite_0 | exact finite_1];
    try (rewrite ?B2R_0, ?B2R_1, ?B2R_255; lra).
  apply (rounds_mono _ _ _ _ Rx Ry). rewrite B2R_255.
  apply Rmult_le_compat_r; lra.
Qed.

(** The maximum of the scaled channels is the scaled maximum. *)
Lemma Math_max_div255 r g b :
  between 0 255 r → between 0 255 g → between 0 255 b →
  between 0 255 (Math_max [r; g; b]) ∧
  B2R (Math_max [r / 255; g / 255; b / 255]) = B2R (Math_max [r; g; b] / 255).
Proof.
  intros Hr Hg Hb.
  pose proof (between_within r Hr) as [Fr _].
  pose proof (between_within g Hg) as [Fg _].
  pose proof (between_within b Hb) as [Fb _].
  pose proof (unit_channel r Hr) as [Fqr _].
  pose proof (unit_channel g Hg) as [Fqg _].
  pose proof (unit_channel b Hb) as [Fqb _].
  destruct (Math_max_3 r g b Fr Fg Fb) as (EM & M1 & M2 & M3).
  destruct (Math_max_3 _ _ _ Fqr Fqg Fqb) as (EQ & Q1 & Q2 & Q3).
  set (M := Math_max [r; g; b]) in *.
  set (Q := Math_max [r / 255; g / 255; b / 255]) in *.
  assert (between 0 255 M) as HM by (destruct EM as [-> | [-> | ->]]; assumption).
  split; [exact HM|].
  apply Rle_antisym.
  - destruct EQ as [-> | [-> | ->]]; apply div255_mono; assumption.
  - destruct EM as [-> | [-> | ->]]; assumption.
Qed.

(** C2: for channels from 0 to 255 the third component of [rgb2hsv]
    equals [round((max(r, g, b) / 255) * 255)]; when the three channels
    are integral it equals [round(max(r, g, b))].  Equality is the [==]
    of numbers. *)
Theorem rgb2hsv_value_is_max (r g b : float) :
  between 0 255 r → between 0 255 g → between 0 255 b →
  ∃ v, rgb2hsv r g b !! 2%nat = Some v ∧
    (v =? Math_round (Math_max [r; g; b] / 255 * 255)) = true ∧
    (Math_round r = r → Math_round g = g → Math_round b = b →
     (v =? Math_round (Math_max [r; g; b])) = true).
Proof.
  intros Hr Hg Hb.
  exists (Math_round (Math_max [r / 255; g / 255; b / 255] * 255)).
  split; [apply rgb2hsv_value|].
  destruct (Math_max_div255 r g b Hr Hg Hb) as [HM EQ].
  pose proof (between_within r Hr) as [Fr _].
  pose proof (between_within g Hg) as [Fg _].
  pose proof (between_within b Hb) as [Fb _].
  destruct (Math_max_3 r g b Fr Fg Fb) as (EM & _).
  destruct (Math_max_3 _ _ _ (proj1 (unit_channel r Hr))
              (proj1 (unit_channel g Hg)) (proj1 (unit_channel b Hb)))
    as (EQ' & _).
  set (M := Math_max [r; g; b]) in *.
  set (Q := Math_max [r / 255; g / 255; b / 255]) in *.
  assert (within 0 1 Q) as WQ
    by (destruct EQ' as [-> | [-> | ->]]; by apply unit_channel).
  pose proof (unit_channel M HM) as WM.
  pose proof (scaled_range Q WQ) as SQ. pose proof (scaled_range _ WM) as SM.
  assert (B2R (Q * 255) = B2R (M / 255 * 255)) as ES.
  { destruct WQ as [FQ BQ], WM as [FqM BM].
    destruct (mul_within Q 255 0 255 FQ finite_255 finite_0 finite_255)
      as (_ & _ & R1); [rewrite B2R_0, B2R_255; lra|].
    destruct (mul_within (M / 255) 255 0 255 FqM finite_255 finite_0 finite_255)
      as (_ & _ & R2); [rewrite B2R_0, B2R_255; lra|].
    rewrite EQ in R1. exact (rounds_unique _ _ _ R1 R2). }
  pose proof (Math_round_value _ _ (proj1 SQ) (proj1 SM) ES) as EV.
  destruct (Math_round_range _ SQ) as [[F1 _]%between_within _].
  destruct (Math_round_range _ SM) as [[F2 _]%between_within _].
  split.
  - apply eqb_R; assumption.
  - intros Ir Ig Ib.
    assert (Math_round M = M) as IM by (destruct EM as [-> | [-> | ->]]; assumption).
    rewrite IM. pose proof (round_trip_integral M HM IM) as ET.
    apply eqb_R; [exact F1 | by apply between_within | congruence].
Qed.

(** *** [Math.round] never returns 0.5 *)

Lemma B2R_half : (0 < B2R 0.5 < 1)%R.
Proof.
  assert (finite 0.5) as F by reflexivity.
  split.
  - rewrite <- B2R_0. by apply ltb_R.
  - rewrite <- B2R_1. apply ltb_R; [exact F | exact finite_1 | reflexivity].
Qed.

Lemma B2R_opp x : B2R (- x) = (- B2R x)%R.
Proof.
  unfold B2R. rewrite FloatAxioms.opp_spec.
  destruct (Prim2SF x) as [s|s| |s m e]; cbn [SFopp SF2R]; try lra.
  destruct s; cbn [negb]; lra.
Qed.

Lemma of_uint63_value n :
  of_uint63 n = 0 ∨ (1 <= B2R (of_uint63 n))%R.
Proof.
  pose proof (FloatAxioms.of_uint63_spec n) as H.
  pose proof (Uint63.to_Z_bounded n) as Hb.
  destruct (Z.eq_dec (Uint63.to_Z n) 0%Z) as [E|E].
  - left. apply Prim2SF_inj. rewrite H, E. reflexivity.
  - right. destruct (binary_normalize_fl_ok (Uint63.to_Z n) 0%Z) as (y & Hy & Hr).
    rewrite bpow_0, Rmult_1_r in Hy.
    assert (1 <= y)%R as L.
    { pose proof (rounds_fin _ (finite_fin 1 finite_1)) as R1.
      fold (B2R 1) in R1. rewrite B2R_1 in R1.
      apply (rounds_mono _ _ _ _ R1 Hy). apply IZR_le. lia. }
    pose (top := S754_finite false 4503599627370496 11).
    assert (fin top) as Ft by (split; reflexivity).
    assert (y <= SF2R top)%R as U.
    { apply (rounds_mono _ _ _ _ Hy (rounds_fin _ Ft)).
      unfold top. cbn [SF2R]. rewrite Rmult_1_l, bpow_IZR, <- mult_IZR by lia.
      apply IZR_le. change wB with 9223372036854775808%Z in Hb.
      change (2 ^ 11)%Z with 2048%Z. lia. }
    pose proof (fin_lt_overflow _ Ft) as O. apply Rabs_def2 in O.
    destruct Hr as [_ Hr]. { apply Rabs_def1; lra. }
    unfold B2R. rewrite H, Hr. exact L.
Qed.

Lemma of_Z_not_half n : of_Z n ≠ 0.5.
Proof.
  pose proof B2R_half as Hh.
  assert (0 ≠ 0.5) as N0.
  { intros E. apply (f_equal B2R) in E. rewrite B2R_0 in E. lra. }
  intros E. destruct n as [|p|p]; cbn [of_Z] in E.
  - by apply N0.
  - destruct (of_uint63_value (Uint63.of_Z (Zpos p))) as [Z|L].
    + rewrite Z in E. by apply N0.
    + rewrite E in L. lra.
  - apply (f_equal B2R) in E. rewrite B2R_opp in E.
    destruct (of_uint63_value (Uint63.of_Z (Zpos p))) as [Z|L].
    + rewrite Z, B2R_0 in E. lra.
    + lra.
Qed.

(** Whatever its argument, [Math.round] does not return 0.5. *)
Lemma Math_round_not_half y : Math_round y ≠ 0.5.
Proof.
  pose proof B2R_half as Hh.
  unfold Math_round. intros E.
  assert (Prim2SF 0.5 = S754_finite false 4503599627370496 (-53)) as E5
    by reflexivity.
  destruct (Prim2SF y) as [s|s| |s m e] eqn:Ey;
    try (rewrite E, E5 in Ey; discriminate Ey).
  destruct (Z.leb_spec 0 e) as [He|He].
  - rewrite E, E5 in Ey. injection Ey as _ _ Ee. lia.
  - destruct (_ =? 0)%Z.
    + apply (f_equal B2R) in E.
      destruct s; [rewrite B2R_opp in E|]; rewrite B2R_0 in E; lra.
    + by apply of_Z_not_half in E.
Qed.

(** The hue that [rgb2hsv] derives is a result of [Math.round]. *)
Lemma hsba_of_rgba_hue (o : Color) :
  ∃ y, index (hsba_of_rgba o) 0 = VNum (Math_round y).
Proof. eexists. reflexivity. Qed.

(** *** The order of the channel tests *)

(** C6: in the chromatic case the channel tests run in the order
    red, green, blue and the first that equals the maximum decides the
    hue: a red at the maximum gives [del_B - del_G] whatever green and
    blue are, and a green at the maximum under a smaller red gives
    [1/3 + del_R - del_B] whatever blue is. *)
Theorem rgb2hsv_first_maximum_wins (r g b : float) :
  let var_R := r / 255 in
  let var_G := g / 255 in
  let var_B := b / 255 in
  let var_Min := Math_min [var_R; var_G; var_B] in
  let var_Max := Math_max [var_R; var_G; var_B] in
  let del_Max := var_Max - var_Min in
  let del_R := ((var_Max - var_R) / 6 + del_Max / 2) / del_Max in
  let del_G := ((var_Max - var_G) / 6 + del_Max / 2) / del_Max in
  let del_B := ((var_Max - var_B) / 6 + del_Max / 2) / del_Max in
  let hue_from h :=
    rgb2hsv r g b !! 0%nat = Some (Math_round (scale_hue (wrap_hue (Some h)))) in
  (del_Max =? 0) = false →
  ((var_R =? var_Max) = true → hue_from (del_B - del_G)) ∧
  ((var_R =? var_Max) = false → (var_G =? var_Max) = true →
     hue_from (1 / 3 + del_R - del_B)) ∧
  ((var_R =? var_Max) = false → (var_G =? var_Max) = false →
     (var_B =? var_Max) = true → hue_from (2 / 3 + del_G - del_R)).
Proof.
  intros var_R var_G var_B var_Min var_Max del_Max del_R del_G del_B hue_from Hd.
  unfold hue_from, rgb2hsv, hsv01.
  fold var_R var_G var_B. fold var_Min var_Max. fold del_Max.
  fold del_R del_G del_B.
  rewrite Hd. unfold hue_of_max. cbn [fst snd lookup list_lookup].
  split_and!.
  - intros ->. reflexivity.
  - intros -> ->. reflexivity.
  - intros -> -> ->. reflexivity.
Qed.

(** *** Channels that are not numbers *)

Lemma is_nan_nan x : is_nan x = true → x = nan.
Proof.
  unfold is_nan. rewrite FloatAxioms.eqb_spec. intros H.
  apply Prim2SF_inj. change (Prim2SF nan) with S754_nan.
  destruct (Prim2SF x) as [s|s| |s m e]; try reflexivity; exfalso.
  - discriminate H.
  - destruct s; discriminate H.
  - unfold SFeqb, SFcompare in H.
    rewrite Z.compare_refl, Pos.compare_cont_refl in H.
    destruct s; discriminate H.
Qed.

Lemma nan_div_l y : nan / y = nan.
Proof.
  apply Prim2SF_inj. rewrite FloatAxioms.div_spec.
  change (Prim2SF nan) with S754_nan. reflexivity.
Qed.

Lemma nan_mul_l y : nan * y = nan.
Proof.
  apply Prim2SF_inj. rewrite FloatAxioms.mul_spec.
  change (Prim2SF nan) with S754_nan. reflexivity.
Qed.

Lemma nan_sub_l y : nan - y = nan.
Proof.
  apply Prim2SF_inj. rewrite FloatAxioms.sub_spec.
  change (Prim2SF nan) with S754_nan. reflexivity.
Qed.

Lemma eqb_nan_r x : (x =? nan) = false.
Proof.
  rewrite FloatAxioms.eqb_spec. change (Prim2SF nan) with S754_nan.
  by destruct (Prim2SF x).
Qed.

Lemma max2_nan_l a : max2 nan a = nan.
Proof. reflexivity. Qed.

Lemma max2_nan_r a : max2 a nan = nan.
Proof. unfold max2. change (is_nan nan) with true. by rewrite orb_true_r. Qed.

Lemma min2_nan_l a : min2 nan a = nan.
Proof. reflexivity. Qed.

Lemma min2_nan_r a : min2 a nan = nan.
Proof. unfold min2. change (is_nan nan) with true. by rewrite orb_true_r. Qed.

Lemma Math_max_nan x y z :
  x = nan ∨ y = nan ∨ z = nan → Math_max [x; y; z] = nan.
Proof.
  unfold Math_max. cbn [foldl]. intros [-> | [-> | ->]].
  - by rewrite max2_nan_r, !max2_nan_l.
  - by rewrite max2_nan_r, max2_nan_l.
  - by rewrite max2_nan_r.
Qed.

Lemma Math_min_nan x y z :
  x = nan ∨ y = nan ∨ z = nan → Math_min [x; y; z] = nan.
Proof.
  unfold Math_min. cbn [foldl]. intros [-> | [-> | ->]].
  - by rewrite min2_nan_r, !min2_nan_l.
  - by rewrite min2_nan_r, min2_nan_l.
  - by rewrite min2_nan_r.
Qed.

(** X9: when one of the channels is [NaN] (an entry of [rgba] that is
    missing or not a number), [rgb2hsv] returns [NaN] three times: the
    maximum and the minimum are [NaN], no channel test holds, and the
    hue stays [undefined]. *)
Theorem rgb2hsv_nan (r g b : float) :
  is_nan r = true ∨ is_nan g = true ∨ is_nan b = true →
  rgb2hsv r g b = [nan; nan; nan].
Proof.
  intros H.
  assert (r / 255 = nan ∨ g / 255 = nan ∨ b / 255 = nan) as Hq.
  { destruct H as [H | [H | H]]; apply is_nan_nan in H; rewrite H, nan_div_l; auto. }
  unfold rgb2hsv, hsv01. cbv zeta.
  rewrite (Math_max_nan _ _ _ Hq), (Math_min_nan _ _ _ Hq), nan_sub_l.
  change (nan =? 0) with false. cbv iota. unfold hue_of_max.
  rewrite !eqb_nan_r. cbn [fst snd wrap_hue scale_hue].
  rewrite nan_div_l, nan_mul_l. reflexivity.
Qed.

(** *** The chromatic case on the display range *)

(** What the first lines of [rgb2hsv] compute from channels between 0
    and 255. *)
Lemma del_Max_facts (r g b : float) :
  between 0 255 r → between 0 255 g → between 0 255 b →
  let var_R := r / 255 in
  let var_G := g / 255 in
  let var_B := b / 255 in
  let var_Min := Math_min [var_R; var_G; var_B] in
  let var_Max := Math_max [var_R; var_G; var_B] in
  let del_Max := var_Max - var_Min in
  (within 0 1 var_R ∧ within 0 1 var_G ∧ within 0 1 var_B) ∧
  (var_Max = var_R ∨ var_Max = var_G ∨ var_Max = var_B) ∧
  (var_Min = var_R ∨ var_Min = var_G ∨ var_Min = var_B) ∧
  (B2R var_R <= B2R var_Max ∧ B2R var_G <= B2R var_Max ∧
   B2R var_B <= B2R var_Max)%R ∧
  (B2R var_Min <= B2R var_R ∧ B2R var_Min <= B2R var_G ∧
   B2R var_Min <= B2R var_B)%R ∧
  within 0 1 var_Max ∧ within 0 1 var_Min ∧
  finite del_Max ∧ (0 <= B2R del_Max <= B2R var_Max)%R ∧
  rounds (B2R var_Max - B2R var_Min) (B2R del_Max).
Proof.
  intros Hr%unit_channel Hg%unit_channel Hb%unit_channel.
  intros var_R var_G var_B var_Min var_Max del_Max.
  fold var_R in Hr. fold var_G in Hg. fold var_B in Hb.
  pose proof Hr as [FR BR]. pose proof Hg as [FG BG]. pose proof Hb as [FB BB].
  destruct (Math_max_3 var_R var_G var_B FR FG FB) as (EM & M1 & M2 & M3).
  destruct (Math_min_3 var_R var_G var_B FR FG FB) as (Em & m1 & m2 & m3).
  fold var_Max in EM, M1, M2, M3. fold var_Min in Em, m1, m2, m3.
  assert (within 0 1 var_Max) as WM by (destruct EM as [-> | [-> | ->]]; assumption).
  assert (within 0 1 var_Min) as Wm by (destruct Em as [-> | [-> | ->]]; assumption).
  destruct (sub_within var_Max var_Min 0 var_Max (proj1 WM) (proj1 Wm)
              finite_0 (proj1 WM)) as (Fd & Bd & Rd).
  { rewrite B2R_0. destruct WM as [_ ?], Wm as [_ ?]. lra. }
  rewrite B2R_0 in Bd. destruct Bd. split_and!; assumption.
Qed.

(** The saturation of the chromatic case. *)
Lemma rgb2hsv_saturation (r g b : float) :
  let var_Min := Math_min [r / 255; g / 255; b / 255] in
  let var_Max := Math_max [r / 255; g / 255; b / 255] in
  (var_Max - var_Min =? 0) = false →
  rgb2hsv r g b !! 1%nat
    = Some (Math_round ((var_Max - var_Min) / var_Max * 255)).
Proof.
  intros var_Min var_Max Hd. unfold rgb2hsv, hsv01. cbv zeta.
  fold var_Min var_Max. rewrite Hd. reflexivity.
Qed.

(** X10: a colour with a channel at 0 and a channel at 1 or above is fully
    saturated: the saturation that [rgb2hsv] returns is 255. *)
Theorem rgb2hsv_full_saturation (r g b : float) :
  between 0 255 r → between 0 255 g → between 0 255 b →
  (Math_min [r; g; b] =? 0) = true →
  (1 <=? Math_max [r; g; b]) = true →
  rgb2hsv r g b !! 1%nat = Some 255.
Proof.
  intros Hr Hg Hb Hmin Hmax.
  pose proof (between_within r Hr) as [Fr _].
  pose proof (between_within g Hg) as [Fg _].
  pose proof (between_within b Hb) as [Fb _].
  destruct (Math_min_3 r g b Fr Fg Fb) as (Em & _).
  destruct (Math_max_3 r g b Fr Fg Fb) as (EM & _).
  destruct (del_Max_facts r g b Hr Hg Hb)
    as ((WR & WG & WB) & _ & _ & (M1 & M2 & M3) & (m1 & m2 & m3) & WM & Wm & Fd & _ & Rd).
  set (m := Math_min [r; g; b]) in *. set (M := Math_max [r; g; b]) in *.
  set (var_Min := Math_min [r / 255; g / 255; b / 255]) in *.
  set (var_Max := Math_max [r / 255; g / 255; b / 255]) in *.
  assert (between 0 255 m) as Hm by (destruct Em as [-> | [-> | ->]]; assumption).
  assert (between 0 255 M) as HM by (destruct EM as [-> | [-> | ->]]; assumption).
  pose proof (between_within m Hm) as [Fm _].
  pose proof (between_within M HM) as [FM _].
  (* the minimum of the quotients is 0 *)
  assert (B2R m = 0%R) as Vm.
  { apply (eqb_R m 0 Fm finite_0) in Hmin. by rewrite B2R_0 in Hmin. }
  assert (B2R (m / 255) = 0%R) as Vqm.
  { destruct (div_within m 255 0 0 Fm finite_255) as (_ & B & _);
      try exact finite_0; rewrite ?B2R_0, ?B2R_255 in *; lra. }
  assert (B2R var_Min = 0%R) as Vmin.
  { destruct Wm as [_ Bm].
    assert (B2R var_Min <= B2R (m / 255))%R
      by (destruct Em as [-> | [-> | ->]]; assumption).
    lra. }
  (* the maximum of the quotients is positive *)
  assert (0 < B2R var_Max)%R as PM.
  { assert (0 < B2R (1 / 255))%R as P1.
    { rewrite <- B2R_0. apply ltb_R; reflexivity. }
    assert (B2R (1 / 255) <= B2R (M / 255))%R as P2.
    { apply div255_mono; [split; reflexivity | exact HM |].
      apply (leb_R 1 M finite_1 FM). exact Hmax. }
    assert (B2R (M / 255) <= B2R var_Max)%R
      by (destruct EM as [-> | [-> | ->]]; assumption).
    lra. }
  (* so the difference is the maximum, and the ratio is 1 *)
  destruct WM as [FvM BM].
  assert (B2R (var_Max - var_Min) = B2R var_Max) as Vd.
  { rewrite Vmin, Rminus_0_r in Rd.
    exact (rounds_unique _ _ _ Rd (rounds_fin _ (finite_fin _ FvM))). }
  assert ((var_Max - var_Min =? 0) = false) as Ed.
  { destruct (var_Max - var_Min =? 0) eqn:E; [|reflexivity].
    apply (eqb_R _ _ Fd finite_0) in E. rewrite B2R_0 in E. lra. }
  rewrite (rgb2hsv_saturation r g b Ed). fold var_Min var_Max.
  assert ((var_Max - var_Min) / var_Max = 1) as ->.
  { destruct (div_within (var_Max - var_Min) var_Max 1 1 Fd FvM ltac:(lra)
                finite_1 finite_1) as (FS & BS & _).
    - rewrite B2R_1, Vd. split; apply Req_le; field; lra.
    - apply B2R_inj; [exact FS | exact finite_1 | lra |].
      rewrite B2R_1 in BS. lra. }
  reflexivity.
Qed.

(** X11: with green equal to blue and red not below them the hue that
    [rgb2hsv] returns is 0: in the achromatic case by the assignment,
    and otherwise because the red test comes first and the two terms
    of [del_B - del_G] are the same number. *)
Theorem rgb2hsv_red_hue (r g : float) :
  between 0 255 r → between 0 255 g → (g <=? r) = true →
  ∃ h, rgb2hsv r g g !! 0%nat = Some h ∧ (h =? 0) = true.
Proof.
  intros Hr Hg Hgr.
  pose proof (between_within r Hr) as [Fr _].
  pose proof (between_within g Hg) as [Fg _].
  destruct (del_Max_facts r g g Hr Hg Hg)
    as ((WR & WG & _) & EM & _ & (M1 & M2 & _) & (m1 & m2 & _) & WM & Wm & Fd & _ & Rd).
  unfold rgb2hsv, hsv01. cbv zeta.
  set (var_R := r / 255) in *. set (var_G := g / 255) in *.
  set (var_Min := Math_min [var_R; var_G; var_G]) in *.
  set (var_Max := Math_max [var_R; var_G; var_G]) in *.
  set (del_Max := var_Max - var_Min) in *.
  destruct (del_Max =? 0) eqn:Ed.
  { eexists. split; [reflexivity|]. reflexivity. }
  assert (B2R var_G <= B2R var_R)%R as Hle.
  { apply div255_mono; [exact Hg | exact Hr |]. by apply (leb_R g r Fg Fr). }
  assert ((var_R =? var_Max) = true) as ER.
  { apply eqb_R; [exact (proj1 WR) | exact (proj1 WM) |].
    destruct EM as [-> | [-> | ->]]; lra. }
  assert (0 < B2R del_Max)%R as Pd.
  { assert (0 <= B2R del_Max)%R.
    { pose proof (rounds_nonneg _ _ Rd). lra. }
    destruct (Req_dec (B2R del_Max) 0) as [E|N]; [|lra].
    rewrite <- B2R_0 in E. apply (eqb_R _ _ Fd finite_0) in E. congruence. }
  pose proof (del_X_range var_Max var_Min var_G del_Max WM Wm (proj1 WG)
                ltac:(lra) Fd Pd Rd) as [FX _].
  set (del_G := ((var_Max - var_G) / 6 + del_Max / 2) / del_Max) in *.
  unfold hue_of_max. rewrite ER. cbn [fst snd].
  destruct (sub_within del_G del_G 0 0 FX FX finite_0 finite_0) as (FH & BH & _).
  { rewrite B2R_0. lra. }
  rewrite B2R_0 in BH.
  assert (wrap_hue (Some (del_G - del_G)) = Some (del_G - del_G)) as ->.
  { unfold wrap_hue.
    destruct (del_G - del_G <? 0) eqn:E1.
    { apply (ltb_R _ _ FH finite_0) in E1. rewrite B2R_0 in E1. lra. }
    destruct (1 <? del_G - del_G) eqn:E2; [|reflexivity].
    apply (ltb_R _ _ finite_1 FH) in E2. rewrite B2R_1 in E2. lra. }
  cbn [scale_hue lookup list_lookup].
  destruct (mul_within (del_G - del_G) 255 0 0 FH finite_255 finite_0 finite_0)
    as (FS & BS & _).
  { rewrite B2R_0. assert (B2R (del_G - del_G) = 0%R) as -> by lra. lra. }
  rewrite B2R_0 in BS.
  eexists. split; [reflexivity|].
  rewrite (Math_round_zero _ FS ltac:(lra)).
  apply eqb_R; [exact FS | exact finite_0 | rewrite B2R_0; lra].
Qed.

(** The three numbers that [rgb2hsv] returns for channels between 0
    and 255 are integral and between 0 and 255. *)
Lemma rgb2hsv_integers (r g b : float) :
  between 0 255 r → between 0 255 g → between 0 255 b →
  ∃ h s v, rgb2hsv r g b = [h; s; v] ∧
    (between 0 255 h ∧ Math_round h = h) ∧
    (between 0 255 s ∧ Math_round s = s) ∧
    (between 0 255 v ∧ Math_round v = v).
Proof.
  intros Hr Hg Hb.
  destruct (hsv01_within r g b Hr Hg Hb) as (H & S & V & E & WH & WS & WV).
  unfold rgb2hsv. rewrite E. cbn [fst snd scale_hue].
  eexists _, _, _. split; [reflexivity|].
  split_and!; by apply Math_round_range, scaled_range.
Qed.

(** *** The hue of the primaries *)

Lemma finite_3 : finite 3. Proof. reflexivity. Qed.
Lemma finite_256 : finite 256. Proof. reflexivity. Qed.

Lemma B2R_3 : B2R 3 = 3%R.
Proof.
  unfold B2R. change (Prim2SF 3) with (S754_finite false 6755399441055744 (-51)).
  cbn [SF2R]. rewrite (value_of_int _ 51 3) by done. lra.
Qed.

Lemma B2R_256 : B2R 256 = 256%R.
Proof.
  unfold B2R. change (Prim2SF 256) with (S754_finite false 4503599627370496 (-44)).
  cbn [SF2R]. rewrite (value_of_int _ 44 256) by done. lra.
Qed.

Lemma Rabs_le_both z B : (Rabs z <= B)%R → (- B <= z <= B)%R.
Proof. unfold Rabs. destruct (Rcase_abs z); lra. Qed.

(** On the reals from -256 to 256 rounding moves a number by less
    than 1/4000. *)
Lemma rounds_near x y :
  rounds x y → (-256 <= x <= 256)%R → (x - / 4000 <= y <= x + / 4000)%R.
Proof.
  intros H Hx. apply rounds_err in H.
  assert (bpow (-20) = / 1048576)%R as E20.
  { pose proof (bpow_add (-20) 20) as E. change (-20 + 20)%Z with 0%Z in E.
    rewrite bpow_0, (bpow_IZR 20) in E by lia.
    change (2 ^ 20)%Z with 1048576%Z in E.
    apply Rmult_eq_reg_r with 1048576%R; [|lra]. rewrite <- E. field. }
  pose proof (bpow_le (-53) (-20) ltac:(lia)) as H1.
  pose proof (bpow_le (-1075) (-20) ltac:(lia)) as H2.
  pose proof (bpow_pos (-53)) as P1.
  assert (Rabs x <= 256)%R as Ha by (apply Rabs_le; lra).
  pose proof (Rabs_pos x) as Hp.
  assert (Rmax (Rabs x * bpow (-53)) (bpow (-1075)) <= / 4000)%R as Hm.
  { apply Rmax_lub; [|lra]. 
    apply Rle_trans with (256 * bpow (-20))%R; [|lra].
    apply Rmult_le_compat; lra. }
  apply Rabs_le_both in H. lra.
Qed.

(** [Math.round] of a number less than one half away from an integer
    from 1 to 255 is that integer. *)
Lemma Math_round_near y n :
  within 0 255 y → (1 <= n <= 255)%Z →
  (IZR n - / 2 <= B2R y < IZR n + / 2)%R →
  Math_round y = of_Z n.
Proof.
  intros [Fy By] Hn Hv. pose proof Fy as Fy'.
  assert (B2R y = SF2R (Prim2SF y)) as EB by reflexivity.
  assert (1 <= IZR n)%R as Hn1 by (apply IZR_le; lia).
  unfold Math_round. unfold finite in Fy.
  destruct (Prim2SF y) as [s|s| |s m e]; try discriminate Fy.
  { cbn [SF2R] in EB. lra. }
  cbn [SF2R] in EB. pose proof (pos_value_pos m e) as Pv.
  destruct s; [lra|]. rewrite Rmult_1_l in EB.
  destruct (Z.leb_spec 0 e) as [He|He].
  - assert (B2R y = IZR (Zpos m * 2 ^ e)) as Ev
      by (rewrite EB, mult_IZR, <- bpow_IZR by lia; reflexivity).
    assert (Zpos m * 2 ^ e = n)%Z as En.
    { assert (Zpos m * 2 ^ e < n + 1)%Z
        by (apply lt_IZR; rewrite plus_IZR; lra).
      assert (n - 1 < Zpos m * 2 ^ e)%Z
        by (apply lt_IZR; rewrite minus_IZR; lra).
      lia. }
    destruct (B2R_of_Z n) as [Fn Vn]; [lia|].
    apply B2R_inj; [exact Fy' | exact Fn | congruence | lra].
  - assert (0 < 2 ^ (- e))%Z as Hp by (apply Z.pow_pos_nonneg; lia).
    assert (2 ^ (1 - e) = 2 * 2 ^ (- e))%Z as Hp2.
    { replace (1 - e)%Z with (Z.succ (- e)) by lia. apply Z.pow_succ_r. lia. }
    assert (IZR (Zpos m) = B2R y * IZR (2 ^ (- e)))%R as Em.
    { rewrite EB, <- bpow_IZR, Rmult_assoc, <- bpow_add by lia.
      replace (e + - e)%Z with 0%Z by lia. rewrite bpow_0. lra. }
    assert (0 < IZR (2 ^ (- e)))%R as HpR by (apply IZR_lt; lia).
    assert ((2 * n - 1) * 2 ^ (- e) <= 2 * Zpos m)%Z as L.
    { apply le_IZR. rewrite !mult_IZR, minus_IZR, mult_IZR, Em. nra. }
    assert (2 * Zpos m < (2 * n + 1) * 2 ^ (- e))%Z as U.
    { apply lt_IZR. rewrite !mult_IZR, plus_IZR, mult_IZR, Em. nra. }
    set (N := ((2 * Zpos m + 2 ^ (- e)) / 2 ^ (1 - e))%Z).
    assert (N = n) as ->.
    { unfold N. rewrite Hp2.
      assert (n <= (2 * Zpos m + 2 ^ (- e)) / (2 * 2 ^ (- e)))%Z
        by (apply Z.div_le_lower_bound; lia).
      assert ((2 * Zpos m + 2 ^ (- e)) / (2 * 2 ^ (- e)) < n + 1)%Z
        by (apply Z.div_lt_upper_bound; lia).
      lia. }
    destruct (Z.eqb_spec n 0) as [E0|_]; [lia | reflexivity].
Qed.

(** The hue [c + x - x] of a branch whose two terms are the same
    number [x], for [c] near [n / 255]: the wrap leaves it, and scaled
    and rounded it is [n]. *)
Lemma axis_hue (c x : float) (n : Z) :
  finite c → within 0 1 x → (1 <= n <= 254)%Z →
  (IZR n / 255 - / 4000 <= B2R c <= IZR n / 255 + / 4000)%R →
  Math_round (scale_hue (wrap_hue (Some (c + x - x)))) = of_Z n.
Proof.
  intros Fc [Fx Bx] Hn Hc.
  assert (1 <= IZR n <= 254)%R as HnR by (split; apply IZR_le; lia).
  destruct (add_within c x 0 2 Fc Fx finite_0 finite_2) as (Fa & Ba & Ra).
  { rewrite B2R_0, B2R_2. lra. }
  rewrite B2R_0, B2R_2 in Ba. apply rounds_near in Ra; [|lra].
  destruct (sub_within (c + x) x 0 1 Fa Fx finite_0 finite_1) as (Fh & Bh & Rh).
  { rewrite B2R_0, B2R_1. lra. }
  rewrite B2R_0, B2R_1 in Bh. apply rounds_near in Rh; [|lra].
  set (h := c + x - x) in *.
  assert (wrap_hue (Some h) = Some h) as ->.
  { unfold wrap_hue.
    destruct (h <? 0) eqn:E1.
    { apply (ltb_R _ _ Fh finite_0) in E1. rewrite B2R_0 in E1. lra. }
    destruct (1 <? h) eqn:E2; [|reflexivity].
    apply (ltb_R _ _ finite_1 Fh) in E2. rewrite B2R_1 in E2. lra. }
  cbn [scale_hue].
  destruct (mul_within h 255 0 255 Fh finite_255 finite_0 finite_255)
    as (Fp & Bp & Rp).
  { rewrite B2R_0, B2R_255. lra. }
  rewrite B2R_0, B2R_255 in Bp. rewrite B2R_255 in Rp.
  apply rounds_near in Rp; [|lra].
  apply Math_round_near; [by split | lia | lra].
Qed.

(** One third and two thirds as [rgb2hsv] computes them. *)
Lemma thirds_near :
  (finite (1 / 3) ∧ (85 / 255 - / 4000 <= B2R (1 / 3) <= 85 / 255 + / 4000)%R) ∧
  (finite (2 / 3) ∧ (170 / 255 - / 4000 <= B2R (2 / 3) <= 170 / 255 + / 4000)%R).
Proof.
  split.
  - destruct (div_within 1 3 0 1 finite_1 finite_3) as (F & _ & R);
      try first [exact finite_0 | exact finite_1];
      try (rewrite ?B2R_0, ?B2R_1, ?B2R_3; lra).
    rewrite B2R_1, B2R_3 in R. apply rounds_near in R; [|lra].
    split; [exact F | lra].
  - destruct (div_within 2 3 0 1 finite_2 finite_3) as (F & _ & R);
      try first [exact finite_0 | exact finite_1];
      try (rewrite ?B2R_0, ?B2R_1, ?B2R_2, ?B2R_3; lra).
    rewrite B2R_2, B2R_3 in R. apply rounds_near in R; [|lra].
    split; [exact F | lra].
Qed.

(** A channel at least 1 above another stays above it after the
    division by 255, by more than 3/1000. *)
Lemma div255_gap x y :
  between 0 255 x → between 0 255 y → (x + 1 <=? y) = true →
  (B2R (x / 255) + 3 / 1000 <= B2R (y / 255))%R.
Proof.
  intros [Fx Bx]%between_within [Fy By]%between_within H.
  destruct (add_within x 1 0 256 Fx finite_1 finite_0 finite_256) as (Fs & _ & Rs).
  { rewrite B2R_0, B2R_1, B2R_256. lra. }
  rewrite B2R_1 in Rs. apply rounds_near in Rs; [|lra].
  apply (leb_R _ _ Fs Fy) in H.
  destruct (div_within x 255 0 1 Fx finite_255) as (_ & _ & Rx);
    try first [exact finite_0 | exact finite_1];
    try (rewrite ?B2R_0, ?B2R_1, ?B2R_255; lra).
  destruct (div_within y 255 0 1 Fy finite_255) as (_ & _ & Ry);
    try first [exact finite_0 | exact finite_1];
    try (rewrite ?B2R_0, ?B2R_1, ?B2R_255; lra).
  rewrite B2R_255 in Rx, Ry.
  apply rounds_near in Rx; [|lra]. apply rounds_near in Ry; [|lra]. lra.
Qed.

(** The values of the maximum and the minimum of two equal channels
    and a larger one. *)
Lemma max_min_of_gap (a b c lo hi : float) :
  within 0 1 lo → within 0 1 hi → (B2R lo < B2R hi)%R →
  (a = lo ∨ a = hi) → (b = lo ∨ b = hi) → (c = lo ∨ c = hi) →
  (a = hi ∨ b = hi ∨ c = hi) → (a = lo ∨ b = lo ∨ c = lo) →
  B2R (Math_max [a; b; c]) = B2R hi ∧ B2R (Math_min [a; b; c]) = B2R lo.
Proof.
  intros [Fl _] [Fh _] Hlt Ha Hb Hc Hhi Hlo.
  assert (finite a) as Fa by (destruct Ha as [-> | ->]; assumption).
  assert (finite b) as Fb by (destruct Hb as [-> | ->]; assumption).
  assert (finite c) as Fc by (destruct Hc as [-> | ->]; assumption).
  destruct (Math_max_3 a b c Fa Fb Fc) as (EM & M1 & M2 & M3).
  destruct (Math_min_3 a b c Fa Fb Fc) as (Em & m1 & m2 & m3).
  set (M := Math_max [a; b; c]) in *. set (m := Math_min [a; b; c]) in *.
  assert (B2R M = B2R lo ∨ B2R M = B2R hi) as HM.
  { destruct EM as [-> | [-> | ->]];
      [destruct Ha as [-> | ->] | destruct Hb as [-> | ->]
      | destruct Hc as [-> | ->]]; auto. }
  assert (B2R m = B2R lo ∨ B2R m = B2R hi) as Hm.
  { destruct Em as [-> | [-> | ->]];
      [destruct Ha as [-> | ->] | destruct Hb as [-> | ->]
      | destruct Hc as [-> | ->]]; auto. }
  assert (B2R hi <= B2R M)%R by (destruct Hhi as [E | [E | E]]; rewrite <- E; assumption).
  assert (B2R m <= B2R lo)%R by (destruct Hlo as [E | [E | E]]; rewrite <- E; assumption).
  split; [destruct HM | destruct Hm]; lra.
Qed.

(** X12: with red equal to blue and green at least 1 above them the hue
    that [rgb2hsv] returns is 85, and with red equal to green and blue
    at least 1 above them it is 170: the two terms [del_R] and [del_B]
    (or [del_G] and [del_R]) are the same number, and what the
    additions and the scaling lose is far less than one half. *)
Theorem rgb2hsv_green_blue_hue (x y : float) :
  between 0 255 x → between 0 255 y → (x + 1 <=? y) = true →
  rgb2hsv x y x !! 0%nat = Some 85 ∧ rgb2hsv x x y !! 0%nat = Some 170.
Proof.
  intros Hx Hy Hgap.
  pose proof (div255_gap x y Hx Hy Hgap) as Gap.
  pose proof (unit_channel x Hx) as Wx. pose proof (unit_channel y Hy) as Wy.
  destruct thirds_near as [[F13 N13] [F23 N23]].
  assert (of_Z 85 = 85) as E85 by (apply Leibniz.eqb_spec; reflexivity).
  assert (of_Z 170 = 170) as E170 by (apply Leibniz.eqb_spec; reflexivity).
  split.
  - destruct (del_Max_facts x y x Hx Hy Hx)
      as (_ & _ & _ & _ & (m1 & m2 & _) & WM & Wm & Fd & _ & Rd).
    destruct (max_min_of_gap (x / 255) (y / 255) (x / 255) (x / 255) (y / 255)
                Wx Wy ltac:(lra)) as [VM Vm]; auto.
    unfold rgb2hsv, hsv01. cbv zeta.
    set (var_R := x / 255) in *. set (var_G := y / 255) in *.
    set (var_Min := Math_min [var_R; var_G; var_R]) in *.
    set (var_Max := Math_max [var_R; var_G; var_R]) in *.
    set (del_Max := var_Max - var_Min) in *.
    apply rounds_near in Rd as Nd; [|destruct WM as [_ ?], Wm as [_ ?]; lra].
    assert (0 < B2R del_Max)%R as Pd by lra.
    assert ((del_Max =? 0) = false) as ->.
    { destruct (del_Max =? 0) eqn:E; [|reflexivity].
      apply (eqb_R _ _ Fd finite_0) in E. rewrite B2R_0 in E. lra. }
    assert ((var_R =? var_Max) = false) as ER.
    { destruct (var_R =? var_Max) eqn:E; [|reflexivity].
      apply (eqb_R _ _ (proj1 Wx) (proj1 WM)) in E. lra. }
    assert ((var_G =? var_Max) = true) as EG.
    { apply eqb_R; [exact (proj1 Wy) | exact (proj1 WM) | lra]. }
    unfold hue_of_max. rewrite ER, EG. cbn [fst snd lookup list_lookup].
    pose proof (del_X_range var_Max var_Min var_R del_Max WM Wm (proj1 Wx)
                  ltac:(lra) Fd Pd Rd) as WX.
    rewrite (axis_hue (1 / 3) _ 85 F13 WX ltac:(lia) N13), E85. reflexivity.
  - destruct (del_Max_facts x x y Hx Hx Hy)
      as (_ & _ & _ & _ & (m1 & _ & m3) & WM & Wm & Fd & _ & Rd).
    destruct (max_min_of_gap (x / 255) (x / 255) (y / 255) (x / 255) (y / 255)
                Wx Wy ltac:(lra)) as [VM Vm]; auto.
    unfold rgb2hsv, hsv01. cbv zeta.
    set (var_R := x / 255) in *. set (var_B := y / 255) in *.
    set (var_Min := Math_min [var_R; var_R; var_B]) in *.
    set (var_Max := Math_max [var_R; var_R; var_B]) in *.
    set (del_Max := var_Max - var_Min) in *.
    apply rounds_near in Rd as Nd; [|destruct WM as [_ ?], Wm as [_ ?]; lra].
    assert (0 < B2R del_Max)%R as Pd by lra.
    assert ((del_Max =? 0) = false) as ->.
    { destruct (del_Max =? 0) eqn:E; [|reflexivity].
      apply (eqb_R _ _ Fd finite_0) in E. rewrite B2R_0 in E. lra. }
    assert ((var_R =? var_Max) = false) as ER.
    { destruct (var_R =? var_Max) eqn:E; [|reflexivity].
      apply (eqb_R _ _ (proj1 Wx) (proj1 WM)) in E. lra. }
    assert ((var_B =? var_Max) = true) as EB.
    { apply eqb_R; [exact (proj1 Wy) | exact (proj1 WM) | lra]. }
    unfold hue_of_max. rewrite ER, EB. cbn [fst snd lookup list_lookup].
    pose proof (del_X_range var_Max var_Min var_R del_Max WM Wm (proj1 Wx)
                  ltac:(lra) Fd Pd Rd) as WX.
    rewrite (axis_hue (2 / 3) _ 170 F23 WX ltac:(lia) N23), E170. reflexivity.
Qed.

(** *** The order of the channels *)

(** The saturation of the achromatic case. *)
Lemma rgb2hsv_saturation_gray (r g b : float) :
  let var_Min := Math_min [r / 255; g / 255; b / 255] in
  let var_Max := Math_max [r / 255; g / 255; b / 255] in
  (var_Max - var_Min =? 0) = true →
  rgb2hsv r g b !! 1%nat = Some (Math_round (0 * 255)).
Proof.
  intros var_Min var_Max Hd. unfold rgb2hsv, hsv01. cbv zeta.
  fold var_Min var_Max. rewrite Hd. reflexivity.
Qed.

(** Saturation and value are decided by the values of the largest and
    of the smallest scaled channel. *)
Lemma sat_val_by_values (r g b r' g' b' : float) :
  between 0 255 r → between 0 255 g → between 0 255 b →
  between 0 255 r' → between 0 255 g' → between 0 255 b' →
  B2R (Math_max [r / 255; g / 255; b / 255])
    = B2R (Math_max [r' / 255; g' / 255; b' / 255]) →
  B2R (Math_min [r / 255; g / 255; b / 255])
    = B2R (Math_min [r' / 255; g' / 255; b' / 255]) →
  ∃ s v s' v',
    rgb2hsv r g b !! 1%nat = Some s ∧ rgb2hsv r g b !! 2%nat = Some v ∧
    rgb2hsv r' g' b' !! 1%nat = Some s' ∧ rgb2hsv r' g' b' !! 2%nat = Some v' ∧
    (s =? s') = true ∧ (v =? v') = true.
Proof.
  intros Hr Hg Hb Hr' Hg' Hb' EM Em.
  destruct (del_Max_facts r g b Hr Hg Hb)
    as (_ & _ & _ & _ & _ & WM & Wm & Fd & Bd & Rd).
  destruct (del_Max_facts r' g' b' Hr' Hg' Hb')
    as (_ & _ & _ & _ & _ & WM' & Wm' & Fd' & Bd' & Rd').
  set (var_Max := Math_max [r / 255; g / 255; b / 255]) in *.
  set (var_Min := Math_min [r / 255; g / 255; b / 255]) in *.
  set (var_Max' := Math_max [r' / 255; g' / 255; b' / 255]) in *.
  set (var_Min' := Math_min [r' / 255; g' / 255; b' / 255]) in *.
  assert (B2R (var_Max - var_Min) = B2R (var_Max' - var_Min')) as Ed.
  { rewrite EM, Em in Rd. exact (rounds_unique _ _ _ Rd Rd'). }
  (* the value *)
  assert (∃ v v', rgb2hsv r g b !! 2%nat = Some v ∧
            rgb2hsv r' g' b' !! 2%nat = Some v' ∧ (v =? v') = true)
    as (v & v' & Hv & Hv' & Evv).
  { eexists _, _. split; [apply rgb2hsv_value|]. split; [apply rgb2hsv_value|].
    fold var_Max var_Max'.
    pose proof (scaled_range _ WM) as SM. pose proof (scaled_range _ WM') as SM'.
    assert (B2R (var_Max * 255) = B2R (var_Max' * 255)) as ES.
    { destruct WM as [FM BM], WM' as [FM' BM'].
      destruct (mul_within var_Max 255 0 255 FM finite_255 finite_0 finite_255)
        as (_ & _ & R1); [rewrite B2R_0, B2R_255; lra|].
      destruct (mul_within var_Max' 255 0 255 FM' finite_255 finite_0 finite_255)
        as (_ & _ & R2); [rewrite B2R_0, B2R_255; lra|].
      rewrite EM in R1. exact (rounds_unique _ _ _ R1 R2). }
    destruct (Math_round_range _ SM) as [[F1 _]%between_within _].
    destruct (Math_round_range _ SM') as [[F2 _]%between_within _].
    apply eqb_R; [exact F1 | exact F2 |].
    exact (Math_round_value _ _ (proj1 SM) (proj1 SM') ES). }
  exists (default 0 (rgb2hsv r g b !! 1%nat)), v,
         (default 0 (rgb2hsv r' g' b' !! 1%nat)), v'.
  split; [reflexivity|]. split; [exact Hv|].
  split; [reflexivity|]. split; [exact Hv'|]. split; [|exact Evv].
  destruct (var_Max - var_Min =? 0) eqn:E0.
  - assert ((var_Max' - var_Min' =? 0) = true) as E0'.
    { apply (eqb_R _ _ Fd finite_0) in E0.
      apply (eqb_R _ _ Fd' finite_0). congruence. }
    rewrite (rgb2hsv_saturation_gray r g b E0),
      (rgb2hsv_saturation_gray r' g' b' E0').
    reflexivity.
  - assert ((var_Max' - var_Min' =? 0) = false) as E0'.
    { destruct (var_Max' - var_Min' =? 0) eqn:E; [|reflexivity].
      apply (eqb_R _ _ Fd' finite_0) in E.
      assert (B2R (var_Max - var_Min) = B2R 0) as E' by congruence.
      apply (eqb_R _ _ Fd finite_0) in E'. congruence. }
    rewrite (rgb2hsv_saturation r g b E0), (rgb2hsv_saturation r' g' b' E0').
    fold var_Max var_Min var_Max' var_Min'. cbn [default].
    assert (0 < B2R (var_Max - var_Min))%R as Pd.
    { destruct (Req_dec (B2R (var_Max - var_Min)) 0) as [E|N]; [|lra].
      rewrite <- B2R_0 in E. apply (eqb_R _ _ Fd finite_0) in E. congruence. }
    destruct WM as [FM BM], WM' as [FM' BM'].
    destruct (div_within (var_Max - var_Min) var_Max 0 1 Fd FM ltac:(lra)
                finite_0 finite_1) as (FS & BS & RS).
    { rewrite B2R_0, B2R_1. apply ratio_01; lra. }
    destruct (div_within (var_Max' - var_Min') var_Max' 0 1 Fd' FM' ltac:(lra)
                finite_0 finite_1) as (FS' & BS' & RS').
    { rewrite B2R_0, B2R_1. apply ratio_01; lra. }
    rewrite B2R_0, B2R_1 in BS, BS'.
    assert (B2R ((var_Max - var_Min) / var_Max)
            = B2R ((var_Max' - var_Min') / var_Max')) as ESat.
    { rewrite Ed, EM in RS. exact (rounds_unique _ _ _ RS RS'). }
    pose proof (scaled_range _ (conj FS BS)) as SS.
    pose proof (scaled_range _ (conj FS' BS')) as SS'.
    assert (B2R ((var_Max - var_Min) / var_Max * 255)
            = B2R ((var_Max' - var_Min') / var_Max' * 255)) as ES.
    { destruct (mul_within _ 255 0 255 FS finite_255 finite_0 finite_255)
        as (_ & _ & R1); [rewrite B2R_0, B2R_255; lra|].
      destruct (mul_within _ 255 0 255 FS' finite_255 finite_0 finite_255)
        as (_ & _ & R2); [rewrite B2R_0, B2R_255; lra|].
      rewrite ESat in R1. exact (rounds_unique _ _ _ R1 R2). }
    destruct (Math_round_range _ SS) as [[F1 _]%between_within _].
    destruct (Math_round_range _ SS') as [[F2 _]%between_within _].
    apply eqb_R; [exact F1 | exact F2 |].
    exact (Math_round_value _ _ (proj1 SS) (proj1 SS') ES).
Qed.

(** The value of the maximum of three finite numbers: the one among
    them that none exceeds. *)
Lemma Math_max_value (a b c : float) (v : R) :
  finite a → finite b → finite c →
  (v = B2R a ∨ v = B2R b ∨ v = B2R c) →
  (B2R a <= v)%R → (B2R b <= v)%R → (B2R c <= v)%R →
  B2R (Math_max [a; b; c]) = v.
Proof.
  intros Fa Fb Fc Hv Ha Hb Hc.
  destruct (Math_max_3 a b c Fa Fb Fc) as (EM & M1 & M2 & M3).
  apply Rle_antisym.
  - destruct EM as [-> | [-> | ->]]; assumption.
  - destruct Hv as [-> | [-> | ->]]; assumption.
Qed.

Lemma Math_min_value (a b c : float) (v : R) :
  finite a → finite b → finite c →
  (v = B2R a ∨ v = B2R b ∨ v = B2R c) →
  (v <= B2R a)%R → (v <= B2R b)%R → (v <= B2R c)%R →
  B2R (Math_min [a; b; c]) = v.
Proof.
  intros Fa Fb Fc Hv Ha Hb Hc.
  destruct (Math_min_3 a b c Fa Fb Fc) as (Em & m1 & m2 & m3).
  apply Rle_antisym.
  - destruct Hv as [-> | [-> | ->]]; assumption.
  - destruct Em as [-> | [-> | ->]]; assumption.
Qed.

(** X13: for channels between 0 and 255 the saturation and the value
    that [rgb2hsv] returns do not depend on which channel is which:
    exchanging red and green, or green and blue, leaves both as they
    are (as numbers; the hue does change). *)
Theorem rgb2hsv_channel_order (r g b : float) :
  between 0 255 r → between 0 255 g → between 0 255 b →
  ∃ s v s1 v1 s2 v2,
    rgb2hsv r g b !! 1%nat = Some s ∧ rgb2hsv r g b !! 2%nat = Some v ∧
    rgb2hsv g r b !! 1%nat = Some s1 ∧ rgb2hsv g r b !! 2%nat = Some v1 ∧
    rgb2hsv r b g !! 1%nat = Some s2 ∧ rgb2hsv r b g !! 2%nat = Some v2 ∧
    (s =? s1) = true ∧ (v =? v1) = true ∧
    (s =? s2) = true ∧ (v =? v2) = true.
Proof.
  intros Hr Hg Hb.
  pose proof (unit_channel r Hr) as [FR _].
  pose proof (unit_channel g Hg) as [FG _].
  pose proof (unit_channel b Hb) as [FB _].
  destruct (Math_max_3 _ _ _ FR FG FB) as (EM & M1 & M2 & M3).
  destruct (Math_min_3 _ _ _ FR FG FB) as (Em & m1 & m2 & m3).
  destruct (sat_val_by_values r g b g r b Hr Hg Hb Hg Hr Hb)
    as (s & v & s1 & v1 & Hs & Hv & Hs1 & Hv1 & Es1 & Ev1).
  { symmetry. apply Math_max_value; try assumption.
    destruct EM as [-> | [-> | ->]]; auto. }
  { symmetry. apply Math_min_value; try assumption.
    destruct Em as [-> | [-> | ->]]; auto. }
  destruct (sat_val_by_values r g b r b g Hr Hg Hb Hr Hb Hg)
    as (s' & v' & s2 & v2 & Hs' & Hv' & Hs2 & Hv2 & Es2 & Ev2).
  { symmetry. apply Math_max_value; try assumption.
    destruct EM as [-> | [-> | ->]]; auto. }
  { symmetry. apply Math_min_value; try assumption.
    destruct Em as [-> | [-> | ->]]; auto. }
  assert (s' = s) as -> by congruence. assert (v' = v) as -> by congruence.
  exists s, v, s1, v1, s2, v2. split_and!; assumption.
Qed.

End Rgb2hsvFacts.


(** ** The accessors on the display range *)

Section ColorRanges.

Import Num.
Local Open Scope float_scope.

Variable getNormalizedColor : P5 → list val → list float.
Variable getColorString : P5 → list float → string.

(** X14: when the range mapping gives a colour built in RGB mode red,
    green and blue between 0 and 255, then [hue], [saturation] and
    [brightness] of that colour each return an integral number between
    0 and 255, whatever the colour mode is when they are called. *)
Theorem hsb_accessor_range this this' f args w (r g b a : float) :
  isRGB this = true → reads_hsba f = true →
  getNormalizedColor this (color_channels this args) = [r; g; b; a] →
  between 0 255 r → between 0 255 g → between 0 255 b →
  ∃ l w1 x w2,
    color getNormalizedColor getColorString this args w = Returns (VObj l) w1 ∧
    call getNormalizedColor getColorString this' f (VObj l) w1
      = Returns (VNum x) w2 ∧
    between 0 255 x ∧ Math_round x = x.
Proof.
  intros Hm Hf HN Hr Hg Hb.
  destruct (rgb2hsv_integers r g b Hr Hg Hb) as (h & s & v & E & Ph & Ps & Pv).
  pose (o := new_color getNormalizedColor getColorString this args).
  assert (hsba o = None) as Ho by (unfold o, new_color; cbn [hsba]; by rewrite Hm).
  assert (hsba_of_rgba o = [VNum h; VNum s; VNum v; VNum a]) as Et.
  { unfold hsba_of_rgba, o, new_color. cbn [rgba]. rewrite HN.
    change (rgb2hsv (number_at [r; g; b; a] 0) (number_at [r; g; b; a] 1)
              (number_at [r; g; b; a] 2)) with (rgb2hsv r g b).
    rewrite E. reflexivity. }
  assert (∃ x, index (hsba_of_rgba o) (slot f) = VNum x ∧
               between 0 255 x ∧ Math_round x = x) as (x & Ex & Px).
  { rewrite Et. destruct f; try discriminate Hf;
      eexists; (split; [reflexivity | assumption]). }
  exists (fresh (dom (heap w))),
         (mkWorld (<[fresh (dom (heap w)) := o]> (heap w)) (conversions w)), x.
  eexists. split; [reflexivity|]. split; [|exact Px].
  rewrite (call_on getNormalizedColor getColorString this' f _ o);
    [|apply lookup_insert_eq | reflexivity].
  rewrite Hf, Ho, Ex. reflexivity.
Qed.

End ColorRanges.

(** ** Worked cases *)

Section Cases.

Import Num.
Local Open Scope float_scope.

(** Two closed lists of numbers differ when [same_numbers] says so. *)
Local Ltac numbers_differ H l :=
  apply (f_equal (same_numbers l)) in H; vm_compute in H; discriminate H.

(** C2 fails just below one half: the value channel of
    [rgb2hsv(0.49999999999999994, 0, 0)] is 1, because dividing by 255
    and multiplying by 255 gives 0.5, while the rounded maximum is 0. *)
Lemma rgb2hsv_value_below_half :
  between 0 255 below_half ∧ between 0 255 0 ∧
  rgb2hsv below_half 0 0 = [0; 255; 1] ∧
  Math_round (Math_max [below_half; 0; 0]) = 0 ∧
  rgb2hsv below_half 0 0 !! 2%nat
    ≠ Some (Math_round (Math_max [below_half; 0; 0])).
Proof.
  split_and!.
  - vm_compute. split; reflexivity.
  - vm_compute. split; reflexivity.
  - apply same_numbers_eq. vm_compute. reflexivity.
  - apply Leibniz.eqb_spec. vm_compute. reflexivity.
  - intros H. apply (f_equal option_list) in H. numbers_differ H [1].
Qed.

(** The channels of [color(175, 100, 220)]: the value channel is 220. *)
Lemma rgb2hsv_value_is_max_witness :
  ∃ v, rgb2hsv 175 100 220 !! 2%nat = Some v ∧
    (v =? Math_round (Math_max [175; 100; 220] / 255 * 255)) = true ∧
    (v =? Math_round (Math_max [175; 100; 220])) = true.
Proof.
  destruct (rgb2hsv_value_is_max 175 100 220) as (v & Hv & H1 & H2);
    try (split; reflexivity).
  exists v. split_and!; [exact Hv | exact H1 |].
  apply H2; apply Leibniz.eqb_spec; vm_compute; reflexivity.
Defined.

(** C5 fails at the same number: [rgb2hsv(k, k, k)] is [[0, 0, 1]]
    for [k = 0.49999999999999994], and [Math.round(k)] is 0. *)
Lemma rgb2hsv_gray_below_half :
  between 0 255 below_half ∧
  rgb2hsv below_half below_half below_half = [0; 0; 1] ∧
  Math_round below_half = 0 ∧
  rgb2hsv below_half below_half below_half ≠ [0; 0; Math_round below_half].
Proof.
  split_and!.
  - vm_compute. split; reflexivity.
  - apply same_numbers_eq. vm_compute. reflexivity.
  - apply Leibniz.eqb_spec. vm_compute. reflexivity.
  - intros H. numbers_differ H [0; 0; 1].
Qed.

(** The grey of [color(65)]. *)
Lemma rgb2hsv_gray_witness :
  rgb2hsv 65 65 65 = [0; 0; Math_round (65 / 255 * 255)] ∧
  rgb2hsv 65 65 65 = [0; 0; Math_round 65].
Proof.
  destruct (rgb2hsv_gray 65) as [H1 H2]; [split; reflexivity|].
  split; [exact H1|]. apply H2. apply Leibniz.eqb_spec. vm_compute. reflexivity.
Defined.

(** The channels of [color(175, 100, 220)] again: hue, saturation and
    value in range before and after scaling. *)
Lemma rgb2hsv_range_witness :
  (∃ H S V, hsv01 175 100 220 = (Some H, S, V) ∧
     between 0 1 H ∧ between 0 1 S ∧ between 0 1 V) ∧
  (∃ h s v, rgb2hsv 175 100 220 = [h; s; v] ∧
     Forall (λ c, between 0 255 c ∧ Math_round c = c) [h; s; v]).
Proof. apply (rgb2hsv_range 175 100 220); split; reflexivity. Defined.

(** Red and green tie at the maximum in [rgb2hsv(5, 5, 0)]: the hue
    comes from the red branch. *)
Lemma rgb2hsv_first_maximum_wins_witness :
  rgb2hsv 5 5 0 !! 0%nat
    = Some (Math_round (scale_hue (wrap_hue (Some
        (((5 / 255 - 0 / 255) / 6 + (5 / 255 - 0) / 2) / (5 / 255 - 0)
         - ((5 / 255 - 5 / 255) / 6 + (5 / 255 - 0) / 2) / (5 / 255 - 0)))))).
Proof.
  destruct (rgb2hsv_first_maximum_wins 5 5 0 eq_refl) as [Hred _].
  exact (Hred eq_refl).
Defined.

(** The order of the tests shows in the result: at that tie the green
    branch would give hue 42, the red branch gives 43. *)
Example rgb2hsv_tie_5_5_0 :
  rgb2hsv 5 5 0 = [43; 255; 5] ∧
  (let var_Max := 5 / 255 in
   let del_Max := var_Max - 0 in
   let del_R := ((var_Max - 5 / 255) / 6 + del_Max / 2) / del_Max in
   let del_B := ((var_Max - 0 / 255) / 6 + del_Max / 2) / del_Max in
   Math_round (scale_hue (wrap_hue (Some (1 / 3 + del_R - del_B))))) = 42.
Proof.
  split.
  - apply same_numbers_eq. vm_compute. reflexivity.
  - apply Leibniz.eqb_spec. vm_compute. reflexivity.
Qed.

(** The sample values of the spec. *)
Example rgb2hsv_primaries :
  rgb2hsv 255 0 0 = [0; 255; 255] ∧
  rgb2hsv 0 255 0 = [85; 255; 255] ∧
  rgb2hsv 0 0 255 = [170; 255; 255].
Proof. split_and!; apply same_numbers_eq; vm_compute; reflexivity. Qed.

(** [color(65)] in the default sketch is [gray65], stored at the first
    free reference. *)
Example color_65 :
  color normalizeToDisplayRange formatColorString RGBContext [VNum 65]
      (mkWorld ∅ [])
    = Returns (VObj 1) world65.
Proof. vm_compute. reflexivity. Qed.

(** The scenario of the spec under the linear range mapping:
    [color(50, 55, 100)] after [colorMode(HSB, 100)] stores its
    arguments and the default alpha 100 as [hsba], while [rgb2hsv] of
    its [rgba] with the alpha of [rgba] is [[166, 128, 255, 255]]. *)
Example hsb_sample_not_derived :
  color normalizeToDisplayRange formatColorString (HSBContext 100)
      [VNum 50; VNum 55; VNum 100] (mkWorld ∅ [])
    = Returns (VObj 1) (mkWorld {[1%positive := hsb_sample]} []) ∧
  hsba_of_rgba hsb_sample = [VNum 166; VNum 128; VNum 255; VNum 255] ∧
  ¬ consistent hsb_sample.
Proof.
  split_and!.
  - vm_compute. reflexivity.
  - vm_compute. reflexivity.
  - intros H. specialize (H _ eq_refl).
    apply (f_equal (λ t, match index t 3 with
                         | VNum x => Leibniz.eqb x 100
                         | _ => false
                         end)) in H.
    vm_compute in H. discriminate H.
Qed.

(** C1 fails outside RGB mode, whatever the range mapping is. [color(0.5, 55, 100)] after [colorMode(HSB, 100)] holds its
    arguments and the default alpha as [hsba]; whatever the range
    mapping makes of them as [rgba], the hue that [rgb2hsv] derives
    from [rgba] is not 0.5. *)
Lemma hsb_color_hsba_not_derived :
  hsba (new_color normalizeToDisplayRange formatColorString (HSBContext 100)
          [VNum 0.5; VNum 55; VNum 100])
    = Some [VNum 0.5; VNum 55; VNum 100; VNum 100] ∧
  ¬ ∃ getNormalizedColor getColorString,
      consistent (new_color getNormalizedColor getColorString (HSBContext 100)
                    [VNum 0.5; VNum 55; VNum 100]).
Proof.
  split; [reflexivity|].
  intros (getNormalizedColor & getColorString & H).
  specialize (H _ eq_refl).
  destruct (hsba_of_rgba_hue (new_color getNormalizedColor getColorString
              (HSBContext 100) [VNum 0.5; VNum 55; VNum 100])) as [y Hy].
  rewrite <- H in Hy.
  apply (f_equal (λ v, match v with VNum x => x | _ => nan end)) in Hy.
  cbn in Hy. symmetry in Hy. by apply Math_round_not_half in Hy.
Qed.

(** [color(65)] in the default sketch, then [hue] and [red] on it. *)
Lemma hsba_after_accessors_witness :
  ∃ l w1 o1 vs w2 o,
    color normalizeToDisplayRange formatColorString RGBContext
      [VNum 65] (mkWorld ∅ []) = Returns (VObj l) w1 ∧
    heap w1 !! l = Some o1 ∧ hsba o1 = None ∧
    run normalizeToDisplayRange formatColorString
      [(RGBContext, Hue, VObj 1); (RGBContext, Red, VNum 7)] w1
      = Returns vs w2 ∧
    heap w2 !! l = Some o ∧
    hsba o = Some [VNum 0; VNum 0; VNum 65; VNum 255] ∧
    consistent o.
Proof.
  destruct (hsba_after_accessors normalizeToDisplayRange formatColorString
              RGBContext [VNum 65]
              [(RGBContext, Hue, VObj 1); (RGBContext, Red, VNum 7)]
              (mkWorld ∅ [])) as (l & w1 & o1 & Hc & Ho1 & Hh1 & _ & H).
  injection Hc as <- <-.
  edestruct H as (o & Ho & _ & Hcons & _); [vm_compute; reflexivity|].
  eexists _, _, o1, _, _, o. split; [reflexivity|].
  split; [exact Ho1|]. split; [exact Hh1|].
  split; [vm_compute; reflexivity|]. split; [exact Ho|].
  split; [|exact (proj2 (Hcons eq_refl))].
  vm_compute in Ho. injection Ho as <-. reflexivity.
Defined.

Lemma color_few_values_witness :
  color_channels RGBContext [VNum 65] = [VNum 65; VNum 65; VNum 65; VNum 255] ∧
  color_channels (HSBContext 100) [VNum 65; VNum 30]
    = [VNum 65; VNum 0; VNum 65; VNum 30].
Proof.
  split.
  - exact (proj1 (color_few_values normalizeToDisplayRange formatColorString
                    RGBContext [65] (mkWorld ∅ []) ltac:(simpl; lia))).
  - exact (proj1 (color_few_values normalizeToDisplayRange formatColorString
                    (HSBContext 100) [65; 30] (mkWorld ∅ []) ltac:(simpl; lia))).
Defined.

(** [hue] on the grey of [world65]. *)
Lemma accessor_frame_witness :
  ∃ v w' o',
    call normalizeToDisplayRange formatColorString RGBContext Hue (VObj 1) world65
      = Returns v w' ∧
    heap w' !! 1%positive = Some o' ∧
    rgba o' = rgba gray65 ∧ colorString o' = colorString gray65 ∧
    isColor o' = isColor gray65.
Proof.
  destruct (accessor_frame normalizeToDisplayRange formatColorString
              RGBContext Hue world65 1%positive gray65 eq_refl eq_refl)
    as (v & w' & o' & Hcall & Ho & _ & Hrgba & Hstr & Htag & _).
  exists v, w', o'. split_and!; assumption.
Defined.

(** [hue], [saturation] and [brightness] in turn on the grey of
    [world65]: one conversion. *)
Lemma hsba_converted_once_witness :
  ∃ vs w',
    run normalizeToDisplayRange formatColorString
      (on 1 [(RGBContext, Hue); (RGBContext, Saturation); (RGBContext, Brightness)])
      world65 = Returns vs w' ∧
    conversions w' = [(65, 65, 65)] ∧
    vs = [VNum 0; VNum 0; VNum 65].
Proof.
  destruct (hsba_converted_once normalizeToDisplayRange formatColorString
              [(RGBContext, Hue); (RGBContext, Saturation); (RGBContext, Brightness)]
              world65 1%positive gray65 eq_refl eq_refl)
    as (vs & w' & o' & Hrun & Hconv & _ & _ & _ & Hvs).
  exists vs, w'. split; [exact Hrun|]. split; [exact Hconv | exact Hvs].
Defined.

(** The sample calls of the spec. *)
Example lerpColor_samples :
  lerpColor scalar_lerp (VArr [VNum 204; VNum 102; VNum 0])
      (VArr [VNum 0; VNum 102; VNum 153]) (VNum 0.5)
    = Some (VArr [VNum 102; VNum 102; VNum 76.5]) ∧
  lerpColor scalar_lerp (VNum 0) (VNum 255) (VNum 0.5) = Some (VNum 127.5) ∧
  lerpColor scalar_lerp (VNum 0) (VNum 255) (VNum 1.5) = Some (VNum 382.5).
Proof. split_and!; vm_compute; reflexivity. Qed.

(** *** Further cases *)

(** [hue(null)] throws; [hue] of the grey of [world65] does not. *)
Lemma accessor_throws_witness :
  call normalizeToDisplayRange formatColorString RGBContext Hue VNull world65
    = Throws ∧
  call normalizeToDisplayRange formatColorString RGBContext Hue (VObj 1) world65
    ≠ Throws.
Proof.
  split.
  - apply (accessor_throws normalizeToDisplayRange formatColorString
             RGBContext Hue VNull world65).
    + intros l H. discriminate H.
    + right. reflexivity.
  - intros H.
    apply (accessor_throws normalizeToDisplayRange formatColorString
             RGBContext Hue (VObj 1) world65) in H.
    + destruct H as [H | H]; discriminate H.
    + intros l [= <-]. exists gray65. reflexivity.
Defined.

(** [red(65)] in the default sketch is [red] of [color(65)]. *)
Lemma accessor_coerces_witness :
  ∃ l w1,
    color normalizeToDisplayRange formatColorString RGBContext [VNum 65]
      (mkWorld ∅ []) = Returns (VObj l) w1 ∧
    call normalizeToDisplayRange formatColorString RGBContext Red (VNum 65)
      (mkWorld ∅ [])
    = call normalizeToDisplayRange formatColorString RGBContext Red (VObj l) w1.
Proof.
  destruct (accessor_coerces normalizeToDisplayRange formatColorString
              RGBContext Red (VNum 65) (mkWorld ∅ []))
    as (l & w1 & H1 & _ & _ & _ & H2);
    [discriminate | discriminate | intros l; discriminate |].
  exists l, w1. split; assumption.
Defined.

(** [color(50, 55, 100)] after [colorMode(HSB, 100)], read by [hue]
    back in RGB mode: 50. *)
Lemma hsb_reads_arguments_witness :
  ∃ l w1,
    color normalizeToDisplayRange formatColorString (HSBContext 100)
      [VNum 50; VNum 55; VNum 100] (mkWorld ∅ []) = Returns (VObj l) w1 ∧
    call normalizeToDisplayRange formatColorString RGBContext Hue (VObj l) w1
      = Returns (VNum 50) w1.
Proof.
  destruct (hsb_reads_arguments normalizeToDisplayRange formatColorString
              (HSBContext 100) RGBContext Hue [VNum 50; VNum 55; VNum 100]
              (mkWorld ∅ []) eq_refl eq_refl) as (l & w1 & H1 & H2 & H3).
  exists l, w1. split; [exact H1|].
  rewrite H2, H3 by (simpl; lia). reflexivity.
Defined.

(** [blue(color(175, 100, 220))] in the default sketch, read after
    [colorMode(HSB, 100)]. *)
Lemma rgb_reads_normalized_witness :
  ∃ l w1,
    color normalizeToDisplayRange formatColorString RGBContext
      [VNum 175; VNum 100; VNum 220] (mkWorld ∅ []) = Returns (VObj l) w1 ∧
    call normalizeToDisplayRange formatColorString (HSBContext 100) Blue
      (VObj l) w1
    = Returns (index_num (normalizeToDisplayRange RGBContext
                 (color_channels RGBContext [VNum 175; VNum 100; VNum 220])) 2)
        w1.
Proof.
  exact (rgb_reads_normalized normalizeToDisplayRange formatColorString
           RGBContext (HSBContext 100) Blue [VNum 175; VNum 100; VNum 220]
           (mkWorld ∅ []) eq_refl).
Defined.

(** [hue] on the grey of [world65], then [red(7)]. *)
Lemma run_keeps_objects_witness :
  ∃ vs w' o',
    run normalizeToDisplayRange formatColorString
      [(RGBContext, Hue, VObj 1); (RGBContext, Red, VNum 7)] world65
      = Returns vs w' ∧
    heap w' !! 1%positive = Some o' ∧ rgba o' = rgba gray65 ∧
    length vs = 2%nat.
Proof.
  assert (∃ vs w',
            run normalizeToDisplayRange formatColorString
              [(RGBContext, Hue, VObj 1); (RGBContext, Red, VNum 7)] world65
            = Returns vs w') as (vs & w' & Hrun)
    by (eexists _, _; vm_compute; reflexivity).
  destruct (run_keeps_objects normalizeToDisplayRange formatColorString
              _ _ _ _ 1%positive gray65 Hrun eq_refl)
    as ((o' & Ho & Hr & _) & _ & Hlen).
  exists vs, w', o'. split; [exact Hrun|]. split; [exact Ho|].
  split; [exact Hr | exact Hlen].
Defined.

(** [hue(7)], [saturation(7)] and [brightness(7)] after
    [colorMode(HSB, 100)]. *)
Lemma hsb_accessor_of_scalar_witness :
  ∃ w1,
    call normalizeToDisplayRange formatColorString (HSBContext 100) Hue
      (VNum 7) (mkWorld ∅ []) = Returns (VNum 7) w1 ∧
    call normalizeToDisplayRange formatColorString (HSBContext 100) Saturation
      (VNum 7) (mkWorld ∅ []) = Returns (VNum 0) w1 ∧
    call normalizeToDisplayRange formatColorString (HSBContext 100) Brightness
      (VNum 7) (mkWorld ∅ []) = Returns (VNum 7) w1.
Proof.
  destruct (hsb_accessor_of_scalar normalizeToDisplayRange formatColorString
              (HSBContext 100) (VNum 7) (mkWorld ∅ []) eq_refl)
    as (w1 & H1 & H2 & H3 & _);
    [discriminate | discriminate | intros l; discriminate |].
  exists w1. split; [exact H1|]. split; [exact H2 | exact H3].
Defined.

Lemma rgb2hsv_nan_witness : rgb2hsv nan 100 220 = [nan; nan; nan].
Proof. apply (rgb2hsv_nan nan 100 220). left. reflexivity. Defined.

(** An orange. *)
Lemma rgb2hsv_full_saturation_witness : rgb2hsv 255 128 0 !! 1%nat = Some 255.
Proof.
  apply (rgb2hsv_full_saturation 255 128 0);
    first [split; reflexivity | reflexivity].
Defined.

Lemma rgb2hsv_red_hue_witness :
  ∃ h, rgb2hsv 200 30 30 !! 0%nat = Some h ∧ (h =? 0) = true.
Proof.
  apply (rgb2hsv_red_hue 200 30); first [split; reflexivity | reflexivity].
Defined.

Lemma rgb2hsv_green_blue_hue_witness :
  rgb2hsv 5 9 5 !! 0%nat = Some 85 ∧ rgb2hsv 5 5 9 !! 0%nat = Some 170.
Proof.
  apply (rgb2hsv_green_blue_hue 5 9); first [split; reflexivity | reflexivity].
Defined.

Lemma rgb2hsv_channel_order_witness :
  ∃ s v s1 v1 s2 v2,
    rgb2hsv 175 100 220 !! 1%nat = Some s ∧
    rgb2hsv 175 100 220 !! 2%nat = Some v ∧
    rgb2hsv 100 175 220 !! 1%nat = Some s1 ∧
    rgb2hsv 100 175 220 !! 2%nat = Some v1 ∧
    rgb2hsv 175 220 100 !! 1%nat = Some s2 ∧
    rgb2hsv 175 220 100 !! 2%nat = Some v2 ∧
    (s =? s1) = true ∧ (v =? v1) = true ∧
    (s =? s2) = true ∧ (v =? v2) = true.
Proof.
  apply (rgb2hsv_channel_order 175 100 220); split; reflexivity.
Defined.

(** [hue(color(175, 100, 220))] in the default sketch under the linear
    range mapping. *)
Lemma hsb_accessor_range_witness :
  ∃ l w1 x w2,
    color normalizeToDisplayRange formatColorString RGBContext
      [VNum 175; VNum 100; VNum 220] (mkWorld ∅ []) = Returns (VObj l) w1 ∧
    call normalizeToDisplayRange formatColorString RGBContext Hue (VObj l) w1
      = Returns (VNum x) w2 ∧
    between 0 255 x ∧ Math_round x = x.
Proof.
  apply (hsb_accessor_range normalizeToDisplayRange formatColorString
           RGBContext RGBContext Hue [VNum 175; VNum 100; VNum 220]
           (mkWorld ∅ []) 175 100 220 255);
    first [split; reflexivity | reflexivity
          | apply same_numbers_eq; vm_compute; reflexivity].
Defined.

End Cases.
